(** * PyUnfold core: the Bayesian mixer and its covariance propagation

    A shallow embedding of [pyunfold/mix.py] (classes [Mixer] and
    [CovarianceMatrix], helpers [poisson_covariance] and
    [multinomial_covariance]) and of the parts of [pyunfold/Utils.py] that
    compute without an external fit, plot or special-function library:
    [safe_inverse], [none_to_empty_list], the classes [DataDist],
    [TestStat] and [RMD], and the argument checks of [Regularizer].

    Numbers.  The program computes with IEEE doubles; here every array
    entry is an exact rational ([Qc], canonical fractions, Leibniz
    equality), so rounding is outside the model and "within floating
    tolerance" reads as equality.  The division [1 / x] inside
    [safe_inverse] is modelled with its non-finite values: an infinity at
    [x = 0], which the function masks, and at a non-zero [x] whose
    reciprocal overflows the doubles, which it does not
    ([safe_inverse_np]).  The mixer is modelled on exact numbers, where no
    reciprocal overflows ([safe_inverse]).

    Arrays.  A 1-D array is a list; a 2-D array is a record that carries
    its column count next to its rows (an array with no row still has a
    second dimension).  Elementwise operators follow the broadcasting
    rule of numpy and torch, matrix products check the inner dimension,
    indexing checks its bounds: a failed check is an exception, carried
    by [result].

    Layouts.  The arrays handed to [Mixer] are strided (dense) tensors.
    The tensors that the program turns sparse with [to_sparse()] stay
    sparse, and the one statement that combines a sparse and a strided
    tensor in a way the tensor library refuses, the last statement of
    [_adye_propagation_corrections], raises.  On a strided array the
    in-place square of [poisson_covariance] also reaches the caller's
    array; that effect is given by the [_leaves] definitions next to the
    functions that return the covariance. *)

From Stdlib Require Import String Ascii.
From Stdlib Require Import List Arith Bool Lia QArith Qcanon Lqa.
Import ListNotations.

Close Scope Qc_scope.
Close Scope Q_scope.
Open Scope nat_scope.

Set Implicit Arguments.

(** ** Exceptions and the error monad *)

Inductive exn : Type :=
| ValueError            (* raised by mix.py itself *)
| ShapeError            (* raised by the array library: operands do not fit *)
| IndexError            (* raised by the array library: index out of range *)
| NotImplementedError
| UnboundLocalError      (* a local read before any assignment *)
| RuntimeError.          (* raised by the tensor library: an operation that
                            does not take a sparse and a strided operand *)

Inductive result (A : Type) : Type :=
| Ok (a : A)
| Err (e : exn).

Arguments Ok {A} a.
Arguments Err {A} e.

Definition bind {A B : Type} (m : result A) (k : A -> result B) : result B :=
  match m with
  | Ok a => k a
  | Err e => Err e
  end.

Notation "x <- m ;; k" := (bind m (fun x => k))
  (at level 61, m at next level, right associativity).

(** A [for] loop over a list of indices whose body may raise. *)
Fixpoint foldM {A B : Type} (body : A -> B -> result A) (l : list B) (acc : A)
  : result A :=
  match l with
  | [] => Ok acc
  | x :: l' => acc' <- body acc x ;; foldM body l' acc'
  end.

(** [np.arange(0, n)] *)
Definition arange (n : nat) : list nat := seq 0 n.

(** ** Scalars and 1-D arrays *)

Definition vec := list Qc.

Definition Qc_of_Z (z : Z) : Qc := Q2Qc (inject_Z z).

(** [x < y] and [x <= y] on numbers *)
Definition Qc_leb (x y : Qc) : bool := Qle_bool x y.
Definition Qc_ltb (x y : Qc) : bool := negb (Qle_bool y x).

(** [np.abs(x)] *)
Definition Qc_abs (x : Qc) : Qc := if Qc_leb (Q2Qc 0) x then x else (- x)%Qc.

Definition vget (v : vec) (i : nat) : Qc := nth i v (Q2Qc 0).

(** [v[i]] *)
Definition getitem (v : vec) (i : nat) : result Qc :=
  if i <? length v then Ok (vget v i) else Err IndexError.

Definition vtab (n : nat) (f : nat -> Qc) : vec := map f (seq 0 n).

(** [sum_{k < n} f k], the accumulation of a dot product or of [.sum()] *)
Definition bigsum (n : nat) (f : nat -> Qc) : Qc :=
  fold_right (fun k acc => (f k + acc)%Qc) (Q2Qc 0) (seq 0 n).

(** [v.sum()] *)
Definition vsum (v : vec) : Qc := bigsum (length v) (vget v).

(** The broadcasting rule for one axis. *)
Definition bdim (a b : nat) : result nat :=
  if a =? b then Ok a
  else if a =? 1 then Ok b
  else if b =? 1 then Ok a
  else Err ShapeError.

(** The index read along an axis of extent [n] that is broadcast. *)
Definition bidx (n i : nat) : nat := if n =? 1 then 0 else i.

(** [u op v] on 1-D arrays *)
Definition vbroadcast (op : Qc -> Qc -> Qc) (u v : vec) : result vec :=
  n <- bdim (length u) (length v) ;;
  Ok (vtab n (fun i => op (vget u (bidx (length u) i))
                          (vget v (bidx (length v) i)))).

Definition vmul : vec -> vec -> result vec := vbroadcast Qcmult.

(** [a * v], [-v], [v ** 2] for a scalar [a] *)
Definition vscale (a : Qc) (v : vec) : vec := map (Qcmult a) v.
Definition vneg (v : vec) : vec := map Qcopp v.
Definition vsquare (v : vec) : vec := map (fun x => (x * x)%Qc) v.

(** ** safe_inverse (Utils.py) *)

(** The value of a numpy division: a finite number, or what [1 / x]
    gives under [np.errstate(divide='ignore')] when [x] is zero or the
    quotient is too large for a double. *)
Inductive npfloat : Type :=
| Finite (q : Qc)
| Inf
| NaN.

Definition is_finite (y : npfloat) : bool :=
  match y with Finite _ => true | _ => false end.

(** The least magnitude that a double division rounds to infinity:
    [2^1024 - 2^970], half a unit in the last place above the largest
    double. *)
Definition overflow_bound : Qc := Qc_of_Z (2 ^ 1024 - 2 ^ 970)%Z.

Definition overflows (y : Qc) : bool := Qc_leb overflow_bound (Qc_abs y).

(** [1 / x] for one entry: an infinity at [x = 0], and at a non-zero [x]
    so small that the quotient overflows.  The rounding of a quotient
    that stays finite is left out. *)
Definition np_one_over (x : Qc) : npfloat :=
  if Qc_eq_bool x (Q2Qc 0) then Inf
  else if overflows (Q2Qc 1 / x)%Qc then Inf
  else Finite (Q2Qc 1 / x)%Qc.

(** [inv[mask] = v] *)
Fixpoint mask_assign (inv : list npfloat) (mask : list bool) (v : npfloat)
  : list npfloat :=
  match inv, mask with
  | y :: inv', b :: mask' => (if b then v else y) :: mask_assign inv' mask' v
  | _, _ => inv
  end.

(** The body of [safe_inverse], statement by statement. *)
Definition safe_inverse_np (x : vec) : list npfloat :=
  let is_zero := map (fun a => Qc_eq_bool a (Q2Qc 0)) x in
  let inv := map np_one_over x in
  mask_assign inv is_zero (Finite (Q2Qc 0)).

(** What one entry of [safe_inverse] is when its quotient does not
    overflow. *)
Definition inv_or_zero (a : Qc) : Qc :=
  if Qc_eq_bool a (Q2Qc 0) then Q2Qc 0 else (Q2Qc 1 / a)%Qc.

(** [safe_inverse] as mix.py consumes it, on exact numbers: the array
    that [safe_inverse_np] returns when no quotient overflows
    ([safe_inverse_np_exact] below). *)
Definition safe_inverse (x : vec) : vec := map inv_or_zero x.

(** ** 2-D arrays *)

Record matrix : Type := Mat { ncols : nat; rows : list vec }.

Definition nrows (m : matrix) : nat := length (rows m).

(** Every row has [ncols] entries: what the array type guarantees. *)
Definition wf_matrix (m : matrix) : bool :=
  forallb (fun r => length r =? ncols m) (rows m).

Definition has_shape (m : matrix) (r c : nat) : bool :=
  (nrows m =? r) && (ncols m =? c).

Definition mget (m : matrix) (i j : nat) : Qc := vget (nth i (rows m) []) j.

Definition mtab (r c : nat) (f : nat -> nat -> Qc) : matrix :=
  Mat c (map (fun i => vtab c (f i)) (seq 0 r)).

(** [torch.zeros((r, c))], [np.zeros((r, c))] *)
Definition zeros (r c : nat) : matrix := mtab r c (fun _ _ => Q2Qc 0).

(** [torch.empty((r, c))]: the contents are whatever the allocator left.
    Modelled as zeros; [_initialize_dcdP], its only user, is defined on an
    arbitrary buffer first ([initialize_dcdP_into]). *)
Definition torch_empty (r c : nat) : matrix := zeros r c.

(** [m[i, j]] *)
Definition getitem2 (m : matrix) (i j : nat) : result Qc :=
  if (i <? nrows m) && (j <? ncols m) then Ok (mget m i j) else Err IndexError.

(** [m[i, :]], [m[i]] *)
Definition getrow (m : matrix) (i : nat) : result vec :=
  if i <? nrows m then Ok (vtab (ncols m) (mget m i)) else Err IndexError.

(** [m[i, j] = v] *)
Definition setitem2 (m : matrix) (i j : nat) (v : Qc) : result matrix :=
  if (i <? nrows m) && (j <? ncols m)
  then Ok (mtab (nrows m) (ncols m)
             (fun i' j' => if (i' =? i) && (j' =? j) then v else mget m i' j'))
  else Err IndexError.

Fixpoint mapM {A B : Type} (f : A -> result B) (l : list A) : result (list B) :=
  match l with
  | [] => Ok []
  | x :: l' => y <- f x ;; ys <- mapM f l' ;; Ok (y :: ys)
  end.

(** [m[ir, ic]] for two index arrays of one length, read pairwise *)
Definition index_pairs (m : matrix) (ir ic : list nat) : result vec :=
  mapM (fun p => getitem2 m (nth p ir 0) (nth p ic 0)) (seq 0 (length ir)).

(** [m[ir, ic] = vals] for two index arrays of one length; [vals] is
    broadcast against them *)
Definition assign_pairs (m : matrix) (ir ic : list nat) (vals : vec)
  : result matrix :=
  if (length vals =? length ir) || (length vals =? 1)
  then foldM (fun m' p => setitem2 m' (nth p ir 0) (nth p ic 0)
                            (vget vals (bidx (length vals) p)))
             (seq 0 (length ir)) m
  else Err ShapeError.

(** A 1-D array seen as one row (how broadcasting aligns it with a 2-D
    array), and as one column ([v[:, None]], [v.reshape(-1, 1)]). *)
Definition as_row (v : vec) : matrix := Mat (length v) [v].
Definition as_col (v : vec) : matrix := Mat 1 (map (fun x => [x]) v).

(** [a op b] on 2-D arrays *)
Definition broadcast2 (op : Qc -> Qc -> Qc) (a b : matrix) : result matrix :=
  r <- bdim (nrows a) (nrows b) ;;
  c <- bdim (ncols a) (ncols b) ;;
  Ok (mtab r c (fun i j =>
        op (mget a (bidx (nrows a) i) (bidx (ncols a) j))
           (mget b (bidx (nrows b) i) (bidx (ncols b) j)))).

Definition mmul : matrix -> matrix -> result matrix := broadcast2 Qcmult.
Definition madd : matrix -> matrix -> result matrix := broadcast2 Qcplus.
Definition msub : matrix -> matrix -> result matrix := broadcast2 Qcminus.

(** [a += b]: [b] is broadcast, [a] keeps its shape *)
Definition iadd (a b : matrix) : result matrix :=
  s <- madd a b ;;
  if (nrows s =? nrows a) && (ncols s =? ncols a) then Ok s else Err ShapeError.

Definition mmap (f : Qc -> Qc) (m : matrix) : matrix :=
  Mat (ncols m) (map (map f) (rows m)).

(** [-m] *)
Definition mneg : matrix -> matrix := mmap Qcopp.

(** [m.T] *)
Definition transpose (m : matrix) : matrix :=
  mtab (ncols m) (nrows m) (fun i j => mget m j i).

(** [a @ b] *)
Definition matmul (a b : matrix) : result matrix :=
  if ncols a =? nrows b
  then Ok (mtab (nrows a) (ncols b)
             (fun i j => bigsum (ncols a) (fun k => mget a i k * mget b k j)%Qc))
  else Err ShapeError.

(** [a @ v] *)
Definition matvec (a : matrix) (v : vec) : result vec :=
  if ncols a =? length v
  then Ok (vtab (nrows a)
             (fun i => bigsum (ncols a) (fun k => mget a i k * vget v k)%Qc))
  else Err ShapeError.

(** [v @ a] *)
Definition vecmat (v : vec) (a : matrix) : result vec :=
  if length v =? nrows a
  then Ok (vtab (ncols a)
             (fun j => bigsum (nrows a) (fun k => vget v k * mget a k j)%Qc))
  else Err ShapeError.

(** [torch.outer(u, v)] *)
Definition outer (u v : vec) : matrix :=
  mtab (length u) (length v) (fun i j => vget u i * vget v j)%Qc.

(** [m.ravel()], row after row *)
Definition ravel (m : matrix) : vec := concat (rows m).

(** [torch.sparse.spdiags(d[:, None].T, torch.zeros(1).long(), (n, n))]
    with [n = d.shape[0]]: the square matrix with [d] on its diagonal *)
Definition spdiags (d : vec) : matrix :=
  mtab (length d) (length d)
       (fun i j => if i =? j then vget d i else Q2Qc 0).

(** ** Arrays of any number of dimensions

    What the constructor of [Mixer] may be handed as its response: a
    shape, and the entries in row-major order. *)
Record ndarray : Type := NdArray { nd_shape : list nat; nd_flat : vec }.

(** [a.ndim] *)
Definition ndim (a : ndarray) : nat := length (nd_shape a).

(** [a.shape[0]] *)
Definition shape0 (a : ndarray) : result nat :=
  match nd_shape a with
  | [] => Err IndexError
  | n :: _ => Ok n
  end.

(** A 2-dimensional array as the rest of the program reads it. *)
Definition as_matrix (a : ndarray) : matrix :=
  match nd_shape a with
  | [r; c] => mtab r c (fun i j => vget (nd_flat a) (i * c + j))
  | _ => mtab 0 0 (fun _ _ => Q2Qc 0)
  end.

(** ** Tensor layouts

    A tensor of the tensor library is strided (dense) or sparse.  The
    arrays handed to [Mixer] are strided; the layout of every tensor the
    program builds from them is then fixed by the program text:
    [to_sparse()] gives a sparse tensor, [clone()] and [.T] keep the
    layout, and an arithmetic operation gives the layout below.  The
    layouts are written out in [_adye_propagation_corrections], where one
    operation refuses its operands. *)
Inductive layout : Type := Strided | SparseCoo.

(** [a * b], elementwise with broadcasting *)
Definition layout_mul (a b : layout) : layout :=
  match a, b with
  | Strided, Strided => Strided
  | _, _ => SparseCoo
  end.

(** [a @ b] *)
Definition layout_matmul (a b : layout) : layout :=
  match a, b with
  | SparseCoo, SparseCoo => SparseCoo
  | _, _ => Strided
  end.

(** [a - b]: a strided tensor cannot be subtracted from a sparse one. *)
Definition layout_sub (a b : layout) : result layout :=
  match a, b with
  | SparseCoo, Strided => Err RuntimeError
  | SparseCoo, SparseCoo => Ok SparseCoo
  | Strided, _ => Ok Strided
  end.

(** ** Strings: [str.lower] on the two accepted tags

    Only the letters A..Z change; no other character lowers to a letter of
    "multinomial" or "poisson", so membership in the accepted list is
    decided as Python decides it. *)
Definition lower_ascii (c : ascii) : ascii :=
  let n := nat_of_ascii c in
  if (65 <=? n) && (n <=? 90) then ascii_of_nat (n + 32) else c.

Fixpoint lower (s : string) : string :=
  match s with
  | EmptyString => EmptyString
  | String c s' => String (lower_ascii c) (lower s')
  end.

(** ** Module-level helpers of mix.py *)

(** [poisson_covariance(ebins, cbins, pec_err)]: the matrix it returns,
    from [pec_err] as it is at the call. *)
Definition poisson_covariance (ebins cbins : nat) (pec_err : matrix) : matrix :=
  let diagonal := ravel pec_err in
  let diagonal := vsquare diagonal in
  spdiags diagonal.

(** What the call leaves in [pec_err].  On a strided [pec_err],
    [to_dense()] is the tensor itself and [ravel()] a view of it, so the
    in-place square [diagonal *= diagonal] squares the entries of the
    caller's array. *)
Definition poisson_covariance_leaves (pec_err : matrix) : matrix :=
  mmap (fun x => (x * x)%Qc) pec_err.

(** [multinomial_covariance(ebins, cbins, nc_inv, pec)] *)
Definition multinomial_covariance (ebins cbins : nat) (nc_inv : vec) (pec : matrix)
  : result matrix :=
  let CovPP := zeros (cbins * ebins) (cbins * ebins) in
  let ti := arange cbins in
  t <- mmul (as_row nc_inv) pec ;;
  A <- mmul t (mmap (fun x => Q2Qc 1 - x)%Qc pec) ;;
  foldM (fun CovPP ej =>
           let ejc := ej * cbins in
           Aej <- getrow A ej ;;
           CovPP <- assign_pairs CovPP (map (Nat.add ejc) ti) (map (Nat.add ejc) ti) Aej ;;
           pec_ej <- getrow pec ej ;;
           u <- vmul (vneg nc_inv) pec_ej ;;
           cov <- mmul (as_row u) pec ;;
           foldM (fun CovPP ek =>
                    cov_ek <- getrow cov ek ;;
                    CovPP <- assign_pairs CovPP (map (Nat.add ejc) ti)
                                          (map (Nat.add (ek * cbins)) ti) cov_ek ;;
                    assign_pairs CovPP (map (Nat.add (ek * cbins)) ti)
                                 (map (Nat.add ejc) ti) cov_ek)
                 (seq (ej + 1) (ebins - (ej + 1))) CovPP)
        (arange ebins) CovPP.

(** ** class CovarianceMatrix *)

Module CovarianceMatrix.

Record t : Type := Build {
  pec : matrix;            (* normalized P(E|C) *)
  pec_err : matrix;
  pec_cov_type : string;
  cEff : vec;
  cEff_inv : vec;
  NCmc : vec;              (* effective number of sim events *)
  NEobs : vec;
  NEobs_err : vec;
  nobs : Qc;               (* total number of observed effects *)
  cbins : nat;
  ebins : nat;
  dcdn : matrix;           (* Adye propagating derivatives *)
  dcdP : matrix;
  counter : nat            (* number of iterations *)
}.

Definition __init__ (data data_err efficiencies efficiencies_err : vec)
    (response response_err : matrix) (cov_type : string) : result t :=
  if negb (existsb (String.eqb (lower cov_type)) ["multinomial"; "poisson"]%string)
  then Err ValueError
  else
    let efficiencies_err_inv := safe_inverse efficiencies_err in
    u <- vmul efficiencies efficiencies_err_inv ;;
    let NCmc := vsquare u in
    let cbins := ncols response in
    let ebins := nrows response in
    Ok {| pec := response;
          pec_err := response_err;
          pec_cov_type := lower cov_type;
          cEff := efficiencies;
          cEff_inv := safe_inverse efficiencies;
          NCmc := NCmc;
          NEobs := data;
          NEobs_err := data_err;
          nobs := vsum data;
          cbins := cbins;
          ebins := ebins;
          dcdn := zeros ebins cbins;
          dcdP := zeros cbins (cbins * ebins);
          counter := 0 |}.

(** The three assignments that end [set_current_state]. *)
Definition store (self : t) (dcdn' dcdP' : matrix) : t :=
  {| pec := pec self; pec_err := pec_err self;
     pec_cov_type := pec_cov_type self;
     cEff := cEff self; cEff_inv := cEff_inv self; NCmc := NCmc self;
     NEobs := NEobs self; NEobs_err := NEobs_err self; nobs := nobs self;
     cbins := cbins self; ebins := ebins self;
     dcdn := dcdn'; dcdP := dcdP';
     counter := counter self + 1 |}.

(** The body of [_initialize_dcdP] after the allocation of [dcdP]. *)
Definition initialize_dcdP_into (dcdP : matrix) (self : t)
    (Mij : matrix) (f_norm n_c n_c_prev : vec) : result matrix :=
  let cbins := cbins self in
  let ebins := ebins self in
  NE_F_R <- vmul (NEobs self) (safe_inverse f_norm) ;;
  (* (ti, ec_j + tk) elements *)
  let tk := arange cbins in
  dcdP <- foldM (fun dcdP ej =>
             g <- getitem NE_F_R ej ;;
             Mij_ej <- getrow Mij ej ;;
             let A := outer (vscale (- g)%Qc Mij_ej) n_c_prev in
             foldM (fun dcdP ti =>
                      vals <- index_pairs A (map (fun _ => ti) tk) tk ;;
                      assign_pairs dcdP (map (fun _ => ti) tk)
                                   (map (Nat.add (ej * cbins)) tk) vals)
                   (arange cbins) dcdP)
          (arange ebins) dcdP ;;
  (* (ti, ec_j + ti) elements *)
  let ti := arange cbins in
  A <- msub (outer n_c_prev NE_F_R) (as_col n_c) ;;
  A <- mmul A (as_col (cEff_inv self)) ;;
  foldM (fun dcdP ej =>
           cur <- index_pairs dcdP ti (map (Nat.add (ej * cbins)) ti) ;;
           inc <- index_pairs A ti (map (fun _ => ej) ti) ;;
           upd <- vbroadcast Qcplus cur inc ;;
           assign_pairs dcdP ti (map (Nat.add (ej * cbins)) ti) upd)
        (arange ebins) dcdP.

Definition _initialize_dcdP (self : t) (Mij : matrix) (f_norm n_c n_c_prev : vec)
  : result matrix :=
  initialize_dcdP_into (torch_empty (cbins self) (cbins self * ebins self))
                       self Mij f_norm n_c n_c_prev.

(** [_adye_propagation_corrections].  [Mij] is strided, as the response
    is; [dcdP], returned by [_initialize_dcdP], and the stored [self.dcdP]
    are sparse.  The additions to [dcdn] take every layout that
    [self.dcdn] can have; the subtraction in the last statement is checked
    on its layouts before its values are formed. *)
Definition _adye_propagation_corrections (self : t) (dcdP Mij : matrix)
    (n_c n_c_prev : vec) : result (matrix * matrix) :=
  let layout_Mij := Strided in
  let layout_dcdP_prev := SparseCoo in
  let dcdn := Mij in
  (* Get previous derivatives *)
  let dcdn_prev := CovarianceMatrix.dcdn self in
  let dcdP_prev := CovarianceMatrix.dcdP self in
  let n_c_prev_inv := safe_inverse n_c_prev in
  (* Ratio of updated n_c to n_c_prev *)
  nc_r <- vmul n_c n_c_prev_inv ;;
  (* Efficiency ratio of n_c_prev *)
  e_r <- vmul (cEff self) n_c_prev_inv ;;
  (* Calculate extra dcdn terms *)
  M1 <- mmul dcdn_prev (as_row nc_r) ;;
  M2 <- mmul (mneg Mij) (as_row e_r) ;;
  M2 <- mmul (transpose M2) (as_row (NEobs self)) ;;
  M3 <- matmul M2 dcdn_prev ;;
  MM3 <- matmul Mij M3 ;;
  dcdn <- iadd dcdn MM3 ;;
  dcdn <- iadd dcdn M1 ;;
  (* Calculate extra dcdP terms *)
  At <- mmul (transpose Mij) (as_row (NEobs self)) ;;
  B <- mmul Mij (as_row e_r) ;;
  C <- matmul At B ;;
  let layout_C :=
    layout_matmul (layout_mul layout_Mij Strided) (layout_mul layout_Mij Strided) in
  dcdP_Upd <- matmul C dcdP_prev ;;
  let layout_dcdP_Upd := layout_matmul layout_C layout_dcdP_prev in
  X <- mmul (transpose dcdP_prev) (as_row nc_r) ;;
  let layout_X := layout_mul layout_dcdP_prev Strided in
  _ <- layout_sub layout_X layout_dcdP_Upd ;;
  Y <- msub (transpose X) dcdP_Upd ;;
  dcdP <- iadd dcdP Y ;;
  Ok (dcdn, dcdP).

(** [set_current_state]: the state after the call and what the call
    returns.  An exception leaves the object as it was when it was raised. *)
Definition set_current_state (self : t) (Mij : matrix) (f_norm n_c n_c_prev : vec)
  : t * result unit :=
  (* D'Agostini form (and/or first term of Adye) *)
  match _initialize_dcdP self Mij f_norm n_c n_c_prev with
  | Err e => (self, Err e)
  | Ok dcdP =>
      let dcdn := Mij in
      (* Add Adye propagation corrections *)
      match (if 0 <? counter self
             then _adye_propagation_corrections self dcdP Mij n_c n_c_prev
             else Ok (dcdn, dcdP)) with
      | Err e => (self, Err e)
      | Ok (dcdn, dcdP) => (store self dcdn dcdP, Ok tt)
      end
  end.

Definition getVcd (self : t) : result matrix :=
  diagonal <- vmul (NEobs_err self) (NEobs_err self) ;;
  Ok (spdiags diagonal).

Definition getVc0 (self : t) : result matrix :=
  let dcdn := dcdn self in
  Vcd <- getVcd self ;;
  u <- matmul (transpose dcdn) Vcd ;;
  matmul u dcdn.

Definition getVcPP (self : t) : result matrix :=
  if String.eqb (pec_cov_type self) "poisson"
  then Ok (poisson_covariance (ebins self) (cbins self) (pec_err self))
  else if String.eqb (pec_cov_type self) "multinomial"
  then Err NotImplementedError
  else Err UnboundLocalError.

Definition getVc1 (self : t) : result matrix :=
  CovPP <- getVcPP self ;;
  let dcdP := dcdP self in
  u <- matmul dcdP CovPP ;;
  matmul u (transpose dcdP).

(** The object after a call of [getVcPP], and so after a call of
    [getVc1]: in poisson mode [poisson_covariance] has squared the
    entries of [pec_err]. *)
Definition getVcPP_leaves (self : t) : t :=
  if String.eqb (pec_cov_type self) "poisson"
  then {| pec := pec self;
          pec_err := poisson_covariance_leaves (pec_err self);
          pec_cov_type := pec_cov_type self;
          cEff := cEff self; cEff_inv := cEff_inv self; NCmc := NCmc self;
          NEobs := NEobs self; NEobs_err := NEobs_err self; nobs := nobs self;
          cbins := cbins self; ebins := ebins self;
          dcdn := dcdn self; dcdP := dcdP self; counter := counter self |}
  else self.

Definition get_cov (self : t) : result matrix :=
  Vc0 <- getVc0 self ;;
  Vc1 <- getVc1 self ;;
  madd Vc0 Vc1.

(** The object after a call of [get_cov]: [getVcPP] runs once [getVc0]
    has returned. *)
Definition get_cov_leaves (self : t) : t :=
  match getVc0 self with
  | Ok _ => getVcPP_leaves self
  | Err _ => self
  end.

End CovarianceMatrix.

(** ** class Mixer *)

Module Mixer.

Record t : Type := Build {
  pec : matrix;
  cEff : vec;
  NEobs : vec;
  cbins : nat;
  ebins : nat;
  cEff_inv : vec;
  Mij : matrix;            (* mixing matrix of the latest step *)
  cov : CovarianceMatrix.t
}.

(** The constructor on a 2-dimensional response, which passes the test
    [response.ndim != 2]; [__init__nd] below is the constructor on a
    response of any number of dimensions. *)
Definition __init__ (data data_err efficiencies efficiencies_err : vec)
    (response response_err : matrix) (cov_type : string) : result t :=
  if negb (length data =? nrows response)
  then Err ValueError
  else
    let cbins := ncols response in
    let ebins := nrows response in
    cov <- CovarianceMatrix.__init__ data data_err efficiencies efficiencies_err
                                     response response_err cov_type ;;
    Ok {| pec := response;
          cEff := efficiencies;
          NEobs := data;
          cbins := cbins;
          ebins := ebins;
          cEff_inv := safe_inverse efficiencies;
          Mij := zeros ebins cbins;
          cov := cov |}.

(** [Mixer(...)] with a response of any number of dimensions: the two
    input validations, then the constructor on the 2-dimensional
    response. *)
Definition __init__nd (data data_err efficiencies efficiencies_err : vec)
    (response : ndarray) (response_err : matrix) (cov_type : string) : result t :=
  n <- shape0 response ;;
  if negb (length data =? n)
  then Err ValueError
  else if negb (ndim response =? 2)
  then Err ValueError
  else __init__ data data_err efficiencies efficiencies_err
                (as_matrix response) response_err cov_type.

Definition set_Mij (self : t) (Mij' : matrix) : t :=
  {| pec := pec self; cEff := cEff self; NEobs := NEobs self;
     cbins := cbins self; ebins := ebins self; cEff_inv := cEff_inv self;
     Mij := Mij'; cov := cov self |}.

Definition set_cov (self : t) (cov' : CovarianceMatrix.t) : t :=
  {| pec := pec self; cEff := cEff self; NEobs := NEobs self;
     cbins := cbins self; ebins := ebins self; cEff_inv := cEff_inv self;
     Mij := Mij self; cov := cov' |}.

Definition get_cov (self : t) : result matrix :=
  CovarianceMatrix.get_cov (cov self).

(** The mixer after a call of [get_cov]. *)
Definition get_cov_leaves (self : t) : t :=
  set_cov self (CovarianceMatrix.get_cov_leaves (cov self)).

(** [get_stat_err] and [get_MC_err] take the square roots of the diagonals
    of [getVc0] and [getVc1]; a square root has no exact rational value and
    the two methods are left out of the embedding. *)

(** The computation of [smear] up to the first assignment to [self]. *)
Definition smear_step (self : t) (n_c : vec) : result (matrix * vec * vec) :=
  (* Bayesian normalization term (denominator) *)
  f_norm <- matvec (pec self) n_c ;;
  let f_inv := safe_inverse f_norm in
  n_c_eff <- vmul n_c (cEff_inv self) ;;
  (* Unfolding (Mij) matrix at current step *)
  u <- mmul (pec self) (as_row n_c_eff) ;;
  Mij <- mmul u (as_col f_inv) ;;
  (* Estimate cause distribution via Mij *)
  n_c_update <- vecmat (NEobs self) Mij ;;
  Ok (Mij, f_norm, n_c_update).

(** [smear]: the state after the call and what the call returns. *)
Definition smear (self : t) (n_c : vec) : t * result vec :=
  if negb (length n_c =? cbins self)
  then (self, Err ValueError)
  else
    match smear_step self n_c with
    | Err e => (self, Err e)
    | Ok (Mij, f_norm, n_c_update) =>
        (* The status quo *)
        let self := set_Mij self Mij in
        let (cov', r) :=
          CovarianceMatrix.set_current_state (cov self) Mij f_norm n_c_update n_c in
        let self := set_cov self cov' in
        match r with
        | Err e => (self, Err e)
        | Ok _ => (self, Ok n_c_update)
        end
    end.

End Mixer.

(** * Utils.py: values, distributions, test statistics, fit checks *)

(** ** none_to_empty_list

    The function takes any Python values.  The values that reach it in
    this file are [None], lists, strings, numbers and arrays. *)

#[warnings="-register-all"]
Inductive pyobj : Type :=
| PyNone
| PyList (items : list pyobj)
| PyStr (s : string)
| PyNum (q : Qc)
| PyArray (v : vec).

(** [arg if arg is not None else []] *)
Definition or_empty_list (arg : pyobj) : pyobj :=
  match arg with
  | PyNone => PyList []
  | _ => arg
  end.

(** [none_to_empty_list], called with any number of arguments *)
Definition none_to_empty_list (args : list pyobj) : pyobj :=
  let outputs := fold_left (fun outputs arg => outputs ++ [or_empty_list arg])
                           args [] in
  if length outputs =? 1
  then nth 0 outputs PyNone
  else PyList outputs.

(** ** class DataDist *)

(** [np.diff(v)]: [v[1:] - v[:-1]] *)
Definition np_diff (v : vec) : vec :=
  map (fun ab => (snd ab - fst ab)%Qc) (combine v (tl v)).

(** [np.zeros(n)] *)
Definition np_zeros (n : nat) : vec := vtab n (fun _ => Q2Qc 0).

(** The arrays of a [DataDist] are [None] or 1-D arrays. *)
Definition of_optional (a : option vec) : pyobj :=
  match a with
  | None => PyNone
  | Some v => PyArray v
  end.

(** The entries of what [none_to_empty_list] hands back for such an
    argument: an array, or the empty list. *)
Definition entries (o : pyobj) : vec :=
  match o with
  | PyArray v => v
  | _ => []
  end.

(** An optional array as the constructor of [DataDist] stores it. *)
Definition array_or_empty (a : option vec) : vec :=
  entries (or_empty_list (of_optional a)).

Module DataDist.

Record t : Type := Build {
  name : string;
  data : vec;
  nbins : nat;
  error : vec;
  axis : vec;
  edges : vec;
  width : vec;
  xlab : string;
  ylab : string;
  units : string;
  sterr : vec;             (* statistical error *)
  syerr : vec              (* systematic error *)
}.

(** Ensure that arrays are of proper lengths. *)
Definition CheckArrays (self : t) : result unit :=
  if negb (nbins self =? length (error self)) then Err ValueError
  else if negb (nbins self =? length (axis self)) then Err ValueError
  else if negb (Z.of_nat (nbins self) =? Z.of_nat (length (edges self)) - 1)%Z
  then Err ValueError
  else Ok tt.

Definition __init__ (name : string) (data error axis edges : option vec)
    (xlabel ylabel units : string) : result t :=
  match none_to_empty_list (map of_optional [data; error; axis; edges]) with
  | PyList [data; error; axis; edges] =>
      let data := entries data in
      let error := entries error in
      let axis := entries axis in
      let edges := entries edges in
      let self :=
        {| name := name;
           data := data;
           nbins := length data;
           error := error;
           axis := axis;
           edges := edges;
           width := np_diff edges;
           xlab := xlabel;
           ylab := ylabel;
           units := units;
           sterr := np_zeros (length data);
           syerr := np_zeros (length data) |} in
      _ <- CheckArrays self ;;
      Ok self
  | _ => Err ValueError    (* the unpacking of four values; not reached *)
  end.

Definition getData (self : t) : vec := data self.
Definition getError (self : t) : vec := error self.

Definition setStatErr (self : t) (staterr : vec) : t :=
  {| name := name self; data := data self; nbins := nbins self;
     error := error self; axis := axis self; edges := edges self;
     width := width self; xlab := xlab self; ylab := ylab self;
     units := units self; sterr := staterr; syerr := syerr self |}.

Definition setSysErr (self : t) (syserr : vec) : t :=
  {| name := name self; data := data self; nbins := nbins self;
     error := error self; axis := axis self; edges := edges self;
     width := width self; xlab := xlab self; ylab := ylab self;
     units := units self; sterr := sterr self; syerr := syserr |}.

End DataDist.

(** ** Exceptions of Utils.py: the library's, and those of [assert] *)

Inductive raised : Type :=
| AssertionError
| Raised (e : exn).

Inductive outcome (A : Type) : Type :=
| Return (a : A)
| Raise (r : raised).

Arguments Return {A} a.
Arguments Raise {A} r.

(** [np.max(v)]; an empty array has no maximum *)
Definition np_max (v : vec) : result Qc :=
  match v with
  | [] => Err ValueError
  | x :: v' => Ok (fold_left (fun m y => if Qc_ltb m y then y else m) v' x)
  end.

(** [v[a:b]] for integers [a], [b]: a negative index counts from the end,
    and both ends are clipped to the array. *)
Definition slice_index (len : nat) (i : Z) : nat :=
  if (i <? 0)%Z then Z.to_nat (Z.max 0 (i + Z.of_nat len))
  else Nat.min (Z.to_nat i) len.

Definition py_slice (v : vec) (a b : Z) : vec :=
  let lo := slice_index (length v) a in
  let hi := slice_index (length v) b in
  firstn (hi - lo) (skipn lo v).

(** [np.searchsorted(a, key)], the search of the array library: a
    bisection that keeps to the left of equal entries. *)
Fixpoint bisect_left (fuel : nat) (a : vec) (key : Qc) (lo hi : nat) : nat :=
  match fuel with
  | 0 => lo
  | S fuel' =>
      if lo <? hi
      then let mid := lo + (hi - lo) / 2 in
           if Qc_ltb (vget a mid) key
           then bisect_left fuel' a key (mid + 1) hi
           else bisect_left fuel' a key lo mid
      else lo
  end.

Definition searchsorted (a : vec) (key : Qc) : nat :=
  bisect_left (length a) a key 0 (length a).

(** [v] is in ascending order, as [np.searchsorted] expects of its
    first argument. *)
Fixpoint ascending (v : vec) : bool :=
  match v with
  | x :: ((y :: _) as v') => Qc_leb x y && ascending v'
  | _ => true
  end.

(** The entries of [N] at the positions where [Xaxis] lies in
    [xlo <= x < xhi]. *)
Definition bins_within (Xaxis : vec) (xlo xhi : Qc) (N : vec) : vec :=
  map snd (filter (fun xn => Qc_leb xlo (fst xn) && Qc_ltb (fst xn) xhi)
                  (combine Xaxis N)).

(** ** class TestStat

    [Xaxis] is an array (the default [None] would reach [[].copy()]),
    [TestRange] a list of numbers or [None].  Printing is left out; the
    flags that printing sets are kept.  [PassTol] compares with a
    tolerance that may be [None] and is left out. *)

Module TestStat.

Record t : Type := Build {
  name : string;
  tol : option Qc;
  Xaxis : vec;
  TSRange : vec;
  IsRangeTS : bool;
  TSbins : Z * Z;
  verbose : bool;
  printProbMessage : bool;
  printStatsHeader : bool;
  stat : Qc;
  delstat : Qc;
  prob : Qc;
  dof : Z;
  dofSet : bool
}.

(** [SetTestRangeBins]: the bins, and whether a range was set. *)
Definition SetTestRangeBins (Xaxis TSRange : vec) : outcome (Z * Z * bool) :=
  match TSRange with
  | [] => Return (0%Z, (-1)%Z, false)
  | _ =>
      if negb (length TSRange =? 2) then Raise AssertionError
      else
        let xlo := vget TSRange 0 in
        let xhi := vget TSRange 1 in
        if negb (Qc_ltb xlo xhi) then Raise AssertionError
        else
          (* Find the bins corresponding to the test range requested *)
          let lobin := searchsorted Xaxis xlo in
          let hibin := searchsorted Xaxis xhi in
          Return (Z.of_nat lobin, Z.of_nat hibin, true)
  end.

(** [PrintName] reads both ends of the range to print them. *)
Definition PrintName (TSRange : vec) : outcome unit :=
  match getitem TSRange 0, getitem TSRange 1 with
  | Ok _, Ok _ => Return tt
  | Err e, _ => Raise (Raised e)
  | _, Err e => Raise (Raised e)
  end.

Definition __init__ (name : string) (tol : option Qc) (Xaxis : vec)
    (TestRange : option vec) (verbose : bool) : outcome t :=
  let TSRange := match TestRange with None => [] | Some r => r end in
  match SetTestRangeBins Xaxis TSRange with
  | Raise r => Raise r
  | Return (lobin, hibin, isRange) =>
      match (if verbose then PrintName TSRange else Return tt) with
      | Raise r => Raise r
      | Return _ =>
          Return {| name := name; tol := tol; Xaxis := Xaxis;
                    TSRange := TSRange; IsRangeTS := isRange;
                    TSbins := (lobin, hibin);
                    verbose := verbose;
                    printProbMessage := true; printStatsHeader := true;
                    (* Initialize unnatural TS data *)
                    stat := Qc_of_Z (-1); delstat := Q2Qc 0;
                    prob := Qc_of_Z (-1); dof := (-1)%Z; dofSet := false |}
      end
  end.

Definition GetArrayRange (self : t) (N1 N2 : vec) : vec * vec :=
  if IsRangeTS self
  then (py_slice N1 (fst (TSbins self)) (snd (TSbins self)),
        py_slice N2 (fst (TSbins self)) (snd (TSbins self)))
  else (N1, N2).

Definition set_dof (self : t) (dof' : Z) (dofSet' : bool) : t :=
  {| name := name self; tol := tol self; Xaxis := Xaxis self;
     TSRange := TSRange self; IsRangeTS := IsRangeTS self;
     TSbins := TSbins self; verbose := verbose self;
     printProbMessage := printProbMessage self;
     printStatsHeader := printStatsHeader self;
     stat := stat self; delstat := delstat self; prob := prob self;
     dof := dof'; dofSet := dofSet' |}.

Definition set_stat (self : t) (stat' delstat' : Qc) : t :=
  {| name := name self; tol := tol self; Xaxis := Xaxis self;
     TSRange := TSRange self; IsRangeTS := IsRangeTS self;
     TSbins := TSbins self; verbose := verbose self;
     printProbMessage := printProbMessage self;
     printStatsHeader := printStatsHeader self;
     stat := stat'; delstat := delstat'; prob := prob self;
     dof := dof self; dofSet := dofSet self |}.

Definition set_flags (self : t) (probMessage statsHeader : bool) : t :=
  {| name := name self; tol := tol self; Xaxis := Xaxis self;
     TSRange := TSRange self; IsRangeTS := IsRangeTS self;
     TSbins := TSbins self; verbose := verbose self;
     printProbMessage := probMessage;
     printStatsHeader := statsHeader;
     stat := stat self; delstat := delstat self; prob := prob self;
     dof := dof self; dofSet := dofSet self |}.

(** Set degrees of freedom *)
Definition SetDOF (self : t) (dof' : Z) : t :=
  if (dof self =? -1)%Z then set_dof self dof' (dofSet self) else self.

(** Set TS and delTS *)
Definition SetStat (self : t) (stat' : Qc) : t :=
  set_stat self stat' (stat' - stat self)%Qc.

(** Test for equal length distributions *)
Definition TestLengths (self : t) (N1 N2 : vec) : t * outcome unit :=
  let ln1 := length N1 in
  let ln2 := length N2 in
  if negb (ln1 =? ln2) then (self, Raise AssertionError)
  else if negb (dofSet self)
       then let self := SetDOF self (Z.of_nat ln1) in
            (set_dof self (dof self) true, Return tt)
       else (self, Return tt).

(** [TSCalc] of the base class *)
Definition TSCalc (self : t) (N1 N2 : vec) : t * outcome unit :=
  (self, Raise (Raised NotImplementedError)).

(** [Prob] of the base class: a message, printed once *)
Definition Prob (self : t) : t :=
  if verbose self && printProbMessage self
  then set_flags self false (printStatsHeader self)
  else self.

Definition PrintStats (self : t) : t :=
  if printStatsHeader self
  then set_flags self (printProbMessage self) false
  else self.

(** Calculate and return TS data, for the [TSCalc] and the [Prob] of the
    class of [self]. *)
Definition GetStats (tscalc : t -> vec -> vec -> t * outcome unit)
    (prob_fn : t -> t) (self : t) (N1 N2 : vec)
  : t * outcome (Qc * Qc * Qc) :=
  match tscalc self N1 N2 with
  | (self, Raise r) => (self, Raise r)
  | (self, Return _) =>
      let self := prob_fn self in
      let self := if verbose self then PrintStats self else self in
      (self, Return (stat self, delstat self, prob self))
  end.

End TestStat.

(** ** class RMD(TestStat): the maximal relative difference *)

Module RMD.

(** [h_sum[(h_sum < 1)] = 1.] for one entry *)
Definition at_least_one (h : Qc) : Qc := if Qc_ltb h (Q2Qc 1) then Q2Qc 1 else h.

(** [h_quot], from the two arrays of the test range *)
Definition relative_differences (N1 N2 : vec) : result vec :=
  h_sum <- vbroadcast Qcplus N1 N2 ;;
  let h_sum := map at_least_one h_sum in
  dif <- vbroadcast Qcminus N1 N2 ;;
  let h_dif := map Qc_abs dif in
  vbroadcast Qcdiv h_dif h_sum.

Definition TSCalc (self : TestStat.t) (N1 N2 : vec)
  : TestStat.t * outcome unit :=
  let (N1, N2) := TestStat.GetArrayRange self N1 N2 in
  match TestStat.TestLengths self N1 N2 with
  | (self, Raise r) => (self, Raise r)
  | (self, Return _) =>
      match relative_differences N1 N2 with
      | Err e => (self, Raise (Raised e))
      | Ok h_quot =>
          match np_max h_quot with
          | Err e => (self, Raise (Raised e))
          | Ok stat => (TestStat.SetStat self stat, Return tt)
          end
      end
  end.

Definition GetStats : TestStat.t -> vec -> vec
                      -> TestStat.t * outcome (Qc * Qc * Qc) :=
  TestStat.GetStats TSCalc TestStat.Prob.

End RMD.

(** ** class Regularizer: the checks that do not call the fit library

    The constructor builds a fit object of an external library; the
    attributes below are those the embedded methods read or write. *)

(** The decimal digits of a string, in order: [c.isdigit()] holds for the
    characters 0 to 9 of a byte string, and [float(c)] is their value. *)
Definition digit_value (c : ascii) : option nat :=
  let n := nat_of_ascii c in
  if (48 <=? n) && (n <=? 57) then Some (n - 48) else None.

Fixpoint digits_of (s : string) : list nat :=
  match s with
  | EmptyString => []
  | String c s' =>
      match digit_value c with
      | Some d => d :: digits_of s'
      | None => digits_of s'
      end
  end.

Module Regularizer.

Record t : Type := Build {
  xarray : vec;
  nParams : nat;
  Params : vec;
  ParamLimitsLo : vec;
  ParamLimitsHi : vec;
  ParLimProvided : bool
}.

Definition set_ParLimProvided (self : t) (b : bool) : t :=
  {| xarray := xarray self; nParams := nParams self; Params := Params self;
     ParamLimitsLo := ParamLimitsLo self; ParamLimitsHi := ParamLimitsHi self;
     ParLimProvided := b |}.

(** Test for equal length arrays *)
Definition TestLengths {A B : Type} (N1 : list A) (N2 : list B) : outcome unit :=
  if length N1 =? length N2 then Return tt else Raise AssertionError.

(** Test the number of parameters of the fit function string:
    [np.linspace(0, n - 1, n)] is the array [0, 1, ..., n - 1]. *)
Definition TestFuncString (self : t) (string : string) : outcome unit :=
  let func_pars := digits_of string in
  let num_nums := length func_pars in
  if negb (num_nums =? nParams self) then Raise AssertionError
  else if negb (forallb (fun ab => fst ab =? snd ab)
                        (combine func_pars (seq 0 num_nums)))
       then Raise AssertionError
       else Return tt.

(** The loop of [SetParLimits] over the parameters. *)
Fixpoint check_limits (self : t) (PLo PHi : vec) (idxs : list nat)
  : t * outcome unit :=
  match idxs with
  | [] => (self, Return tt)
  | i :: idxs' =>
      match getitem PLo i, getitem PHi i with
      | Ok lo, Ok hi =>
          if negb (Qc_ltb lo hi) then (self, Raise AssertionError)
          else check_limits (set_ParLimProvided self true) PLo PHi idxs'
      | Err e, _ => (self, Raise (Raised e))
      | _, Err e => (self, Raise (Raised e))
      end
  end.

Definition SetParLimits (self : t) : t * outcome unit :=
  (* Set par limits if provided *)
  if negb (length (ParamLimitsLo self) =? 0)
     && negb (length (ParamLimitsHi self) =? 0)
  then
    let PLo := ParamLimitsLo self in
    let PHi := ParamLimitsHi self in
    match TestLengths PLo PHi with
    | Raise r => (self, Raise r)
    | Return _ =>
        match TestLengths PLo (Params self) with
        | Raise r => (self, Raise r)
        | Return _ => check_limits self PLo PHi (seq 0 (nParams self))
        end
    end
  else (self, Return tt).

End Regularizer.

(** * The formulas of the specification

    Written from the specification's text, to be compared with what the
    program computes. *)

(** The local response Jacobian: for cause indices [c], [k] and effect
    index [e], the entry [dP0[c, e * cause_bins + k]] is
    [- g[e] * M[e,c] * n_prev[k]], plus
    [(n_prev[c] * g[e] - n_new[c]) * eff_inv[c]] when [k = c]. *)
Definition dP0_entry (g : vec) (M : matrix) (n_prev n_new eff_inv : vec)
    (c e k : nat) : Qc :=
  (- vget g e * mget M e c * vget n_prev k
   + (if k =? c
      then (vget n_prev c * vget g e - vget n_new c) * vget eff_inv c
      else Q2Qc 0))%Qc.

(** [x ⊘ y], the elementwise ratio through the safe inverse.  With the
    data [d] and the predicted effects [f] it is [g[e] = d[e] * f_inv[e]]. *)
Definition safe_ratio (x y : vec) : vec :=
  vtab (length x) (fun i => vget x i * inv_or_zero (vget y i))%Qc.

(** Steps 1, 4 and 5 of [smear]: [f = R · prior],
    [M[e,c] = R[e,c] · prior_eff[c] · f_inv[e]] with
    [prior_eff = prior ⊙ eff_inv], and [n_new[c] = Σ_e d[e] · M[e,c]]. *)
Definition predicted (R : matrix) (prior : vec) : vec :=
  vtab (nrows R) (fun e => bigsum (ncols R) (fun c => mget R e c * vget prior c)%Qc).

Definition mixing (R : matrix) (eff_inv prior : vec) : matrix :=
  mtab (nrows R) (ncols R)
       (fun e c => mget R e c * (vget prior c * vget eff_inv c)
                   * inv_or_zero (vget (predicted R prior) e))%Qc.

Definition posterior (d : vec) (M : matrix) : vec :=
  vtab (ncols M) (fun c => bigsum (nrows M) (fun e => vget d e * mget M e c)%Qc).

(** The multinomial covariance as the specification writes it: on the
    diagonal [nc_inv[e] · R[e,c] · (1 − R[e,c])]. *)
Definition spec_multinomial_diag (nc_inv : vec) (R : matrix) (e c : nat) : Qc :=
  (vget nc_inv e * mget R e c * (Q2Qc 1 - mget R e c))%Qc.

(** The multinomial covariance as the program builds it: for effect rows
    [e], [e'] and causes [c], [c'], the entry at row [e * cbins + c] and
    column [e' * cbins + c'] is [nc_inv[c] · R[e,c] · (1 − R[e,c])] on the
    diagonal, [− nc_inv[c] · R[e,c] · R[e',c]] for one cause and two effect
    rows, and 0 for two causes. *)
Definition multinomial_entry (nc_inv : vec) (R : matrix) (e c e' c' : nat) : Qc :=
  if c =? c'
  then if e =? e'
       then (vget nc_inv c * mget R e c * (Q2Qc 1 - mget R e c))%Qc
       else (- vget nc_inv c * mget R e c * mget R e' c)%Qc
  else Q2Qc 0.

(** * Shapes and states *)

(** The data model of the inputs: [data] and [data_err] have one entry per
    row of the response, [efficiencies] and [efficiencies_err] one per
    column, and [response_err] has the shape of the response. *)
Definition valid_inputs (data data_err efficiencies efficiencies_err : vec)
    (response response_err : matrix) : bool :=
  wf_matrix response && wf_matrix response_err
  && (length data =? nrows response) && (length data_err =? nrows response)
  && (length efficiencies =? ncols response)
  && (length efficiencies_err =? ncols response)
  && has_shape response_err (nrows response) (ncols response).

(** What every method of [CovarianceMatrix] relies on, for [E] effect
    bins and [C] cause bins. *)
Definition cov_inv (c : CovarianceMatrix.t) (E C : nat) : Prop :=
  CovarianceMatrix.ebins c = E /\ CovarianceMatrix.cbins c = C /\
  length (CovarianceMatrix.NEobs c) = E /\
  length (CovarianceMatrix.NEobs_err c) = E /\
  length (CovarianceMatrix.cEff c) = C /\
  length (CovarianceMatrix.cEff_inv c) = C /\
  wf_matrix (CovarianceMatrix.pec_err c) = true /\
  nrows (CovarianceMatrix.pec_err c) = E /\
  ncols (CovarianceMatrix.pec_err c) = C /\
  nrows (CovarianceMatrix.dcdn c) = E /\ ncols (CovarianceMatrix.dcdn c) = C /\
  nrows (CovarianceMatrix.dcdP c) = C /\ ncols (CovarianceMatrix.dcdP c) = C * E.

Definition mixer_inv (m : Mixer.t) : Prop :=
  nrows (Mixer.pec m) = Mixer.ebins m /\ ncols (Mixer.pec m) = Mixer.cbins m /\
  length (Mixer.NEobs m) = Mixer.ebins m /\
  length (Mixer.cEff_inv m) = Mixer.cbins m /\
  cov_inv (Mixer.cov m) (Mixer.ebins m) (Mixer.cbins m).

(** Two states of a mixer that agree on everything the constructor
    fixed: all attributes except the cached mixing matrix, the two
    persisted Jacobians and the counter. *)
Definition same_setup (m m' : Mixer.t) : Prop :=
  Mixer.pec m' = Mixer.pec m /\ Mixer.cEff m' = Mixer.cEff m /\
  Mixer.NEobs m' = Mixer.NEobs m /\ Mixer.cbins m' = Mixer.cbins m /\
  Mixer.ebins m' = Mixer.ebins m /\ Mixer.cEff_inv m' = Mixer.cEff_inv m /\
  let c := Mixer.cov m in
  let c' := Mixer.cov m' in
  CovarianceMatrix.pec c' = CovarianceMatrix.pec c /\
  CovarianceMatrix.pec_err c' = CovarianceMatrix.pec_err c /\
  CovarianceMatrix.pec_cov_type c' = CovarianceMatrix.pec_cov_type c /\
  CovarianceMatrix.cEff c' = CovarianceMatrix.cEff c /\
  CovarianceMatrix.cEff_inv c' = CovarianceMatrix.cEff_inv c /\
  CovarianceMatrix.NCmc c' = CovarianceMatrix.NCmc c /\
  CovarianceMatrix.NEobs c' = CovarianceMatrix.NEobs c /\
  CovarianceMatrix.NEobs_err c' = CovarianceMatrix.NEobs_err c /\
  CovarianceMatrix.nobs c' = CovarianceMatrix.nobs c /\
  CovarianceMatrix.cbins c' = CovarianceMatrix.cbins c /\
  CovarianceMatrix.ebins c' = CovarianceMatrix.ebins c.

(** The object after a sequence of [smear] calls, one per prior. *)
Definition smear_all (m : Mixer.t) (priors : list vec) : Mixer.t :=
  fold_left (fun m' p => fst (Mixer.smear m' p)) priors m.

(** [V] equals its transpose. *)
Definition symmetric (V : matrix) : Prop := transpose V = V.

(** Decidable equality of arrays, for the concrete cases. *)
Fixpoint vec_eqb (u v : vec) : bool :=
  match u, v with
  | [], [] => true
  | x :: u', y :: v' => Qc_eq_bool x y && vec_eqb u' v'
  | _, _ => false
  end.

(** * The scenario of the specification's test section

    Two cause bins, two effect bins.  The scenario fixes the response,
    the efficiencies, the data and the prior; the uncertainties and the
    covariance mode are chosen here. *)

Definition frac (n : Z) (d : positive) : Qc := Q2Qc (n # d).

Definition scenario_R : matrix :=
  Mat 2 [[frac 9 10; frac 1 10]; [frac 1 10; frac 9 10]].
Definition scenario_eff : vec := [Qc_of_Z 1; Qc_of_Z 1].
Definition scenario_data : vec := [Qc_of_Z 90; Qc_of_Z 110].
Definition scenario_prior : vec := [Qc_of_Z 100; Qc_of_Z 100].

Definition scenario_data_err : vec := [Qc_of_Z 9; Qc_of_Z 10].
Definition scenario_eff_err : vec := [frac 1 100; frac 1 100].
Definition scenario_R_err : matrix :=
  Mat 2 [[frac 3 100; frac 1 100]; [frac 1 100; frac 3 100]].

Definition scenario_mixer (cov_type : string) : result Mixer.t :=
  Mixer.__init__ scenario_data scenario_data_err scenario_eff scenario_eff_err
                 scenario_R scenario_R_err cov_type.

(** The smallest positive double, [2^-1074]. *)
Definition smallest_subnormal : Qc := Q2Qc (Qmake 1 (2 ^ 1074)%positive).

(** [m.smear(prior)] on a freshly built [m], as a single result. *)
Definition build_then_smear (built : result Mixer.t) (prior : vec) : result vec :=
  m <- built ;; snd (Mixer.smear m prior).

(** The hypotheses of the conservation test: every column of the response
    sums to 1, every efficiency is 1. *)
Definition columns_sum_to_one (R : matrix) : bool :=
  forallb (fun c => Qc_eq_bool (bigsum (nrows R) (fun e => mget R e c)) (Q2Qc 1))
          (seq 0 (ncols R)).

Definition all_ones (eff : vec) : bool :=
  forallb (fun x => Qc_eq_bool x (Q2Qc 1)) eff.

(** Arrays without a negative entry. *)
Definition nonneg_vec (v : vec) : bool :=
  forallb (fun x : Qc => Qle_bool 0%Q (this x)) v.

Definition nonneg_matrix (m : matrix) : bool := forallb nonneg_vec (rows m).

(** * Properties *)

Unset Implicit Arguments.

Lemma bind_Ok {A B : Type} (a : A) (k : A -> result B) : bind (Ok a) k = k a.
Proof. reflexivity. Qed.

(** ** Tabulated arrays *)

Lemma length_vtab (n : nat) (f : nat -> Qc) : length (vtab n f) = n.
Proof. unfold vtab. now rewrite length_map, length_seq. Qed.

Lemma vget_vtab (n : nat) (f : nat -> Qc) (i : nat) :
  i < n -> vget (vtab n f) i = f i.
Proof.
  intros Hi. unfold vget, vtab.
  rewrite (nth_indep _ (Q2Qc 0) (f 0)) by now rewrite length_map, length_seq.
  now rewrite map_nth, seq_nth.
Qed.

Lemma vtab_ext (n : nat) (f g : nat -> Qc) :
  (forall i, i < n -> f i = g i) -> vtab n f = vtab n g.
Proof.
  intros H. unfold vtab. apply map_ext_in.
  intros i Hi. apply in_seq in Hi. apply H. lia.
Qed.

Lemma nrows_mtab (r c : nat) (f : nat -> nat -> Qc) : nrows (mtab r c f) = r.
Proof. unfold nrows, mtab; simpl. now rewrite length_map, length_seq. Qed.

Lemma ncols_mtab (r c : nat) (f : nat -> nat -> Qc) : ncols (mtab r c f) = c.
Proof. reflexivity. Qed.

Lemma mget_mtab (r c : nat) (f : nat -> nat -> Qc) (i j : nat) :
  i < r -> j < c -> mget (mtab r c f) i j = f i j.
Proof.
  intros Hi Hj. unfold mget, mtab; simpl.
  rewrite (nth_indep _ [] (vtab c (f 0))) by now rewrite length_map, length_seq.
  rewrite (map_nth (fun i => vtab c (f i))), seq_nth by assumption.
  now apply vget_vtab.
Qed.

Lemma mtab_ext (r c : nat) (f g : nat -> nat -> Qc) :
  (forall i j, i < r -> j < c -> f i j = g i j) -> mtab r c f = mtab r c g.
Proof.
  intros H. unfold mtab. f_equal. apply map_ext_in.
  intros i Hi. apply in_seq in Hi. apply vtab_ext. intros j Hj. apply H; lia.
Qed.

Lemma wf_mtab (r c : nat) (f : nat -> nat -> Qc) : wf_matrix (mtab r c f) = true.
Proof.
  unfold wf_matrix, mtab; simpl. apply forallb_forall.
  intros x Hx. apply in_map_iff in Hx. destruct Hx as [i [<- _]].
  rewrite length_vtab. apply Nat.eqb_refl.
Qed.

(** ** Finite sums *)

Lemma bigsum_S (n : nat) (f : nat -> Qc) :
  bigsum (S n) f = (bigsum n f + f n)%Qc.
Proof.
  unfold bigsum. rewrite seq_S, fold_right_app. simpl.
  generalize (seq 0 n) as l. induction l as [|k l IH]; simpl.
  - ring.
  - rewrite IH. ring.
Qed.

Lemma bigsum_ext (n : nat) (f g : nat -> Qc) :
  (forall k, k < n -> f k = g k) -> bigsum n f = bigsum n g.
Proof.
  induction n as [|n IH]; intros H.
  - reflexivity.
  - rewrite !bigsum_S, IH, H by (intros; auto). reflexivity.
Qed.

Lemma bigsum_zero (n : nat) (f : nat -> Qc) :
  (forall k, k < n -> f k = Q2Qc 0) -> bigsum n f = Q2Qc 0.
Proof.
  induction n as [|n IH]; intros H.
  - reflexivity.
  - rewrite bigsum_S, IH, H by (intros; auto). ring.
Qed.

Lemma bigsum_plus (n : nat) (f g : nat -> Qc) :
  bigsum n (fun k => f k + g k)%Qc = (bigsum n f + bigsum n g)%Qc.
Proof.
  induction n as [|n IH].
  - unfold bigsum; simpl. ring.
  - rewrite !bigsum_S, IH. ring.
Qed.

Lemma bigsum_scale_l (n : nat) (a : Qc) (f : nat -> Qc) :
  bigsum n (fun k => a * f k)%Qc = (a * bigsum n f)%Qc.
Proof.
  induction n as [|n IH].
  - unfold bigsum; simpl. ring.
  - rewrite !bigsum_S, IH. ring.
Qed.

Lemma bigsum_swap (n m : nat) (f : nat -> nat -> Qc) :
  bigsum n (fun i => bigsum m (fun j => f i j))
  = bigsum m (fun j => bigsum n (fun i => f i j)).
Proof.
  induction n as [|n IH].
  - symmetry. apply bigsum_zero. reflexivity.
  - rewrite bigsum_S, IH, <- bigsum_plus. apply bigsum_ext.
    intros j _. now rewrite bigsum_S.
Qed.

(** A sum against a Kronecker delta keeps one term. *)
Lemma bigsum_delta (n j : nat) (f : nat -> Qc) :
  j < n -> bigsum n (fun k => if k =? j then f k else Q2Qc 0) = f j.
Proof.
  induction n as [|n IH]; intros Hj; [lia|].
  rewrite bigsum_S. destruct (Nat.eq_dec j n) as [->|Hne].
  - rewrite Nat.eqb_refl, bigsum_zero; [ring|].
    intros k Hk. destruct (Nat.eqb_spec k n); [lia|reflexivity].
  - rewrite IH by lia. destruct (Nat.eqb_spec n j); [lia|ring].
Qed.

Lemma vsum_vtab (n : nat) (f : nat -> Qc) : vsum (vtab n f) = bigsum n f.
Proof.
  unfold vsum. rewrite length_vtab. apply bigsum_ext.
  intros k Hk. now apply vget_vtab.
Qed.

(** ** safe_inverse *)

Lemma Qc_eq_bool_spec (x y : Qc) : reflect (x = y) (Qc_eq_bool x y).
Proof.
  unfold Qc_eq_bool. destruct (Qc_eq_dec x y); constructor; assumption.
Qed.

Lemma safe_inverse_np_cons (a : Qc) (x : vec) :
  safe_inverse_np (a :: x)
  = (if Qc_eq_bool a (Q2Qc 0) then Finite (Q2Qc 0) else np_one_over a)
    :: safe_inverse_np x.
Proof. reflexivity. Qed.

Lemma length_safe_inverse_np (x : vec) : length (safe_inverse_np x) = length x.
Proof.
  induction x as [|a x IH]; [reflexivity|].
  rewrite safe_inverse_np_cons. cbn [length]. now rewrite IH.
Qed.

Lemma safe_inverse_np_nth (x : vec) (i : nat) :
  i < length x ->
  nth i (safe_inverse_np x) NaN
  = if Qc_eq_bool (vget x i) (Q2Qc 0) then Finite (Q2Qc 0)
    else np_one_over (vget x i).
Proof.
  revert i. induction x as [|a x IH]; intros i Hi; [simpl in Hi; lia|].
  rewrite safe_inverse_np_cons. destruct i as [|i]; [reflexivity|].
  apply IH. simpl in Hi. lia.
Qed.

(** Where no quotient overflows, the array that the body returns is the
    exact one. *)
Lemma safe_inverse_np_exact (x : vec) :
  (forall a, In a x -> a <> Q2Qc 0 -> overflows (Q2Qc 1 / a)%Qc = false) ->
  safe_inverse_np x = map Finite (safe_inverse x).
Proof.
  induction x as [|a x IH]; intros H; [reflexivity|].
  rewrite safe_inverse_np_cons. unfold safe_inverse in *. cbn [map].
  rewrite IH by (intros b Hb; apply H; now right).
  f_equal. unfold inv_or_zero, np_one_over.
  destruct (Qc_eq_bool_spec a (Q2Qc 0)) as [_|Hne]; [reflexivity|].
  now rewrite (H a (or_introl eq_refl) Hne).
Qed.

Lemma safe_inverse_map (x : vec) : safe_inverse x = map inv_or_zero x.
Proof. reflexivity. Qed.

Lemma length_safe_inverse (x : vec) : length (safe_inverse x) = length x.
Proof. rewrite safe_inverse_map. apply length_map. Qed.

Lemma vget_safe_inverse (x : vec) (i : nat) :
  vget (safe_inverse x) i = inv_or_zero (vget x i).
Proof.
  rewrite safe_inverse_map. unfold vget.
  replace (Q2Qc 0) with (inv_or_zero (Q2Qc 0)) at 1 by reflexivity.
  apply map_nth.
Qed.

Lemma inv_or_zero_cancel (a : Qc) : a <> Q2Qc 0 -> (a * inv_or_zero a)%Qc = Q2Qc 1.
Proof.
  intros Ha. unfold inv_or_zero.
  destruct (Qc_eq_bool_spec a (Q2Qc 0)); [contradiction|]. now field.
Qed.

(** ** Broadcasting and products on arrays whose shapes fit *)

Lemma bdim_refl (n : nat) : bdim n n = Ok n.
Proof. unfold bdim. now rewrite Nat.eqb_refl. Qed.

Lemma bdim_one_r (n : nat) : bdim n 1 = Ok n.
Proof.
  unfold bdim. destruct (Nat.eqb_spec n 1) as [->|_]; [reflexivity|].
  reflexivity || now rewrite Nat.eqb_refl.
Qed.

Lemma bdim_one_l (n : nat) : bdim 1 n = Ok n.
Proof.
  unfold bdim. destruct (Nat.eqb_spec 1 n) as [<-|_]; reflexivity.
Qed.

Lemma bidx_lt (n i : nat) : i < n -> bidx n i = i.
Proof.
  intros Hi. unfold bidx. destruct (Nat.eqb_spec n 1); [lia|reflexivity].
Qed.

Lemma vbroadcast_same (op : Qc -> Qc -> Qc) (u v : vec) (n : nat) :
  length u = n -> length v = n ->
  vbroadcast op u v = Ok (vtab n (fun i => op (vget u i) (vget v i))).
Proof.
  intros Hu Hv. unfold vbroadcast. rewrite Hu, Hv, bdim_refl. simpl.
  f_equal. apply vtab_ext. intros i Hi. now rewrite bidx_lt.
Qed.

Lemma broadcast2_same (op : Qc -> Qc -> Qc) (a b : matrix) (r c : nat) :
  nrows a = r -> ncols a = c -> nrows b = r -> ncols b = c ->
  broadcast2 op a b = Ok (mtab r c (fun i j => op (mget a i j) (mget b i j))).
Proof.
  intros Ha1 Ha2 Hb1 Hb2. unfold broadcast2.
  rewrite Ha1, Ha2, Hb1, Hb2, !bdim_refl. simpl.
  f_equal. apply mtab_ext. intros i j Hi Hj. now rewrite !bidx_lt.
Qed.

Lemma mget_as_col (v : vec) (i : nat) : mget (as_col v) i 0 = vget v i.
Proof.
  unfold mget, as_col; simpl. revert i.
  induction v as [|x v IH]; intros [|i]; simpl; try reflexivity. apply IH.
Qed.

Lemma nrows_as_col (v : vec) : nrows (as_col v) = length v.
Proof. unfold nrows, as_col; simpl. apply length_map. Qed.

Lemma broadcast2_row (op : Qc -> Qc -> Qc) (a : matrix) (v : vec) (r c : nat) :
  nrows a = r -> ncols a = c -> length v = c ->
  broadcast2 op a (as_row v)
  = Ok (mtab r c (fun i j => op (mget a i j) (vget v j))).
Proof.
  intros Ha1 Ha2 Hv. unfold broadcast2.
  change (nrows (as_row v)) with 1. change (ncols (as_row v)) with (length v).
  rewrite Ha1, Ha2, Hv, bdim_one_r, bdim_refl. simpl.
  f_equal. apply mtab_ext. intros i j Hi Hj.
  change (bidx 1 i) with 0. now rewrite !bidx_lt by assumption.
Qed.

Lemma broadcast2_row_l (op : Qc -> Qc -> Qc) (a : matrix) (v : vec) (r c : nat) :
  nrows a = r -> ncols a = c -> length v = c ->
  broadcast2 op (as_row v) a
  = Ok (mtab r c (fun i j => op (vget v j) (mget a i j))).
Proof.
  intros Ha1 Ha2 Hv. unfold broadcast2.
  change (nrows (as_row v)) with 1. change (ncols (as_row v)) with (length v).
  rewrite Ha1, Ha2, Hv, bdim_one_l, bdim_refl. simpl.
  f_equal. apply mtab_ext. intros i j Hi Hj.
  change (bidx 1 i) with 0. now rewrite !bidx_lt by assumption.
Qed.

Lemma broadcast2_col (op : Qc -> Qc -> Qc) (a : matrix) (v : vec) (r c : nat) :
  nrows a = r -> ncols a = c -> length v = r ->
  broadcast2 op a (as_col v)
  = Ok (mtab r c (fun i j => op (mget a i j) (vget v i))).
Proof.
  intros Ha1 Ha2 Hv. unfold broadcast2.
  rewrite nrows_as_col. change (ncols (as_col v)) with 1.
  rewrite Ha1, Ha2, Hv, bdim_one_r, bdim_refl. simpl.
  f_equal. apply mtab_ext. intros i j Hi Hj.
  rewrite !bidx_lt by assumption. change (bidx 1 j) with 0.
  now rewrite mget_as_col.
Qed.

Lemma iadd_same (a b : matrix) (r c : nat) :
  nrows a = r -> ncols a = c -> nrows b = r -> ncols b = c ->
  iadd a b = Ok (mtab r c (fun i j => mget a i j + mget b i j)%Qc).
Proof.
  intros Ha1 Ha2 Hb1 Hb2. unfold iadd, madd.
  rewrite (broadcast2_same Qcplus a b r c Ha1 Ha2 Hb1 Hb2). simpl.
  now rewrite nrows_mtab, Ha1, Ha2, !Nat.eqb_refl.
Qed.

Lemma matmul_fit (a b : matrix) (r k c : nat) :
  nrows a = r -> ncols a = k -> nrows b = k -> ncols b = c ->
  matmul a b
  = Ok (mtab r c (fun i j => bigsum k (fun l => mget a i l * mget b l j)%Qc)).
Proof.
  intros Ha1 Ha2 Hb1 Hb2. unfold matmul.
  now rewrite Ha1, Ha2, Hb1, Hb2, Nat.eqb_refl.
Qed.

Lemma nrows_transpose (m : matrix) : nrows (transpose m) = ncols m.
Proof. apply nrows_mtab. Qed.

Lemma ncols_transpose (m : matrix) : ncols (transpose m) = nrows m.
Proof. reflexivity. Qed.

Lemma mget_transpose (m : matrix) (i j : nat) :
  i < ncols m -> j < nrows m -> mget (transpose m) i j = mget m j i.
Proof. intros. unfold transpose. now rewrite mget_mtab. Qed.

Lemma nrows_mneg (m : matrix) : nrows (mneg m) = nrows m.
Proof. unfold nrows, mneg, mmap; simpl. now rewrite length_map. Qed.

Lemma mget_mmap (f : Qc -> Qc) (m : matrix) (i j : nat) :
  f (Q2Qc 0) = Q2Qc 0 -> mget (mmap f m) i j = f (mget m i j).
Proof.
  intros Hf. unfold mget, mmap, vget; simpl.
  change (@nil Qc) with (map f []) at 1. rewrite map_nth.
  rewrite <- Hf at 1. apply map_nth.
Qed.

Lemma mget_mneg (m : matrix) (i j : nat) : mget (mneg m) i j = (- mget m i j)%Qc.
Proof. apply mget_mmap. apply Qc_is_canon. reflexivity. Qed.

(** ** Loops *)

Lemma foldM_seq_inv {A : Type} (P : nat -> A -> Prop)
    (body : A -> nat -> result A) (n s : nat) (init : A) :
  P s init ->
  (forall k acc, s <= k < s + n -> P k acc ->
     exists acc', body acc k = Ok acc' /\ P (S k) acc') ->
  exists r, foldM body (seq s n) init = Ok r /\ P (s + n) r.
Proof.
  revert s init. induction n as [|n IH]; intros s init H0 Hstep; simpl.
  - exists init. rewrite Nat.add_0_r. auto.
  - destruct (Hstep s init) as [acc' [Hb HP]]; [lia|assumption|].
    rewrite Hb. simpl.
    destruct (IH (S s) acc') as [r [Hr HPr]]; [assumption| |].
    + intros k acc Hk. apply Hstep. lia.
    + exists r. split; [assumption|]. now rewrite <- Nat.add_succ_comm.
Qed.

Lemma mapM_seq_ok {B : Type} (f : nat -> result B) (g : nat -> B) (n s : nat) :
  (forall k, s <= k < s + n -> f k = Ok (g k)) ->
  mapM f (seq s n) = Ok (map g (seq s n)).
Proof.
  revert s. induction n as [|n IH]; intros s H; simpl.
  - reflexivity.
  - rewrite H by lia. simpl. rewrite IH; [reflexivity|].
    intros k Hk. apply H. lia.
Qed.

Lemma getitem2_ok (m : matrix) (i j : nat) :
  i < nrows m -> j < ncols m -> getitem2 m i j = Ok (mget m i j).
Proof.
  intros Hi Hj. unfold getitem2.
  apply Nat.ltb_lt in Hi, Hj. now rewrite Hi, Hj.
Qed.

Lemma index_pairs_ok (m : matrix) (ir ic : list nat) :
  (forall p, p < length ir -> nth p ir 0 < nrows m /\ nth p ic 0 < ncols m) ->
  index_pairs m ir ic
  = Ok (vtab (length ir) (fun p => mget m (nth p ir 0) (nth p ic 0))).
Proof.
  intros H. unfold index_pairs, vtab. apply mapM_seq_ok.
  intros p Hp. apply getitem2_ok; apply H; lia.
Qed.

Lemma setitem2_ok (m : matrix) (i j : nat) (v : Qc) :
  i < nrows m -> j < ncols m ->
  exists m', setitem2 m i j v = Ok m' /\
    nrows m' = nrows m /\ ncols m' = ncols m /\
    forall i' j', i' < nrows m -> j' < ncols m ->
      mget m' i' j' = if (i' =? i) && (j' =? j) then v else mget m i' j'.
Proof.
  intros Hi Hj. unfold setitem2.
  pose proof Hi as Hi'. pose proof Hj as Hj'.
  apply Nat.ltb_lt in Hi', Hj'. rewrite Hi', Hj'. simpl.
  eexists. split; [reflexivity|].
  rewrite nrows_mtab, ncols_mtab. repeat split.
  intros i' j' Hi2 Hj2. now rewrite mget_mtab.
Qed.

(** An indexed assignment whose column indices are pairwise distinct
    writes each value to its cell and leaves the other cells alone. *)
Lemma assign_pairs_ok (m : matrix) (ir ic : list nat) (vals : vec) :
  length ic = length ir -> length vals = length ir ->
  (forall p, p < length ir -> nth p ir 0 < nrows m /\ nth p ic 0 < ncols m) ->
  (forall p q, p < length ir -> q < length ir ->
     nth p ic 0 = nth q ic 0 -> p = q) ->
  exists m', assign_pairs m ir ic vals = Ok m' /\
    nrows m' = nrows m /\ ncols m' = ncols m /\
    (forall p, p < length ir ->
       mget m' (nth p ir 0) (nth p ic 0) = vget vals p) /\
    (forall i j, i < nrows m -> j < ncols m ->
       (forall p, p < length ir -> ~ (nth p ir 0 = i /\ nth p ic 0 = j)) ->
       mget m' i j = mget m i j).
Proof.
  intros Hic Hvals Hin Hinj. unfold assign_pairs.
  rewrite Hvals, Nat.eqb_refl. simpl.
  set (n := length ir) in *.
  destruct (@foldM_seq_inv matrix
    (fun k acc =>
       nrows acc = nrows m /\ ncols acc = ncols m /\
       (forall p, p < k -> mget acc (nth p ir 0) (nth p ic 0) = vget vals p) /\
       (forall i j, i < nrows m -> j < ncols m ->
          (forall p, p < k -> ~ (nth p ir 0 = i /\ nth p ic 0 = j)) ->
          mget acc i j = mget m i j))
    (fun m' p => setitem2 m' (nth p ir 0) (nth p ic 0) (vget vals (bidx n p)))
    n 0 m) as [r [Hr HP]].
  - repeat split; intros; (lia || reflexivity).
  - intros k acc Hk (Hr1 & Hc1 & Hw & Hk0).
    destruct (Hin k) as [Hik Hjk]; [lia|].
    destruct (@setitem2_ok acc (nth k ir 0) (nth k ic 0) (vget vals (bidx n k)))
      as [acc' (Hset & Hr2 & Hc2 & Hget)]; [lia|lia|].
    exists acc'. split; [assumption|].
    rewrite Hr2, Hc2, Hr1, Hc1. repeat split.
    + intros p Hp. destruct (Hin p) as [Hip Hjp]; [lia|].
      rewrite Hget by lia.
      destruct (Nat.eq_dec p k) as [->|Hne].
      * rewrite !Nat.eqb_refl. simpl. rewrite bidx_lt by lia. reflexivity.
      * destruct (Nat.eqb_spec (nth p ic 0) (nth k ic 0)) as [Heq|_].
        -- exfalso. apply Hne. apply Hinj; [lia|lia|assumption].
        -- rewrite andb_false_r. apply Hw. lia.
    + intros i j Hi Hj Hno. rewrite Hget by lia.
      destruct (Nat.eqb_spec i (nth k ir 0)) as [Hei|_];
        destruct (Nat.eqb_spec j (nth k ic 0)) as [Hej|_]; simpl;
        try (apply Hk0; [assumption|assumption|intros p Hp; apply Hno; lia]).
      exfalso. apply (Hno k); [lia|]. split; congruence.
  - exists r. split; [assumption|]. simpl in HP. tauto.
Qed.

(** ** Index arithmetic of the flattened (effect, cause) axis *)

Lemma nth_map_seq (f : nat -> nat) (n p : nat) :
  p < n -> nth p (map f (seq 0 n)) 0 = f p.
Proof.
  intros Hp. rewrite (nth_indep _ 0 (f 0)) by now rewrite length_map, length_seq.
  now rewrite map_nth, seq_nth.
Qed.

Lemma length_map_seq (f : nat -> nat) (n : nat) : length (map f (seq 0 n)) = n.
Proof. now rewrite length_map, length_seq. Qed.

Lemma block_index_lt (E C e k : nat) : e < E -> k < C -> e * C + k < C * E.
Proof.
  intros He Hk.
  assert (H : S e * C <= E * C) by (apply Nat.mul_le_mono_r; lia).
  simpl in H. lia.
Qed.

Lemma block_index_inj (C e e' k k' : nat) :
  k < C -> k' < C -> e * C + k = e' * C + k' -> e = e' /\ k = k'.
Proof.
  intros Hk Hk' H.
  destruct (Nat.lt_trichotomy e e') as [Hlt|[->|Hlt]].
  - assert (H1 : S e * C <= e' * C) by (apply Nat.mul_le_mono_r; lia).
    simpl in H1. lia.
  - split; [reflexivity|lia].
  - assert (H1 : S e' * C <= e * C) by (apply Nat.mul_le_mono_r; lia).
    simpl in H1. lia.
Qed.

Lemma vget_vscale (a : Qc) (v : vec) (i : nat) :
  vget (vscale a v) i = (a * vget v i)%Qc.
Proof.
  unfold vscale, vget. replace (Q2Qc 0) with (a * Q2Qc 0)%Qc at 1 by ring.
  apply map_nth.
Qed.

Lemma vget_vneg (v : vec) (i : nat) : vget (vneg v) i = (- vget v i)%Qc.
Proof.
  unfold vneg, vget. replace (Q2Qc 0) with (- Q2Qc 0)%Qc at 1 by ring.
  apply map_nth.
Qed.

Lemma getitem_ok (v : vec) (i : nat) : i < length v -> getitem v i = Ok (vget v i).
Proof. intros Hi. unfold getitem. apply Nat.ltb_lt in Hi. now rewrite Hi. Qed.

Lemma getrow_ok (m : matrix) (i : nat) :
  i < nrows m -> getrow m i = Ok (vtab (ncols m) (mget m i)).
Proof. intros Hi. unfold getrow. apply Nat.ltb_lt in Hi. now rewrite Hi. Qed.

(** ** _initialize_dcdP *)

(** The first pair of loops: block [ej] of every row is filled with the
    outer product. *)
Lemma initialize_first_loops (buf Mij : matrix) (g n_c_prev : vec) (E C : nat) :
  nrows buf = C -> ncols buf = C * E ->
  nrows Mij = E -> ncols Mij = C -> length g = E -> length n_c_prev = C ->
  exists d1,
    foldM (fun dcdP ej =>
             g_ej <- getitem g ej ;;
             Mij_ej <- getrow Mij ej ;;
             let A := outer (vscale (- g_ej)%Qc Mij_ej) n_c_prev in
             foldM (fun dcdP ti =>
                      vals <- index_pairs A (map (fun _ => ti) (arange C)) (arange C) ;;
                      assign_pairs dcdP (map (fun _ => ti) (arange C))
                                   (map (Nat.add (ej * C)) (arange C)) vals)
                   (arange C) dcdP)
          (arange E) buf = Ok d1 /\
    nrows d1 = C /\ ncols d1 = C * E /\
    forall i e k, i < C -> e < E -> k < C ->
      mget d1 i (e * C + k) = (- vget g e * mget Mij e i * vget n_c_prev k)%Qc.
Proof.
  intros Hb1 Hb2 HM1 HM2 Hg Hn. unfold arange.
  set (F := fun e i k => (- vget g e * mget Mij e i * vget n_c_prev k)%Qc).
  match goal with |- exists d1, foldM ?body _ _ = _ /\ _ =>
    destruct (@foldM_seq_inv matrix
      (fun ej acc => nrows acc = C /\ ncols acc = C * E /\
         forall i e k, i < C -> e < ej -> k < C -> mget acc i (e * C + k) = F e i k)
      body E 0 buf) as [d1 [Hd1 HP]]
  end.
  - repeat split; try assumption. intros; lia.
  - intros ej acc Hej (Hr & Hc & Hold).
    rewrite getitem_ok by lia. rewrite getrow_ok by lia. simpl.
    rewrite HM2.
    set (A := outer (vscale (- vget g ej)%Qc (vtab C (mget Mij ej))) n_c_prev).
    assert (HA1 : nrows A = C).
    { unfold A, outer. rewrite nrows_mtab. unfold vscale.
      now rewrite length_map, length_vtab. }
    assert (HA2 : ncols A = C) by (unfold A, outer; now rewrite ncols_mtab).
    assert (HA : forall i k, i < C -> k < C -> mget A i k = F ej i k).
    { intros i k Hi Hk. unfold A, outer.
      rewrite mget_mtab; [|unfold vscale; now rewrite length_map, length_vtab|lia].
      rewrite vget_vscale, vget_vtab by assumption. reflexivity. }
    match goal with |- exists acc', foldM ?body _ _ = _ /\ _ =>
      destruct (@foldM_seq_inv matrix
        (fun ti acc' => nrows acc' = C /\ ncols acc' = C * E /\
           (forall i e k, i < C -> e < ej -> k < C ->
              mget acc' i (e * C + k) = F e i k) /\
           (forall i k, i < ti -> k < C -> mget acc' i (ej * C + k) = F ej i k))
        body C 0 acc) as [r [Hr' HQ]]
    end.
    + repeat split; try assumption. intros; lia.
    + intros ti acc' Hti (Hr1 & Hc1 & Hold1 & Hnew1).
      rewrite index_pairs_ok.
      2:{ rewrite length_map_seq. intros p Hp.
          rewrite nth_map_seq, seq_nth by assumption. simpl. lia. }
      simpl. rewrite length_map_seq.
      destruct (@assign_pairs_ok acc' (map (fun _ => ti) (seq 0 C))
                  (map (Nat.add (ej * C)) (seq 0 C))
                  (vtab C (fun p => mget A (nth p (map (fun _ => ti) (seq 0 C)) 0)
                                           (nth p (seq 0 C) 0))))
        as [acc2 (Has & Hr2 & Hc2 & Hw & Hu)].
      * now rewrite !length_map_seq.
      * now rewrite length_vtab, length_map_seq.
      * rewrite length_map_seq. intros p Hp.
        rewrite !nth_map_seq by assumption. rewrite Hr1, Hc1.
        split; [lia|apply block_index_lt; lia].
      * rewrite length_map_seq. intros p q Hp Hq.
        rewrite !nth_map_seq by assumption. lia.
      * exists acc2. split; [assumption|].
        rewrite length_map_seq in Hw, Hu. rewrite Hr1, Hc1 in *.
        repeat split; try assumption.
        -- intros i e k Hi He Hk. rewrite Hu.
           ++ now apply Hold1.
           ++ assumption.
           ++ apply block_index_lt; lia.
           ++ intros p Hp [_ Hcol]. rewrite nth_map_seq in Hcol by assumption.
              apply block_index_inj in Hcol; lia.
        -- intros i k Hi Hk.
           destruct (Nat.eq_dec i ti) as [->|Hne].
           ++ specialize (Hw k Hk).
              rewrite !nth_map_seq in Hw by assumption. rewrite Hw.
              rewrite vget_vtab by assumption.
              rewrite nth_map_seq, seq_nth by assumption. simpl.
              now apply HA.
           ++ rewrite Hu.
              ** apply Hnew1; lia.
              ** lia.
              ** apply block_index_lt; lia.
              ** intros p Hp [Hrow _]. rewrite nth_map_seq in Hrow by assumption.
                 lia.
    + exists r. split; [assumption|]. simpl in HQ.
      destruct HQ as (Hr1 & Hc1 & Hold1 & Hnew1).
      repeat split; try assumption.
      intros i e k Hi He Hk.
      destruct (Nat.eq_dec e ej) as [->|Hne]; [now apply Hnew1|apply Hold1; lia].
  - exists d1. split; [assumption|]. simpl in HP.
    destruct HP as (Hr & Hc & Hall). repeat split; assumption.
Qed.

(** The last loop: the diagonal of every block receives its increment. *)
Lemma initialize_last_loop (d1 A : matrix) (E C : nat) :
  nrows d1 = C -> ncols d1 = C * E -> nrows A = C -> ncols A = E ->
  exists d2,
    foldM (fun dcdP ej =>
             cur <- index_pairs dcdP (arange C) (map (Nat.add (ej * C)) (arange C)) ;;
             inc <- index_pairs A (arange C) (map (fun _ => ej) (arange C)) ;;
             upd <- vbroadcast Qcplus cur inc ;;
             assign_pairs dcdP (arange C) (map (Nat.add (ej * C)) (arange C)) upd)
          (arange E) d1 = Ok d2 /\
    nrows d2 = C /\ ncols d2 = C * E /\
    forall i e k, i < C -> e < E -> k < C ->
      mget d2 i (e * C + k)
      = (mget d1 i (e * C + k) + (if k =? i then mget A i e else Q2Qc 0))%Qc.
Proof.
  intros Hd1 Hd2 HA1 HA2. unfold arange.
  match goal with |- exists d2, foldM ?body _ _ = _ /\ _ =>
    destruct (@foldM_seq_inv matrix
      (fun ej acc => nrows acc = C /\ ncols acc = C * E /\
         forall i e k, i < C -> e < E -> k < C ->
           mget acc i (e * C + k)
           = (mget d1 i (e * C + k)
              + (if (e <? ej) && (k =? i) then mget A i e else Q2Qc 0))%Qc)
      body E 0 d1) as [d2 [Hd Hinv]]
  end.
  - repeat split; try assumption. intros. simpl. ring.
  - intros ej acc Hej (Hr & Hc & Hacc).
    rewrite index_pairs_ok.
    2:{ rewrite length_seq. intros p Hp.
        rewrite nth_map_seq, seq_nth by assumption. rewrite Hr, Hc.
        split; [simpl; lia|apply block_index_lt; lia]. }
    rewrite index_pairs_ok.
    2:{ rewrite length_seq. intros p Hp.
        rewrite nth_map_seq, seq_nth by assumption. simpl. lia. }
    simpl. rewrite length_seq.
    rewrite (vbroadcast_same Qcplus _ _ C) by apply length_vtab.
    simpl.
    match goal with |- exists acc', assign_pairs _ _ _ ?vals = _ /\ _ =>
      destruct (@assign_pairs_ok acc (seq 0 C) (map (Nat.add (ej * C)) (seq 0 C)) vals)
        as [acc2 (Has & Hr2 & Hc2 & Hw & Hu)]
    end.
    + now rewrite length_map_seq, length_seq.
    + now rewrite length_vtab, length_seq.
    + rewrite length_seq. intros p Hp.
      rewrite nth_map_seq, seq_nth by assumption. rewrite Hr, Hc.
      split; [simpl; lia|apply block_index_lt; lia].
    + rewrite length_seq. intros p q Hp Hq.
      rewrite !nth_map_seq by assumption. lia.
    + exists acc2. split; [assumption|].
      rewrite length_seq in Hw, Hu. rewrite Hr, Hc in *.
      repeat split; try assumption.
      intros i e k Hi He Hk.
      destruct (Nat.eq_dec e ej) as [->|Hne].
      * destruct (Nat.eq_dec k i) as [->|Hki].
        -- rewrite Nat.eqb_refl. specialize (Hw i Hi).
           rewrite nth_map_seq, seq_nth in Hw by assumption. simpl in Hw.
           rewrite Hw. rewrite !vget_vtab by assumption.
           rewrite !nth_map_seq, !seq_nth by assumption. simpl.
           rewrite Hacc by assumption.
           rewrite Nat.ltb_irrefl. simpl.
           destruct (ej <? S ej) eqn:Hlt; [|apply Nat.ltb_ge in Hlt; lia].
           simpl. ring.
        -- pose proof (proj2 (Nat.eqb_neq k i) Hki) as Hkb.
           rewrite Hkb, andb_false_r. rewrite Hu.
           ++ rewrite Hacc by assumption. now rewrite Hkb, andb_false_r.
           ++ assumption.
           ++ apply block_index_lt; lia.
           ++ intros p Hp [Hrow Hcol].
              rewrite nth_map_seq in Hcol by assumption.
              rewrite seq_nth in Hrow by assumption. simpl in Hrow.
              apply block_index_inj in Hcol; lia.
      * rewrite Hu.
        -- rewrite Hacc by assumption.
           replace (e <? S ej) with (e <? ej); [reflexivity|].
           destruct (Nat.ltb_spec e ej), (Nat.ltb_spec e (S ej)); (reflexivity || lia).
        -- assumption.
        -- apply block_index_lt; lia.
        -- intros p Hp [_ Hcol]. rewrite nth_map_seq in Hcol by assumption.
           apply block_index_inj in Hcol; lia.
  - exists d2. split; [assumption|]. simpl in Hinv.
    destruct Hinv as (Hr & Hc & Hall). repeat split; try assumption.
    intros i e k Hi He Hk. rewrite Hall by assumption.
    apply Nat.ltb_lt in He. now rewrite He.
Qed.

(** On arrays of fitting shapes [_initialize_dcdP] returns, whatever the
    allocated buffer held, the matrix of the entries [dP0_entry]. *)
Lemma initialize_dcdP_into_ok (buf : matrix) (self : CovarianceMatrix.t)
    (Mij : matrix) (f_norm n_c n_c_prev : vec) (E C : nat) :
  CovarianceMatrix.ebins self = E -> CovarianceMatrix.cbins self = C ->
  length (CovarianceMatrix.NEobs self) = E ->
  length (CovarianceMatrix.cEff_inv self) = C ->
  nrows Mij = E -> ncols Mij = C ->
  length f_norm = E -> length n_c = C -> length n_c_prev = C ->
  nrows buf = C -> ncols buf = C * E ->
  exists dP,
    CovarianceMatrix.initialize_dcdP_into buf self Mij f_norm n_c n_c_prev = Ok dP /\
    nrows dP = C /\ ncols dP = C * E /\
    forall c e k, c < C -> e < E -> k < C ->
      mget dP c (e * C + k)
      = dP0_entry (safe_ratio (CovarianceMatrix.NEobs self) f_norm) Mij
                  n_c_prev n_c (CovarianceMatrix.cEff_inv self) c e k.
Proof.
  intros HE HC Hd Heff HM1 HM2 Hf Hn Hp Hb1 Hb2.
  unfold CovarianceMatrix.initialize_dcdP_into. rewrite HE, HC.
  rewrite (vbroadcast_same Qcmult _ _ E Hd)
    by now rewrite length_safe_inverse.
  rewrite bind_Ok. cbv beta zeta.
  set (g := vtab E (fun i => (vget (CovarianceMatrix.NEobs self) i
                              * vget (safe_inverse f_norm) i)%Qc)).
  assert (Hg : length g = E) by apply length_vtab.
  assert (Hgr : safe_ratio (CovarianceMatrix.NEobs self) f_norm = g).
  { unfold safe_ratio, g. rewrite Hd. apply vtab_ext. intros e He.
    now rewrite vget_safe_inverse. }
  destruct (initialize_first_loops buf Mij g n_c_prev E C Hb1 Hb2 HM1 HM2 Hg Hp)
    as [d1 (Hl1 & Hr1 & Hc1 & Hd1)].
  cbv beta zeta in Hl1. rewrite Hl1, bind_Ok. cbv beta. unfold msub, mmul.
  rewrite (broadcast2_col Qcminus (outer n_c_prev g) n_c C E)
    by (try assumption; unfold outer; now rewrite ?nrows_mtab, ?ncols_mtab).
  rewrite bind_Ok. cbv beta.
  rewrite (broadcast2_col Qcmult _ (CovarianceMatrix.cEff_inv self) C E)
    by (try assumption; now rewrite ?nrows_mtab, ?ncols_mtab).
  rewrite bind_Ok. cbv beta.
  match goal with |- context [foldM _ _ d1] =>
    match goal with |- context [index_pairs (mtab C E ?fA)] =>
      destruct (initialize_last_loop d1 (mtab C E fA) E C Hr1 Hc1
                  (nrows_mtab _ _ _) (ncols_mtab _ _ _))
        as [d2 (Hl2 & Hr2 & Hc2 & Hd2)]
    end
  end.
  exists d2. split; [exact Hl2|]. repeat split; try assumption.
  intros c e k Hc He Hk. rewrite Hd2, Hd1 by assumption.
  unfold dP0_entry. rewrite Hgr. f_equal.
  destruct (Nat.eqb_spec k c) as [->|_]; [|reflexivity].
  rewrite !mget_mtab by assumption. unfold outer.
  rewrite mget_mtab by lia. reflexivity.
Qed.

(** ** One mixing step *)

Ltac next_stmt := rewrite bind_Ok; cbv beta.

Ltac shapes :=
  repeat first
    [ rewrite nrows_transpose | rewrite ncols_transpose
    | rewrite nrows_mtab | rewrite ncols_mtab | rewrite nrows_mneg
    | rewrite length_vtab | rewrite length_safe_inverse ];
  try assumption; try reflexivity.

Lemma smear_step_ok (m : Mixer.t) (n_c : vec) :
  nrows (Mixer.pec m) = Mixer.ebins m -> ncols (Mixer.pec m) = Mixer.cbins m ->
  length (Mixer.NEobs m) = Mixer.ebins m ->
  length (Mixer.cEff_inv m) = Mixer.cbins m ->
  length n_c = Mixer.cbins m ->
  Mixer.smear_step m n_c
  = Ok (mixing (Mixer.pec m) (Mixer.cEff_inv m) n_c,
        predicted (Mixer.pec m) n_c,
        posterior (Mixer.NEobs m) (mixing (Mixer.pec m) (Mixer.cEff_inv m) n_c)).
Proof.
  intros HR1 HR2 Hd Heff Hn.
  set (E := Mixer.ebins m) in *. set (C := Mixer.cbins m) in *.
  unfold Mixer.smear_step, matvec.
  rewrite HR2, Hn, Nat.eqb_refl, bind_Ok.
  match goal with |- context [safe_inverse ?f] =>
    assert (Hf : f = predicted (Mixer.pec m) n_c)
      by (unfold predicted; now rewrite HR2)
  end.
  rewrite Hf.
  unfold vmul. rewrite (vbroadcast_same Qcmult _ _ C Hn Heff), bind_Ok.
  unfold mmul.
  rewrite (broadcast2_row Qcmult (Mixer.pec m) _ E C) by shapes.
  rewrite bind_Ok.
  rewrite (broadcast2_col Qcmult _ _ E C)
    by (shapes; unfold predicted; shapes).
  rewrite bind_Ok.
  match goal with |- context [vecmat _ ?M] =>
    assert (HM : M = mixing (Mixer.pec m) (Mixer.cEff_inv m) n_c)
  end.
  { unfold mixing. rewrite HR1, HR2. apply mtab_ext. intros e c He Hc.
    rewrite mget_mtab, vget_vtab, vget_safe_inverse by assumption.
    reflexivity. }
  rewrite HM. unfold vecmat.
  assert (HrM : nrows (mixing (Mixer.pec m) (Mixer.cEff_inv m) n_c) = E)
    by (unfold mixing; shapes).
  rewrite HrM, Hd, Nat.eqb_refl, bind_Ok. unfold posterior. now rewrite HrM.
Qed.

Lemma nrows_mixing (R : matrix) (eff_inv prior : vec) :
  nrows (mixing R eff_inv prior) = nrows R.
Proof. apply nrows_mtab. Qed.

Lemma ncols_mixing (R : matrix) (eff_inv prior : vec) :
  ncols (mixing R eff_inv prior) = ncols R.
Proof. reflexivity. Qed.

Lemma length_predicted (R : matrix) (prior : vec) :
  length (predicted R prior) = nrows R.
Proof. apply length_vtab. Qed.

Lemma length_posterior (d : vec) (M : matrix) : length (posterior d M) = ncols M.
Proof. apply length_vtab. Qed.

(** ** The Adye correction *)

(** On arrays of fitting shapes every statement up to the last one
    goes through, and the last one is refused for its layouts. *)
Lemma adye_propagation_raises (self : CovarianceMatrix.t) (dcdP Mij : matrix)
    (n_c n_c_prev : vec) (E C : nat) :
  cov_inv self E C ->
  nrows dcdP = C -> ncols dcdP = C * E ->
  nrows Mij = E -> ncols Mij = C ->
  length n_c = C -> length n_c_prev = C ->
  CovarianceMatrix._adye_propagation_corrections self dcdP Mij n_c n_c_prev
  = Err RuntimeError.
Proof.
  intros (HE & HC & Hd & _ & Heff & _ & _ & _ & _ & Hn1 & Hn2 & Hp1 & Hp2)
         HP1 HP2 HM1 HM2 Hn Hprev.
  unfold CovarianceMatrix._adye_propagation_corrections. cbv zeta.
  unfold vmul, mmul, msub.
  rewrite (vbroadcast_same Qcmult n_c _ C) by shapes. next_stmt.
  rewrite (vbroadcast_same Qcmult (CovarianceMatrix.cEff self) _ C) by shapes.
  next_stmt.
  rewrite (broadcast2_row Qcmult (CovarianceMatrix.dcdn self) _ E C) by shapes.
  next_stmt.
  rewrite (broadcast2_row Qcmult (mneg Mij) _ E C) by shapes.
  next_stmt.
  rewrite (broadcast2_row Qcmult (transpose _) _ C E) by shapes.
  next_stmt.
  rewrite (matmul_fit _ (CovarianceMatrix.dcdn self) C E C) by shapes.
  next_stmt.
  rewrite (matmul_fit Mij _ E C C) by shapes.
  next_stmt.
  rewrite (iadd_same Mij _ E C) by shapes.
  next_stmt.
  rewrite (iadd_same _ _ E C) by shapes.
  next_stmt.
  rewrite (broadcast2_row Qcmult (transpose Mij) _ C E) by shapes.
  next_stmt.
  rewrite (broadcast2_row Qcmult Mij _ E C) by shapes.
  next_stmt.
  rewrite (matmul_fit _ _ C E C) by shapes.
  next_stmt.
  rewrite (matmul_fit _ (CovarianceMatrix.dcdP self) C C (C * E)) by shapes.
  next_stmt.
  rewrite (broadcast2_row Qcmult (transpose (CovarianceMatrix.dcdP self)) _ (C * E) C)
    by shapes.
  next_stmt.
  reflexivity.
Qed.

(** ** set_current_state and smear on a well-shaped object *)

Lemma cov_inv_store (self : CovarianceMatrix.t) (dn dP : matrix) (E C : nat) :
  cov_inv self E C ->
  nrows dn = E -> ncols dn = C -> nrows dP = C -> ncols dP = C * E ->
  cov_inv (CovarianceMatrix.store self dn dP) E C.
Proof.
  unfold cov_inv. intros H H1 H2 H3 H4. simpl. tauto.
Qed.

Lemma set_current_state_ok (self : CovarianceMatrix.t) (Mij : matrix)
    (f_norm n_c n_c_prev : vec) (E C : nat) :
  cov_inv self E C ->
  nrows Mij = E -> ncols Mij = C ->
  length f_norm = E -> length n_c = C -> length n_c_prev = C ->
  CovarianceMatrix.counter self = 0 ->
  exists dP,
    CovarianceMatrix.set_current_state self Mij f_norm n_c n_c_prev
    = (CovarianceMatrix.store self Mij dP, Ok tt) /\
    nrows dP = C /\ ncols dP = C * E /\
    forall c e k, c < C -> e < E -> k < C ->
      mget dP c (e * C + k)
      = dP0_entry (safe_ratio (CovarianceMatrix.NEobs self) f_norm) Mij
                  n_c_prev n_c (CovarianceMatrix.cEff_inv self) c e k.
Proof.
  intros Hinv HM1 HM2 Hf Hn Hprev Hcnt.
  pose proof Hinv as (HE & HC & Hd & _ & _ & Heffi & _).
  unfold CovarianceMatrix.set_current_state, CovarianceMatrix._initialize_dcdP.
  destruct (initialize_dcdP_into_ok
              (torch_empty (CovarianceMatrix.cbins self)
                 (CovarianceMatrix.cbins self * CovarianceMatrix.ebins self))
              self Mij f_norm n_c n_c_prev E C)
    as [dP0 (Hi & Hr0 & Hc0 & Hent)]; try assumption.
  { rewrite HE, HC. apply nrows_mtab. }
  { rewrite HE, HC. reflexivity. }
  rewrite Hi, Hcnt. cbn [Nat.ltb Nat.leb].
  exists dP0. split; [reflexivity|].
  repeat split; assumption.
Qed.

(** With the counter above 0 the Adye step is entered and fails; nothing
    is stored. *)
Lemma set_current_state_raises (self : CovarianceMatrix.t) (Mij : matrix)
    (f_norm n_c n_c_prev : vec) (E C : nat) :
  cov_inv self E C ->
  nrows Mij = E -> ncols Mij = C ->
  length f_norm = E -> length n_c = C -> length n_c_prev = C ->
  0 < CovarianceMatrix.counter self ->
  CovarianceMatrix.set_current_state self Mij f_norm n_c n_c_prev
  = (self, Err RuntimeError).
Proof.
  intros Hinv HM1 HM2 Hf Hn Hprev Hpos.
  pose proof Hinv as (HE & HC & Hd & _ & _ & Heffi & _).
  unfold CovarianceMatrix.set_current_state, CovarianceMatrix._initialize_dcdP.
  destruct (initialize_dcdP_into_ok
              (torch_empty (CovarianceMatrix.cbins self)
                 (CovarianceMatrix.cbins self * CovarianceMatrix.ebins self))
              self Mij f_norm n_c n_c_prev E C)
    as [dP0 (Hi & Hr0 & Hc0 & Hent)]; try assumption.
  { rewrite HE, HC. apply nrows_mtab. }
  { rewrite HE, HC. reflexivity. }
  rewrite Hi. apply Nat.ltb_lt in Hpos. rewrite Hpos.
  now rewrite (adye_propagation_raises self dP0 Mij n_c n_c_prev E C).
Qed.

Lemma smear_rejects (m : Mixer.t) (n_c : vec) :
  length n_c <> Mixer.cbins m -> Mixer.smear m n_c = (m, Err ValueError).
Proof.
  intros H. unfold Mixer.smear.
  apply Nat.eqb_neq in H. now rewrite H.
Qed.

(** The first accepted call: the counter is still 0. *)
Lemma smear_ok (m : Mixer.t) (n_c : vec) :
  mixer_inv m -> length n_c = Mixer.cbins m ->
  CovarianceMatrix.counter (Mixer.cov m) = 0 ->
  let E := Mixer.ebins m in
  let C := Mixer.cbins m in
  let M := mixing (Mixer.pec m) (Mixer.cEff_inv m) n_c in
  let n_new := posterior (Mixer.NEobs m) M in
  let self := Mixer.cov m in
  exists dP,
    Mixer.smear m n_c
    = (Mixer.set_cov (Mixer.set_Mij m M) (CovarianceMatrix.store self M dP),
       Ok n_new) /\
    nrows dP = C /\ ncols dP = C * E /\
    forall c e k, c < C -> e < E -> k < C ->
      mget dP c (e * C + k)
      = dP0_entry (safe_ratio (CovarianceMatrix.NEobs self)
                              (predicted (Mixer.pec m) n_c))
                  M n_c n_new (CovarianceMatrix.cEff_inv self) c e k.
Proof.
  intros (HR1 & HR2 & Hd & Heff & Hcov) Hn Hcnt E C M n_new self.
  unfold Mixer.smear. rewrite Hn, Nat.eqb_refl. simpl negb. cbv iota.
  rewrite (smear_step_ok m n_c HR1 HR2 Hd Heff Hn).
  fold M. fold n_new.
  destruct (set_current_state_ok self M (predicted (Mixer.pec m) n_c)
              n_new n_c E C)
    as [dP (Hs & Hrest)];
    try (unfold n_new, M;
         rewrite ?nrows_mixing, ?length_predicted, ?length_posterior;
         assumption).
  exists dP. split; [|exact Hrest].
  change (Mixer.cov (Mixer.set_Mij m M)) with self. now rewrite Hs.
Qed.

(** Every later accepted call: the mixing matrix is cached, then the
    covariance update fails and stores nothing. *)
Lemma smear_raises (m : Mixer.t) (n_c : vec) :
  mixer_inv m -> length n_c = Mixer.cbins m ->
  0 < CovarianceMatrix.counter (Mixer.cov m) ->
  Mixer.smear m n_c
  = (Mixer.set_Mij m (mixing (Mixer.pec m) (Mixer.cEff_inv m) n_c),
     Err RuntimeError).
Proof.
  intros (HR1 & HR2 & Hd & Heff & Hcov) Hn Hpos.
  unfold Mixer.smear. rewrite Hn, Nat.eqb_refl. simpl negb. cbv iota.
  rewrite (smear_step_ok m n_c HR1 HR2 Hd Heff Hn).
  set (M := mixing (Mixer.pec m) (Mixer.cEff_inv m) n_c).
  change (Mixer.cov (Mixer.set_Mij m M)) with (Mixer.cov m).
  rewrite (set_current_state_raises (Mixer.cov m) M (predicted (Mixer.pec m) n_c)
             (posterior (Mixer.NEobs m) M) n_c (Mixer.ebins m) (Mixer.cbins m));
    try (unfold M;
         rewrite ?nrows_mixing, ?length_predicted, ?length_posterior;
         assumption).
  reflexivity.
Qed.

(** What a call with a prior of the accepted length leaves cached as the
    mixing matrix, whether it returns or raises. *)
Lemma smear_caches_mixing (m : Mixer.t) (n_c : vec) :
  mixer_inv m -> length n_c = Mixer.cbins m ->
  Mixer.Mij (fst (Mixer.smear m n_c))
  = mixing (Mixer.pec m) (Mixer.cEff_inv m) n_c.
Proof.
  intros Hinv Hn.
  destruct (Nat.eq_dec (CovarianceMatrix.counter (Mixer.cov m)) 0) as [H0|H0].
  - destruct (smear_ok m n_c Hinv Hn H0) as [dP (Hs & _)]. now rewrite Hs.
  - rewrite smear_raises by (try assumption; lia). reflexivity.
Qed.

Lemma mixer_inv_smear (m : Mixer.t) (n_c : vec) :
  mixer_inv m -> mixer_inv (fst (Mixer.smear m n_c)).
Proof.
  intros Hinv.
  destruct (Nat.eq_dec (length n_c) (Mixer.cbins m)) as [Hn|Hn].
  - destruct (Nat.eq_dec (CovarianceMatrix.counter (Mixer.cov m)) 0) as [H0|H0].
    + destruct (smear_ok m n_c Hinv Hn H0) as [dP (Hs & H3 & H4 & _)].
      rewrite Hs. simpl.
      destruct Hinv as (HR1 & HR2 & Hd & Heff & Hcov).
      unfold mixer_inv.
      refine (conj _ (conj _ (conj _ (conj _ _)))); try assumption.
      apply cov_inv_store; try assumption; now rewrite nrows_mixing.
    + rewrite smear_raises by (try assumption; lia). exact Hinv.
  - now rewrite smear_rejects.
Qed.

Lemma mixer_inv_smear_all (priors : list vec) (m : Mixer.t) :
  mixer_inv m -> mixer_inv (smear_all m priors).
Proof.
  revert m. induction priors as [|p priors IH]; intros m Hinv; simpl.
  - assumption.
  - apply IH. now apply mixer_inv_smear.
Qed.

(** No call of [smear] touches the covariance mode. *)
Lemma cov_type_smear (m : Mixer.t) (n_c : vec) :
  CovarianceMatrix.pec_cov_type (Mixer.cov (fst (Mixer.smear m n_c)))
  = CovarianceMatrix.pec_cov_type (Mixer.cov m).
Proof.
  unfold Mixer.smear.
  destruct (negb (length n_c =? Mixer.cbins m)); [reflexivity|].
  destruct (Mixer.smear_step m n_c) as [[[M f] n]|e]; [|reflexivity].
  change (Mixer.cov (Mixer.set_Mij m M)) with (Mixer.cov m).
  unfold CovarianceMatrix.set_current_state.
  destruct (CovarianceMatrix._initialize_dcdP _ _ _ _ _); [|reflexivity].
  destruct (if 0 <? _ then _ else _) as [[dn dP]|e]; reflexivity.
Qed.

Lemma dims_smear (m : Mixer.t) (n_c : vec) :
  Mixer.ebins (fst (Mixer.smear m n_c)) = Mixer.ebins m /\
  Mixer.cbins (fst (Mixer.smear m n_c)) = Mixer.cbins m.
Proof.
  unfold Mixer.smear.
  destruct (negb (length n_c =? Mixer.cbins m)); [split; reflexivity|].
  destruct (Mixer.smear_step m n_c) as [[[M f] n]|e]; [|split; reflexivity].
  destruct (CovarianceMatrix.set_current_state _ _ _ _ _) as [cov' [u|e]];
    split; reflexivity.
Qed.

Lemma cov_type_smear_all (priors : list vec) (m : Mixer.t) :
  CovarianceMatrix.pec_cov_type (Mixer.cov (smear_all m priors))
  = CovarianceMatrix.pec_cov_type (Mixer.cov m).
Proof.
  revert m. induction priors as [|p priors IH]; intros m; simpl.
  - reflexivity.
  - rewrite IH. apply cov_type_smear.
Qed.

(** ** Construction *)

Lemma valid_inputs_facts (data data_err eff eff_err : vec) (R Rerr : matrix) :
  valid_inputs data data_err eff eff_err R Rerr = true ->
  wf_matrix Rerr = true /\
  length data = nrows R /\ length data_err = nrows R /\
  length eff = ncols R /\ length eff_err = ncols R /\
  nrows Rerr = nrows R /\ ncols Rerr = ncols R.
Proof.
  unfold valid_inputs, has_shape. rewrite !andb_true_iff, !Nat.eqb_eq. tauto.
Qed.

(** The object that [Mixer.__init__] builds. *)
Lemma init_ok (data data_err eff eff_err : vec) (R Rerr : matrix) (ct : string) :
  valid_inputs data data_err eff eff_err R Rerr = true ->
  existsb (String.eqb (lower ct)) ["multinomial"; "poisson"]%string = true ->
  exists NCmc,
    Mixer.__init__ data data_err eff eff_err R Rerr ct
    = Ok {| Mixer.pec := R; Mixer.cEff := eff; Mixer.NEobs := data;
            Mixer.cbins := ncols R; Mixer.ebins := nrows R;
            Mixer.cEff_inv := safe_inverse eff;
            Mixer.Mij := zeros (nrows R) (ncols R);
            Mixer.cov :=
              {| CovarianceMatrix.pec := R;
                 CovarianceMatrix.pec_err := Rerr;
                 CovarianceMatrix.pec_cov_type := lower ct;
                 CovarianceMatrix.cEff := eff;
                 CovarianceMatrix.cEff_inv := safe_inverse eff;
                 CovarianceMatrix.NCmc := NCmc;
                 CovarianceMatrix.NEobs := data;
                 CovarianceMatrix.NEobs_err := data_err;
                 CovarianceMatrix.nobs := vsum data;
                 CovarianceMatrix.cbins := ncols R;
                 CovarianceMatrix.ebins := nrows R;
                 CovarianceMatrix.dcdn := zeros (nrows R) (ncols R);
                 CovarianceMatrix.dcdP := zeros (ncols R) (ncols R * nrows R);
                 CovarianceMatrix.counter := 0 |} |}.
Proof.
  intros Hv Hct.
  apply valid_inputs_facts in Hv.
  destruct Hv as (Hwf & Hd & Hde & He & Hee & Hr & Hc).
  unfold Mixer.__init__, CovarianceMatrix.__init__.
  rewrite Hd, Nat.eqb_refl, Hct. simpl negb. cbv iota.
  unfold vmul.
  rewrite (vbroadcast_same Qcmult eff _ (ncols R))
    by (rewrite ?length_safe_inverse; assumption).
  rewrite !bind_Ok. eexists. reflexivity.
Qed.

Lemma init_inv (data data_err eff eff_err : vec) (R Rerr : matrix) (ct : string)
    (m : Mixer.t) :
  valid_inputs data data_err eff eff_err R Rerr = true ->
  Mixer.__init__ data data_err eff eff_err R Rerr ct = Ok m ->
  mixer_inv m /\
  Mixer.pec m = R /\ Mixer.NEobs m = data /\
  Mixer.cEff_inv m = safe_inverse eff /\
  Mixer.ebins m = nrows R /\ Mixer.cbins m = ncols R /\
  CovarianceMatrix.NEobs (Mixer.cov m) = data /\
  CovarianceMatrix.cEff (Mixer.cov m) = eff /\
  CovarianceMatrix.cEff_inv (Mixer.cov m) = safe_inverse eff /\
  CovarianceMatrix.pec_cov_type (Mixer.cov m) = lower ct /\
  CovarianceMatrix.counter (Mixer.cov m) = 0.
Proof.
  intros Hv Hm.
  assert (Hct : existsb (String.eqb (lower ct)) ["multinomial"; "poisson"]%string
                = true).
  { unfold Mixer.__init__, CovarianceMatrix.__init__ in Hm.
    destruct (negb (length data =? nrows R)); [discriminate|].
    destruct (existsb _ _); [reflexivity|discriminate]. }
  destruct (init_ok data data_err eff eff_err R Rerr ct Hv Hct) as [NCmc Hinit].
  rewrite Hinit in Hm. injection Hm as <-.
  apply valid_inputs_facts in Hv.
  destruct Hv as (Hwf & Hd & Hde & He & Hee & Hr & Hc).
  unfold mixer_inv, cov_inv. simpl. unfold zeros.
  rewrite !length_safe_inverse, !nrows_mtab.
  repeat split; assumption || reflexivity.
Qed.

(** ** Deciding equality of concrete arrays *)

Lemma vec_eqb_eq (u v : vec) : vec_eqb u v = true <-> u = v.
Proof.
  revert v. induction u as [|x u IH]; intros [|y v]; simpl;
    try (split; [discriminate|discriminate]); try tauto.
  rewrite andb_true_iff, IH. split.
  - intros [Hxy ->]. apply Qc_eq_bool_correct in Hxy. now subst.
  - intros H. injection H as -> ->. split; [|reflexivity].
    now destruct (Qc_eq_bool_spec y y).
Qed.

(** ** The counter and the total of the posterior *)

Lemma counter_after_smear (m : Mixer.t) (n_c : vec) :
  mixer_inv m -> length n_c = Mixer.cbins m ->
  CovarianceMatrix.counter (Mixer.cov (fst (Mixer.smear m n_c)))
  = Nat.max 1 (CovarianceMatrix.counter (Mixer.cov m)).
Proof.
  intros Hinv Hn.
  destruct (Nat.eq_dec (CovarianceMatrix.counter (Mixer.cov m)) 0) as [H0|H0].
  - destruct (smear_ok m n_c Hinv Hn H0) as [dP (Hs & _)].
    rewrite Hs. simpl. now rewrite H0.
  - rewrite smear_raises by (try assumption; lia).
    cbn [fst Mixer.set_Mij Mixer.cov]. lia.
Qed.

Lemma all_ones_vget (eff : vec) (c : nat) :
  all_ones eff = true -> c < length eff -> vget eff c = Q2Qc 1.
Proof.
  intros H Hc. unfold all_ones in H. rewrite forallb_forall in H.
  apply Qc_eq_bool_correct. apply H. unfold vget. now apply nth_In.
Qed.

Lemma posterior_total (data eff : vec) (R : matrix) (prior : vec) :
  length data = nrows R -> length eff = ncols R ->
  all_ones eff = true ->
  (forall e, e < nrows R -> vget (predicted R prior) e <> Q2Qc 0) ->
  vsum (posterior data (mixing R (safe_inverse eff) prior)) = vsum data.
Proof.
  intros Hd He Hones Hf.
  unfold posterior. rewrite vsum_vtab, nrows_mixing, ncols_mixing.
  rewrite bigsum_swap. unfold vsum. rewrite Hd.
  apply bigsum_ext. intros e Hlt.
  rewrite (bigsum_ext (ncols R) _
    (fun c => (vget data e * inv_or_zero (vget (predicted R prior) e))
              * (mget R e c * vget prior c))%Qc).
  - rewrite bigsum_scale_l.
    replace (bigsum (ncols R) (fun c => mget R e c * vget prior c)%Qc)
      with (vget (predicted R prior) e)
      by (unfold predicted; now rewrite vget_vtab).
    rewrite <- Qcmult_assoc, (Qcmult_comm (inv_or_zero _)).
    rewrite inv_or_zero_cancel by now apply Hf. ring.
  - intros c Hc. unfold mixing. rewrite mget_mtab by assumption.
    rewrite vget_safe_inverse, (all_ones_vget eff c Hones) by lia.
    replace (inv_or_zero (Q2Qc 1)) with (Q2Qc 1)
      by (apply Qc_is_canon; reflexivity).
    ring.
Qed.

(** ** Reading the covariance *)

Lemma length_concat_rows (c : nat) (l : list vec) :
  forallb (fun r => length r =? c) l = true -> length (concat l) = length l * c.
Proof.
  induction l as [|r l IH]; simpl; intros H.
  - reflexivity.
  - apply andb_true_iff in H. destruct H as [Hr Hl].
    apply Nat.eqb_eq in Hr. rewrite length_app, IH, Hr by assumption. reflexivity.
Qed.

Lemma length_ravel (m : matrix) :
  wf_matrix m = true -> length (ravel m) = nrows m * ncols m.
Proof. intros H. unfold ravel, nrows. now apply length_concat_rows. Qed.

Lemma length_vsquare (v : vec) : length (vsquare v) = length v.
Proof. apply length_map. Qed.

Lemma symmetric_entries (V : matrix) (n i j : nat) :
  nrows V = n -> ncols V = n -> symmetric V -> i < n -> j < n ->
  mget V i j = mget V j i.
Proof.
  intros Hr Hc Hs Hi Hj. unfold symmetric in Hs. rewrite <- Hs at 1.
  apply mget_transpose; lia.
Qed.

(** [L · diag(d) · L'] is symmetric when [L'] holds the entries of [L]
    transposed. *)
Lemma diag_sandwich (L L' : matrix) (d : vec) (n k : nat) :
  nrows L = n -> ncols L = k -> nrows L' = k -> ncols L' = n -> length d = k ->
  (forall i l, i < n -> l < k -> mget L i l = mget L' l i) ->
  exists V,
    (u <- matmul L (spdiags d) ;; matmul u L') = Ok V /\
    nrows V = n /\ ncols V = n /\ symmetric V.
Proof.
  intros HL1 HL2 HR1 HR2 Hd HT.
  rewrite (matmul_fit L (spdiags d) n k k)
    by (try assumption; unfold spdiags; rewrite ?nrows_mtab, ?ncols_mtab; assumption).
  rewrite bind_Ok.
  rewrite (matmul_fit _ L' n k n) by shapes.
  eexists. split; [reflexivity|].
  rewrite nrows_mtab, ncols_mtab. repeat split.
  assert (Hinner : forall i l, i < n -> l < k ->
            bigsum k (fun l' => mget L i l' * mget (spdiags d) l' l)%Qc
            = (mget L i l * vget d l)%Qc).
  { intros i l Hi Hl.
    rewrite (bigsum_ext k _
      (fun l' => if l' =? l then (mget L i l' * vget d l')%Qc else Q2Qc 0)).
    - now apply (bigsum_delta k l (fun l' => (mget L i l' * vget d l')%Qc)).
    - intros l' Hl'. unfold spdiags. rewrite Hd, mget_mtab by assumption.
      destruct (l' =? l); [reflexivity|ring]. }
  unfold symmetric, transpose. rewrite nrows_mtab, ncols_mtab.
  apply mtab_ext. intros i j Hi Hj.
  rewrite !mget_mtab by assumption.
  apply bigsum_ext. intros l Hl.
  rewrite !mget_mtab by assumption.
  rewrite !Hinner by assumption.
  rewrite (HT j l Hj Hl), (HT i l Hi Hl). ring.
Qed.

Lemma getVc0_ok (self : CovarianceMatrix.t) (E C : nat) :
  cov_inv self E C ->
  exists V, CovarianceMatrix.getVc0 self = Ok V /\
            nrows V = C /\ ncols V = C /\ symmetric V.
Proof.
  intros (_ & _ & _ & Hde & _ & _ & _ & _ & _ & Hn1 & Hn2 & _).
  unfold CovarianceMatrix.getVc0, CovarianceMatrix.getVcd, vmul.
  rewrite (vbroadcast_same Qcmult _ _ E Hde Hde), !bind_Ok.
  apply diag_sandwich with (k := E); shapes.
  intros i l Hi Hl. apply mget_transpose; lia.
Qed.

Lemma getVc1_poisson_ok (self : CovarianceMatrix.t) (E C : nat) :
  cov_inv self E C ->
  CovarianceMatrix.pec_cov_type self = "poisson"%string ->
  exists V, CovarianceMatrix.getVc1 self = Ok V /\
            nrows V = C /\ ncols V = C /\ symmetric V.
Proof.
  intros (_ & _ & _ & _ & _ & _ & Hwf & He1 & He2 & _ & _ & Hp1 & Hp2) Hct.
  unfold CovarianceMatrix.getVc1, CovarianceMatrix.getVcPP, poisson_covariance.
  rewrite Hct. simpl String.eqb. cbv iota. rewrite bind_Ok.
  apply diag_sandwich with (k := C * E); shapes.
  - rewrite length_vsquare, length_ravel, He1, He2 by assumption.
    apply Nat.mul_comm.
  - intros i l Hi Hl. symmetry. apply mget_transpose; lia.
Qed.

Lemma madd_symmetric (V0 V1 : matrix) (n : nat) :
  nrows V0 = n -> ncols V0 = n -> nrows V1 = n -> ncols V1 = n ->
  symmetric V0 -> symmetric V1 ->
  exists V, madd V0 V1 = Ok V /\ nrows V = n /\ ncols V = n /\ symmetric V.
Proof.
  intros H1 H2 H3 H4 Hs0 Hs1. unfold madd.
  rewrite (broadcast2_same Qcplus V0 V1 n n) by assumption.
  eexists. split; [reflexivity|].
  rewrite nrows_mtab, ncols_mtab. repeat split.
  unfold symmetric, transpose. rewrite nrows_mtab, ncols_mtab.
  apply mtab_ext. intros i j Hi Hj.
  rewrite mget_mtab by assumption.
  now rewrite (symmetric_entries V0 n j i), (symmetric_entries V1 n j i).
Qed.

Lemma init_not_NotImplemented
    (data data_err eff eff_err : vec) (R Rerr : matrix) (ct : string) :
  Mixer.__init__ data data_err eff eff_err R Rerr ct <> Err NotImplementedError.
Proof.
  unfold Mixer.__init__, CovarianceMatrix.__init__.
  destruct (negb (length data =? nrows R)); [discriminate|].
  destruct (negb (existsb _ _)); [discriminate|].
  unfold vmul, vbroadcast, bdim.
  destruct (_ =? _); [discriminate|].
  destruct (_ =? 1); [discriminate|].
  destruct (_ =? 1); discriminate.
Qed.

(** ** multinomial_covariance *)

Lemma nrows_mmap (f : Qc -> Qc) (m : matrix) : nrows (mmap f m) = nrows m.
Proof. unfold nrows, mmap; simpl. apply length_map. Qed.

Lemma wf_row_length (m : matrix) (i : nat) :
  wf_matrix m = true -> i < nrows m -> length (nth i (rows m) []) = ncols m.
Proof.
  intros Hwf Hi. unfold wf_matrix in Hwf. rewrite forallb_forall in Hwf.
  apply Nat.eqb_eq. apply Hwf. now apply nth_In.
Qed.

Lemma mget_mmap_wf (f : Qc -> Qc) (m : matrix) (i j : nat) :
  wf_matrix m = true -> i < nrows m -> j < ncols m ->
  mget (mmap f m) i j = f (mget m i j).
Proof.
  intros Hwf Hi Hj. unfold mget, mmap, vget; simpl.
  change (@nil Qc) with (map f []) at 1. rewrite map_nth.
  rewrite (nth_indep _ (Q2Qc 0) (f (Q2Qc 0)))
    by (rewrite length_map, wf_row_length; assumption).
  apply map_nth.
Qed.

(** Writing a vector along the diagonal of block [(a, b)]. *)
Lemma assign_block_diag (m : matrix) (a b : nat) (vals : vec) (E C : nat) :
  nrows m = C * E -> ncols m = C * E -> a < E -> b < E -> length vals = C ->
  exists m',
    assign_pairs m (map (Nat.add (a * C)) (arange C))
                 (map (Nat.add (b * C)) (arange C)) vals = Ok m' /\
    nrows m' = C * E /\ ncols m' = C * E /\
    forall e c e' c', e < E -> c < C -> e' < E -> c' < C ->
      mget m' (e * C + c) (e' * C + c')
      = if (e =? a) && (e' =? b) && (c =? c') then vget vals c
        else mget m (e * C + c) (e' * C + c').
Proof.
  intros Hr Hc Ha Hb Hv. unfold arange.
  destruct (assign_pairs_ok m (map (Nat.add (a * C)) (seq 0 C))
              (map (Nat.add (b * C)) (seq 0 C)) vals)
    as [m' (Has & Hr' & Hc' & Hw & Hu)].
  - now rewrite !length_map_seq.
  - now rewrite length_map_seq.
  - rewrite length_map_seq. intros p Hp.
    rewrite !nth_map_seq by assumption. rewrite Hr, Hc.
    split; apply block_index_lt; assumption.
  - rewrite length_map_seq. intros p q Hp Hq.
    rewrite !nth_map_seq by assumption. lia.
  - exists m'. split; [assumption|]. rewrite Hr', Hc'.
    repeat split; try assumption.
    rewrite length_map_seq in Hw, Hu.
    intros e c e' c' He Hc0 He' Hc0'.
    destruct (Nat.eqb_spec e a) as [->|Hea]; simpl.
    + destruct (Nat.eqb_spec e' b) as [->|Heb]; simpl.
      * destruct (Nat.eqb_spec c c') as [<-|Hcc].
        -- specialize (Hw c Hc0). now rewrite !nth_map_seq in Hw by assumption.
        -- apply Hu.
           ++ rewrite Hr. now apply block_index_lt.
           ++ rewrite Hc. now apply block_index_lt.
           ++ intros p Hp [H1 H2]. rewrite !nth_map_seq in H1, H2 by assumption.
              lia.
      * apply Hu.
        -- rewrite Hr. now apply block_index_lt.
        -- rewrite Hc. now apply block_index_lt.
        -- intros p Hp [_ H2]. rewrite nth_map_seq in H2 by assumption.
           apply block_index_inj in H2; try assumption. lia.
    + apply Hu.
      * rewrite Hr. now apply block_index_lt.
      * rewrite Hc. now apply block_index_lt.
      * intros p Hp [H1 _]. rewrite nth_map_seq in H1 by assumption.
        apply block_index_inj in H1; try assumption. lia.
Qed.

(** Case analysis on the comparisons of a goal, dropping impossible cases. *)
Ltac nat_cases :=
  repeat match goal with
  | |- context [?a =? ?b] => destruct (Nat.eqb_spec a b); try lia
  | |- context [?a <? ?b] => destruct (Nat.ltb_spec a b); try lia
  end.

(** * The properties of the specification, C1 to C10 *)

(** C1.  The call of [set_current_state] that the claim describes does
    not complete.  On the scenario the first [smear] leaves the counter at
    1; the second [smear], called with the posterior of the first, enters
    the Adye step, and [set_current_state] raises RuntimeError at the last
    statement of [_adye_propagation_corrections].  No Jacobian is stored:
    the covariance object, counter included, stays as the first call left
    it, and [smear] returns nothing. *)
Theorem scenario_second_smear_raises :
  exists m0 m1 n1 m2,
    scenario_mixer "poisson" = Ok m0 /\
    Mixer.smear m0 scenario_prior = (m1, Ok n1) /\
    CovarianceMatrix.counter (Mixer.cov m1) = 1 /\
    (let M := mixing scenario_R (safe_inverse scenario_eff) n1 in
     CovarianceMatrix.set_current_state (Mixer.cov m1) M
       (predicted scenario_R n1) (posterior scenario_data M) n1
     = (Mixer.cov m1, Err RuntimeError)) /\
    Mixer.smear m1 n1 = (m2, Err RuntimeError) /\
    Mixer.cov m2 = Mixer.cov m1.
Proof.
  do 4 eexists.
  split; [vm_compute; reflexivity|].
  split; [vm_compute; reflexivity|].
  split; [vm_compute; reflexivity|].
  split; [vm_compute; reflexivity|].
  split; [vm_compute; reflexivity|].
  vm_compute. reflexivity.
Qed.

(** C2, as stated: refuted.  On the scenario the first [smear] does not
    return [91, 109]. *)
Lemma scenario_posterior_is_not_91_109 :
  build_then_smear (scenario_mixer "poisson") scenario_prior
  <> Ok [Qc_of_Z 91; Qc_of_Z 109].
Proof.
  intros H.
  apply (f_equal (fun r => match r with Ok v => map this v | Err _ => [] end)) in H.
  vm_compute in H. discriminate H.
Qed.

(** C2, amended.  With the scenario's response, efficiencies, data and
    prior, and whatever uncertainties and mode complete them, the first
    [smear] returns [92, 108]. *)
Theorem scenario_posterior_is_92_108
    (data_err eff_err : vec) (Rerr : matrix) (ct : string) (m : Mixer.t) :
  valid_inputs scenario_data data_err scenario_eff eff_err scenario_R Rerr = true ->
  Mixer.__init__ scenario_data data_err scenario_eff eff_err scenario_R Rerr ct
  = Ok m ->
  snd (Mixer.smear m scenario_prior) = Ok [Qc_of_Z 92; Qc_of_Z 108].
Proof.
  intros Hv Hinit.
  destruct (init_inv _ _ _ _ _ _ _ m Hv Hinit)
    as (Hinv & HR & Hd & Heffi & HE & HC & _ & _ & _ & _ & Hcnt).
  assert (Hlen : length scenario_prior = Mixer.cbins m) by now rewrite HC.
  destruct (smear_ok m scenario_prior Hinv Hlen Hcnt) as [dP (Hs & _)].
  rewrite Hs, HR, Hd, Heffi. simpl snd. apply f_equal.
  apply vec_eqb_eq. vm_compute. reflexivity.
Qed.

Lemma scenario_posterior_is_92_108_witness :
  valid_inputs scenario_data scenario_data_err scenario_eff scenario_eff_err
               scenario_R scenario_R_err = true /\
  build_then_smear (scenario_mixer "multinomial") scenario_prior
  = Ok [Qc_of_Z 92; Qc_of_Z 108].
Proof.
  split; [reflexivity|].
  destruct (init_ok scenario_data scenario_data_err scenario_eff scenario_eff_err
              scenario_R scenario_R_err "multinomial" eq_refl eq_refl) as [v Hm].
  unfold build_then_smear, scenario_mixer. rewrite Hm, bind_Ok.
  exact (scenario_posterior_is_92_108 scenario_data_err scenario_eff_err
           scenario_R_err "multinomial" _ eq_refl Hm).
Defined.

(** C3, as stated: refuted.  The scenario's response has columns that sum
    to 1 and its efficiencies are 1, yet with the prior [0, 0] the
    posterior sums to 0 and the data to 200. *)
Lemma zero_prior_loses_the_total :
  columns_sum_to_one scenario_R = true /\
  all_ones scenario_eff = true /\
  length [Qc_of_Z 0; Qc_of_Z 0] = ncols scenario_R /\
  exists n,
    build_then_smear (scenario_mixer "poisson") [Qc_of_Z 0; Qc_of_Z 0] = Ok n /\
    vsum n <> vsum scenario_data.
Proof.
  split; [vm_compute; reflexivity|].
  split; [vm_compute; reflexivity|].
  split; [reflexivity|].
  eexists. split; [vm_compute; reflexivity|].
  intros H. apply (f_equal this) in H. vm_compute in H. discriminate H.
Qed.

(** C3, amended.  If every column of the response sums to 1, every
    efficiency is 1 and the prior predicts a non-zero count in every
    effect bin, then the posterior returned by [smear] has the total of
    the data. *)
Theorem smear_conserves_total
    (data data_err eff eff_err : vec) (R Rerr : matrix) (ct : string)
    (m : Mixer.t) (prior : vec) :
  valid_inputs data data_err eff eff_err R Rerr = true ->
  columns_sum_to_one R = true ->
  all_ones eff = true ->
  Mixer.__init__ data data_err eff eff_err R Rerr ct = Ok m ->
  length prior = ncols R ->
  (forall e, e < nrows R -> vget (predicted R prior) e <> Q2Qc 0) ->
  exists n, snd (Mixer.smear m prior) = Ok n /\ vsum n = vsum data.
Proof.
  intros Hv _ Hones Hinit Hp Hf.
  destruct (init_inv _ _ _ _ _ _ _ m Hv Hinit)
    as (Hinv & HR & Hd & Heffi & HE & HC & _ & _ & _ & _ & Hcnt).
  assert (Hlen : length prior = Mixer.cbins m) by now rewrite HC.
  destruct (smear_ok m prior Hinv Hlen Hcnt) as [dP (Hs & _)].
  rewrite Hs, HR, Hd, Heffi. simpl snd.
  eexists. split; [reflexivity|].
  apply valid_inputs_facts in Hv.
  apply posterior_total; tauto.
Qed.

Lemma smear_conserves_total_witness :
  exists n,
    build_then_smear (scenario_mixer "poisson") scenario_prior = Ok n /\
    vsum n = vsum scenario_data.
Proof.
  destruct (init_ok scenario_data scenario_data_err scenario_eff scenario_eff_err
              scenario_R scenario_R_err "poisson" eq_refl eq_refl) as [v Hm].
  unfold build_then_smear, scenario_mixer. rewrite Hm, bind_Ok.
  apply (smear_conserves_total scenario_data scenario_data_err scenario_eff
           scenario_eff_err scenario_R scenario_R_err "poisson" _ scenario_prior
           eq_refl).
  - vm_compute. reflexivity.
  - vm_compute. reflexivity.
  - exact Hm.
  - reflexivity.
  - intros e He H. apply (f_equal this) in H.
    destruct e as [|[|e]]; [vm_compute in H; discriminate H
                           |vm_compute in H; discriminate H
                           |unfold nrows, scenario_R in He; simpl in He; lia].
Defined.

(** C4.  The claim fails on the code at a non-zero entry whose reciprocal
    is too large for a double.  [safe_inverse] masks the entries where
    [x == 0] and no others, so for [x = [2^-1074, 1]] the result holds an
    infinity at index 0, where the claim promises the finite [1 / x[0]] and
    the docstring an "inverse of input array with inf set to zero". *)
Theorem safe_inverse_keeps_overflow_infinity :
  let x := [smallest_subnormal; Qc_of_Z 1] in
  vget x 0 <> Q2Qc 0 /\
  nth 0 (safe_inverse_np x) NaN = Inf /\
  forallb is_finite (safe_inverse_np x) = false.
Proof.
  intros x. split.
  - intros H. apply (f_equal this) in H. vm_compute in H. discriminate H.
  - split; vm_compute; reflexivity.
Qed.

(** C5.  On a freshly built mixer one call of [smear] stores the mixing
    matrix of that call as [dn] and, entry by entry, the first-order term
    [dP0] as [dP]; the counter goes from 0 to 1 and no Adye correction
    enters. *)
Theorem first_smear_stores_local_terms
    (data data_err eff eff_err : vec) (R Rerr : matrix) (ct : string)
    (m : Mixer.t) (prior : vec) :
  valid_inputs data data_err eff eff_err R Rerr = true ->
  Mixer.__init__ data data_err eff eff_err R Rerr ct = Ok m ->
  length prior = ncols R ->
  let M := mixing R (safe_inverse eff) prior in
  let n_new := posterior data M in
  let g := safe_ratio data (predicted R prior) in
  exists m',
    Mixer.smear m prior = (m', Ok n_new) /\
    Mixer.Mij m' = M /\
    CovarianceMatrix.counter (Mixer.cov m') = 1 /\
    CovarianceMatrix.dcdn (Mixer.cov m') = M /\
    nrows (CovarianceMatrix.dcdP (Mixer.cov m')) = ncols R /\
    ncols (CovarianceMatrix.dcdP (Mixer.cov m')) = ncols R * nrows R /\
    forall c e k, c < ncols R -> e < nrows R -> k < ncols R ->
      mget (CovarianceMatrix.dcdP (Mixer.cov m')) c (e * ncols R + k)
      = dP0_entry g M prior n_new (safe_inverse eff) c e k.
Proof.
  intros Hv Hinit Hp M n_new g.
  destruct (init_inv data data_err eff eff_err R Rerr ct m Hv Hinit)
    as (Hinv & HR & Hd & Heffi & HE & HC & HcN & _ & HcE & _ & Hcnt).
  assert (Hlen : length prior = Mixer.cbins m) by congruence.
  destruct (smear_ok m prior Hinv Hlen Hcnt) as [dP (Hs & H3 & H4 & HdP)].
  rewrite HR, Hd, Heffi, HE, HC, HcN, HcE in *.
  eexists. split; [exact Hs|]. simpl. rewrite Hcnt.
  repeat split; assumption.
Qed.

Lemma first_smear_stores_local_terms_witness :
  exists m,
    scenario_mixer "poisson" = Ok m /\
    exists m',
      Mixer.smear m scenario_prior
      = (m', Ok (posterior scenario_data
                   (mixing scenario_R (safe_inverse scenario_eff) scenario_prior))) /\
      CovarianceMatrix.dcdn (Mixer.cov m')
      = mixing scenario_R (safe_inverse scenario_eff) scenario_prior.
Proof.
  destruct (init_ok scenario_data scenario_data_err scenario_eff scenario_eff_err
              scenario_R scenario_R_err "poisson" eq_refl eq_refl) as [v Hm].
  eexists. split; [exact Hm|].
  destruct (first_smear_stores_local_terms
              scenario_data scenario_data_err scenario_eff scenario_eff_err
              scenario_R scenario_R_err "poisson" _ scenario_prior
              eq_refl Hm eq_refl)
    as [m' (Hs & _ & _ & Hdn & _)].
  exists m'. split; assumption.
Defined.

(** C6.  After any sequence of [smear] calls on a mixer built in poisson
    mode from inputs of fitting shapes, [getVc0], [getVc1] and [get_cov]
    each return a matrix, and each matrix is symmetric. *)
Theorem poisson_covariances_symmetric
    (data data_err eff eff_err : vec) (R Rerr : matrix) (ct : string)
    (m0 : Mixer.t) (priors : list vec) :
  valid_inputs data data_err eff eff_err R Rerr = true ->
  lower ct = "poisson"%string ->
  Mixer.__init__ data data_err eff eff_err R Rerr ct = Ok m0 ->
  let m := smear_all m0 priors in
  exists Vc0 Vc1 Vc,
    CovarianceMatrix.getVc0 (Mixer.cov m) = Ok Vc0 /\
    CovarianceMatrix.getVc1 (Mixer.cov m) = Ok Vc1 /\
    Mixer.get_cov m = Ok Vc /\
    symmetric Vc0 /\ symmetric Vc1 /\ symmetric Vc.
Proof.
  intros Hv Hct Hinit m.
  destruct (init_inv data data_err eff eff_err R Rerr ct m0 Hv Hinit)
    as (Hinv & _ & _ & _ & _ & _ & _ & _ & _ & Htype & _).
  assert (Hm : mixer_inv m) by now apply mixer_inv_smear_all.
  assert (Hmode : CovarianceMatrix.pec_cov_type (Mixer.cov m) = "poisson"%string).
  { unfold m. rewrite cov_type_smear_all. congruence. }
  destruct Hm as (_ & _ & _ & _ & Hcov).
  destruct (getVc0_ok _ _ _ Hcov) as [V0 (H0 & Hr0 & Hc0 & Hs0)].
  destruct (getVc1_poisson_ok _ _ _ Hcov Hmode) as [V1 (H1 & Hr1 & Hc1 & Hs1)].
  destruct (madd_symmetric V0 V1 _ Hr0 Hc0 Hr1 Hc1 Hs0 Hs1)
    as [V (HV & _ & _ & HsV)].
  exists V0, V1, V. repeat split; try assumption.
  unfold Mixer.get_cov, CovarianceMatrix.get_cov. now rewrite H0, H1.
Qed.

Lemma poisson_covariances_symmetric_witness :
  exists m0,
    scenario_mixer "Poisson" = Ok m0 /\
    let n1 := posterior scenario_data
                (mixing scenario_R (safe_inverse scenario_eff) scenario_prior) in
    let m := smear_all m0 [scenario_prior; n1] in
    exists Vc0 Vc1 Vc,
      CovarianceMatrix.getVc0 (Mixer.cov m) = Ok Vc0 /\
      CovarianceMatrix.getVc1 (Mixer.cov m) = Ok Vc1 /\
      Mixer.get_cov m = Ok Vc /\
      symmetric Vc0 /\ symmetric Vc1 /\ symmetric Vc.
Proof.
  destruct (init_ok scenario_data scenario_data_err scenario_eff scenario_eff_err
              scenario_R scenario_R_err "Poisson" eq_refl eq_refl) as [v Hm].
  eexists. split; [exact Hm|].
  intros n1.
  exact (poisson_covariances_symmetric
           scenario_data scenario_data_err scenario_eff scenario_eff_err
           scenario_R scenario_R_err "Poisson" _ [scenario_prior; n1]
           eq_refl eq_refl Hm).
Defined.

(** C7.  The constructor never raises [NotImplementedError]; with the tag
    "multinomial" (in any case) and inputs of fitting shapes it returns a
    mixer.  On that mixer, after any sequence of [smear] calls, [smear]
    and [getVc0] do not raise it, while [getVcPP], [getVc1] and [get_cov]
    do. *)
Theorem multinomial_raises_only_on_read
    (data data_err eff eff_err : vec) (R Rerr : matrix) (ct : string)
    (priors : list vec) :
  Mixer.__init__ data data_err eff eff_err R Rerr ct <> Err NotImplementedError /\
  (valid_inputs data data_err eff eff_err R Rerr = true ->
   lower ct = "multinomial"%string ->
   exists m0,
     Mixer.__init__ data data_err eff eff_err R Rerr ct = Ok m0 /\
     let m := smear_all m0 priors in
     (forall p, snd (Mixer.smear m p) <> Err NotImplementedError) /\
     (exists V, CovarianceMatrix.getVc0 (Mixer.cov m) = Ok V) /\
     CovarianceMatrix.getVcPP (Mixer.cov m) = Err NotImplementedError /\
     CovarianceMatrix.getVc1 (Mixer.cov m) = Err NotImplementedError /\
     CovarianceMatrix.get_cov (Mixer.cov m) = Err NotImplementedError /\
     Mixer.get_cov m = Err NotImplementedError).
Proof.
  split; [apply init_not_NotImplemented|].
  intros Hv Hct.
  destruct (init_ok data data_err eff eff_err R Rerr ct Hv) as [v Hinit].
  { rewrite Hct. reflexivity. }
  eexists. split; [exact Hinit|].
  intros m.
  destruct (init_inv data data_err eff eff_err R Rerr ct _ Hv Hinit)
    as (Hinv & _ & _ & _ & _ & _ & _ & _ & _ & Htype & _).
  assert (Hm : mixer_inv m) by now apply mixer_inv_smear_all.
  assert (Hmode : CovarianceMatrix.pec_cov_type (Mixer.cov m)
                  = "multinomial"%string).
  { unfold m. rewrite cov_type_smear_all. congruence. }
  assert (HPP : CovarianceMatrix.getVcPP (Mixer.cov m) = Err NotImplementedError).
  { unfold CovarianceMatrix.getVcPP. now rewrite Hmode. }
  assert (H1 : CovarianceMatrix.getVc1 (Mixer.cov m) = Err NotImplementedError).
  { unfold CovarianceMatrix.getVc1. now rewrite HPP. }
  pose proof Hm as (_ & _ & _ & _ & Hcov).
  destruct (getVc0_ok _ _ _ Hcov) as [V0 (H0 & _)].
  assert (Hc : CovarianceMatrix.get_cov (Mixer.cov m) = Err NotImplementedError).
  { unfold CovarianceMatrix.get_cov. now rewrite H0, H1. }
  repeat split; try assumption.
  - intros p.
    destruct (Nat.eq_dec (length p) (Mixer.cbins m)) as [Hp|Hp].
    + destruct (Nat.eq_dec (CovarianceMatrix.counter (Mixer.cov m)) 0)
        as [H0'|H0'].
      * destruct (smear_ok m p Hm Hp H0') as [dP (Hs & _)].
        rewrite Hs. discriminate.
      * rewrite smear_raises by (try assumption; lia). discriminate.
    + rewrite smear_rejects by assumption. discriminate.
  - now exists V0.
Qed.

Lemma multinomial_raises_only_on_read_witness :
  valid_inputs scenario_data scenario_data_err scenario_eff scenario_eff_err
               scenario_R scenario_R_err = true /\
  lower "Multinomial" = "multinomial"%string /\
  exists m0,
    scenario_mixer "Multinomial" = Ok m0 /\
    let m := smear_all m0 [scenario_prior] in
    CovarianceMatrix.getVcPP (Mixer.cov m) = Err NotImplementedError /\
    CovarianceMatrix.getVc1 (Mixer.cov m) = Err NotImplementedError /\
    Mixer.get_cov m = Err NotImplementedError.
Proof.
  split; [reflexivity|]. split; [reflexivity|].
  destruct (multinomial_raises_only_on_read
              scenario_data scenario_data_err scenario_eff scenario_eff_err
              scenario_R scenario_R_err "Multinomial" [scenario_prior])
    as [_ H].
  destruct (H eq_refl eq_refl) as [m0 (Hm & _ & _ & HPP & H1 & _ & Hc)].
  exists m0. repeat split; assumption.
Defined.


(** On a 2-dimensional response the constructor is [__init__] on the
    matrix of its entries. *)
Lemma init_nd_two_dimensional (data data_err eff eff_err : vec)
    (response : ndarray) (Rerr : matrix) (ct : string) (r c : nat) :
  nd_shape response = [r; c] ->
  Mixer.__init__nd data data_err eff eff_err response Rerr ct
  = Mixer.__init__ data data_err eff eff_err (as_matrix response) Rerr ct.
Proof.
  intros H. unfold Mixer.__init__nd, shape0, ndim. rewrite H, bind_Ok.
  cbn [length Nat.eqb negb].
  destruct (Nat.eqb_spec (length data) r) as [Hd|Hd]; cbn [negb];
    [reflexivity|].
  unfold Mixer.__init__, as_matrix. rewrite H, nrows_mtab.
  apply Nat.eqb_neq in Hd. now rewrite Hd.
Qed.





(** C9, as stated: refuted.  With two effect rows, two causes and
    [nc_inv = [1, 2]], the diagonal entry of effect row 0 and cause 1 is
    scaled by [nc_inv[1]], not by [nc_inv[0]]. *)
Lemma multinomial_diag_scaled_by_cause :
  exists V,
    multinomial_covariance 2 2 [Qc_of_Z 1; Qc_of_Z 2] scenario_R = Ok V /\
    mget V (0 * 2 + 1) (0 * 2 + 1)
    <> spec_multinomial_diag [Qc_of_Z 1; Qc_of_Z 2] scenario_R 0 1.
Proof.
  eexists. split; [vm_compute; reflexivity|].
  intros H. apply (f_equal this) in H. vm_compute in H. discriminate H.
Qed.

(** C9, amended.  For a response of [ebins] rows and [cbins] columns and an
    inverse-count vector with one entry per cause, the helper returns the
    square matrix of side [cbins * ebins] whose entries are
    [multinomial_entry]: [nc_inv[c] · R[e,c] · (1 − R[e,c])] on the diagonal,
    [− nc_inv[c] · R[e,c] · R[e',c]] across two effect rows [e <> e'] of one
    cause [c], in both orders, and 0 elsewhere. *)
Theorem multinomial_covariance_entries (E C : nat) (nc_inv : vec) (pec : matrix) :
  wf_matrix pec = true -> nrows pec = E -> ncols pec = C -> length nc_inv = C ->
  exists V,
    multinomial_covariance E C nc_inv pec = Ok V /\
    nrows V = C * E /\ ncols V = C * E /\
    forall e c e' c', e < E -> c < C -> e' < E -> c' < C ->
      mget V (e * C + c) (e' * C + c') = multinomial_entry nc_inv pec e c e' c'.
Proof.
  intros Hwf HR1 HR2 Hnc.
  unfold multinomial_covariance. cbv zeta. unfold mmul, arange.
  rewrite (broadcast2_row_l Qcmult pec nc_inv E C) by assumption. next_stmt.
  rewrite (broadcast2_same Qcmult _ (mmap _ pec) E C)
    by (shapes; rewrite nrows_mmap; assumption).
  next_stmt.
  match goal with |- context [getrow ?M] => set (A := M) end.
  assert (HA1 : nrows A = E) by apply nrows_mtab.
  assert (HA2 : ncols A = C) by reflexivity.
  assert (HA : forall e c, e < E -> c < C ->
            mget A e c
            = (vget nc_inv c * mget pec e c * (Q2Qc 1 - mget pec e c))%Qc).
  { intros e c He Hc. unfold A. rewrite !mget_mtab by assumption.
    rewrite mget_mmap_wf by (try assumption; lia). reflexivity. }
  clearbody A.
  set (K := C * E).
  match goal with |- exists V, foldM ?body _ _ = _ /\ _ =>
    destruct (@foldM_seq_inv matrix
      (fun ej acc => nrows acc = K /\ ncols acc = K /\
         forall e c e' c', e < E -> c < C -> e' < E -> c' < C ->
           mget acc (e * C + c) (e' * C + c')
           = if Nat.min e e' <? ej then multinomial_entry nc_inv pec e c e' c'
             else Q2Qc 0)
      body E 0 (zeros K K)) as [V [HV HP]]
  end.
  - unfold zeros. rewrite nrows_mtab, ncols_mtab. repeat split.
    intros e c e' c' He Hc He' Hc'.
    rewrite mget_mtab by (apply block_index_lt; assumption). reflexivity.
  - intros ej acc Hej (Hr & Hc & Hacc).
    rewrite getrow_ok by lia. next_stmt. rewrite HA2.
    destruct (assign_block_diag acc ej ej (vtab C (mget A ej)) E C)
      as [acc1 (Has1 & Hr1 & Hc1 & Hacc1)];
      try assumption; try lia; try apply length_vtab.
    unfold arange in Has1. rewrite Has1. next_stmt.
    rewrite getrow_ok by lia. next_stmt. rewrite HR2.
    unfold vmul.
    rewrite (vbroadcast_same Qcmult (vneg nc_inv) _ C)
      by (first [apply length_vtab
                |unfold vneg; rewrite length_map; assumption]).
    next_stmt.
    rewrite (broadcast2_row_l Qcmult pec _ E C)
      by (try assumption; apply length_vtab).
    next_stmt.
    match goal with |- context [getrow ?M] => set (cov := M) end.
    assert (Hcov2 : ncols cov = C) by reflexivity.
    assert (Hcov1 : nrows cov = E) by apply nrows_mtab.
    assert (Hcov : forall e c, e < E -> c < C ->
              mget cov e c
              = (- vget nc_inv c * mget pec ej c * mget pec e c)%Qc).
    { intros e c He Hc0. unfold cov. rewrite mget_mtab by assumption.
      rewrite !vget_vtab by assumption. rewrite vget_vneg. reflexivity. }
    clearbody cov.
    match goal with |- exists acc', foldM ?body _ _ = _ /\ _ =>
      destruct (@foldM_seq_inv matrix
        (fun ek acc' => nrows acc' = K /\ ncols acc' = K /\
           forall e c e' c', e < E -> c < C -> e' < E -> c' < C ->
             mget acc' (e * C + c) (e' * C + c')
             = if (Nat.min e e' <? ej)
                  || ((Nat.min e e' =? ej) && (Nat.max e e' <? ek))
               then multinomial_entry nc_inv pec e c e' c'
               else Q2Qc 0)
        body (E - (ej + 1)) (ej + 1) acc1) as [r [Hr' HQ]]
    end.
    + repeat split; try assumption.
      intros e c e' c' He Hc0 He' Hc0'.
      rewrite Hacc1, Hacc by assumption. unfold multinomial_entry.
      rewrite vget_vtab by assumption. rewrite HA by lia.
      nat_cases; simpl; try reflexivity; subst; reflexivity.
    + intros ek acc' Hek (Hr2 & Hc2 & Hacc2).
      rewrite getrow_ok by lia. next_stmt. rewrite Hcov2.
      destruct (assign_block_diag acc' ej ek (vtab C (mget cov ek)) E C)
        as [acc3 (Has3 & Hr3 & Hc3 & Hacc3)];
        try assumption; try lia; try apply length_vtab.
      unfold arange in Has3. rewrite Has3. next_stmt.
      destruct (assign_block_diag acc3 ek ej (vtab C (mget cov ek)) E C)
        as [acc4 (Has4 & Hr4 & Hc4 & Hacc4)];
        try assumption; try lia; try apply length_vtab.
      unfold arange in Has4. exists acc4. split; [exact Has4|].
      repeat split; try assumption.
      intros e c e' c' He Hc0 He' Hc0'.
      rewrite Hacc4, Hacc3, Hacc2 by assumption. unfold multinomial_entry.
      rewrite vget_vtab by assumption. rewrite Hcov by lia.
      nat_cases; simpl; try reflexivity; subst; try reflexivity; ring.
    + exists r. split; [exact Hr'|].
      replace (ej + 1 + (E - (ej + 1))) with E in HQ by lia.
      destruct HQ as (Hr2 & Hc2 & Hacc2).
      repeat split; try assumption.
      intros e c e' c' He Hc0 He' Hc0'.
      rewrite Hacc2 by assumption.
      nat_cases; simpl; reflexivity.
  - exists V. split; [exact HV|]. simpl in HP.
    destruct HP as (Hr & Hc & Hacc). repeat split; try assumption.
    intros e c e' c' He Hc0 He' Hc0'. rewrite Hacc by assumption.
    destruct (Nat.ltb_spec (Nat.min e e') E); [reflexivity|lia].
Qed.

Lemma multinomial_covariance_entries_witness :
  wf_matrix scenario_R = true /\
  exists V,
    multinomial_covariance 2 2 [Qc_of_Z 1; Qc_of_Z 2] scenario_R = Ok V /\
    mget V (0 * 2 + 1) (1 * 2 + 1)
    = multinomial_entry [Qc_of_Z 1; Qc_of_Z 2] scenario_R 0 1 1 1.
Proof.
  split; [reflexivity|].
  destruct (multinomial_covariance_entries 2 2 [Qc_of_Z 1; Qc_of_Z 2] scenario_R
              eq_refl eq_refl eq_refl eq_refl) as [V (HV & _ & _ & Hent)].
  exists V. split; [exact HV|]. apply Hent; lia.
Defined.

(** C10.  A prior whose length is not the number of cause bins makes
    [smear] raise before it assigns anything: the object is the one the
    call received, so the cached mixing matrix, both persisted Jacobians
    and the iteration counter are unchanged. *)
Theorem smear_wrong_length_atomic (m : Mixer.t) (n_c : vec) :
  length n_c <> Mixer.cbins m ->
  snd (Mixer.smear m n_c) = Err ValueError /\
  fst (Mixer.smear m n_c) = m /\
  Mixer.Mij (fst (Mixer.smear m n_c)) = Mixer.Mij m /\
  CovarianceMatrix.dcdn (Mixer.cov (fst (Mixer.smear m n_c)))
  = CovarianceMatrix.dcdn (Mixer.cov m) /\
  CovarianceMatrix.dcdP (Mixer.cov (fst (Mixer.smear m n_c)))
  = CovarianceMatrix.dcdP (Mixer.cov m) /\
  CovarianceMatrix.counter (Mixer.cov (fst (Mixer.smear m n_c)))
  = CovarianceMatrix.counter (Mixer.cov m).
Proof.
  intros H. rewrite (smear_rejects m n_c H). simpl. repeat split.
Qed.

Lemma smear_wrong_length_atomic_witness :
  exists m,
    scenario_mixer "poisson" = Ok m /\
    length [Qc_of_Z 100] <> Mixer.cbins m /\
    snd (Mixer.smear m [Qc_of_Z 100]) = Err ValueError /\
    fst (Mixer.smear m [Qc_of_Z 100]) = m.
Proof.
  destruct (init_ok scenario_data scenario_data_err scenario_eff scenario_eff_err
              scenario_R scenario_R_err "poisson" eq_refl eq_refl) as [v Hm].
  assert (Hlen : length [Qc_of_Z 100] <> 2) by (simpl; lia).
  match type of Hm with _ = Ok ?m0 =>
    exists m0; split; [exact Hm|]; split; [exact Hlen|];
    split; apply (smear_wrong_length_atomic m0 [Qc_of_Z 100] Hlen)
  end.
Defined.

(** * Further properties of mix.py *)

(** ** The covariance update after the first step *)

(** The scenario after its first step: a well-shaped object with the
    counter at 1. *)
Lemma scenario_first_step (ct : string) :
  existsb (String.eqb (lower ct)) ["multinomial"; "poisson"]%string = true ->
  exists m0,
    scenario_mixer ct = Ok m0 /\ mixer_inv m0 /\
    Mixer.ebins m0 = 2 /\ Mixer.cbins m0 = 2 /\
    CovarianceMatrix.counter (Mixer.cov m0) = 0 /\
    CovarianceMatrix.pec_cov_type (Mixer.cov m0) = lower ct /\
    let m1 := fst (Mixer.smear m0 scenario_prior) in
    mixer_inv m1 /\ cov_inv (Mixer.cov m1) 2 2 /\
    CovarianceMatrix.counter (Mixer.cov m1) = 1.
Proof.
  intros Hct.
  destruct (init_ok scenario_data scenario_data_err scenario_eff scenario_eff_err
              scenario_R scenario_R_err ct eq_refl Hct) as [v Hm].
  eexists. split; [exact Hm|].
  destruct (init_inv scenario_data scenario_data_err scenario_eff scenario_eff_err
              scenario_R scenario_R_err ct _ eq_refl Hm)
    as (Hinv & _ & _ & _ & HE & HC & _ & _ & _ & Hty & Hcnt).
  split; [exact Hinv|]. split; [exact HE|]. split; [exact HC|].
  split; [exact Hcnt|]. split; [exact Hty|].
  intros m1.
  assert (Hinv1 : mixer_inv m1) by (apply mixer_inv_smear; exact Hinv).
  split; [exact Hinv1|]. split.
  - destruct Hinv1 as (_ & _ & _ & _ & Hcov). unfold m1 in Hcov.
    match type of Hcov with
    | cov_inv _ (Mixer.ebins (fst (Mixer.smear ?m ?p))) _ =>
        destruct (dims_smear m p) as [HE1 HC1]
    end.
    rewrite HE1, HC1 in Hcov. exact Hcov.
  - unfold m1. rewrite counter_after_smear; [|exact Hinv|reflexivity].
    rewrite Hcnt. reflexivity.
Qed.

(** X1.  When [set_current_state] runs with the counter above 0, on
    arrays of fitting shapes, it raises RuntimeError: the last statement
    of [_adye_propagation_corrections] subtracts a strided tensor from a
    sparse one.  The object is left exactly as it was: neither Jacobian is
    replaced and the counter is not incremented. *)
Theorem later_update_raises_and_stores_nothing
    (self : CovarianceMatrix.t) (Mij : matrix)
    (f_norm n_c n_c_prev : vec) (E C : nat) :
  cov_inv self E C ->
  nrows Mij = E -> ncols Mij = C ->
  length f_norm = E -> length n_c = C -> length n_c_prev = C ->
  0 < CovarianceMatrix.counter self ->
  CovarianceMatrix.set_current_state self Mij f_norm n_c n_c_prev
  = (self, Err RuntimeError).
Proof.
  intros Hinv HM1 HM2 Hf Hn Hprev Hpos.
  now apply (set_current_state_raises self Mij f_norm n_c n_c_prev E C).
Qed.

Lemma later_update_raises_and_stores_nothing_witness :
  exists m0,
    scenario_mixer "poisson" = Ok m0 /\
    let m1 := fst (Mixer.smear m0 scenario_prior) in
    let n1 := posterior scenario_data
                (mixing scenario_R (safe_inverse scenario_eff) scenario_prior) in
    let M := mixing scenario_R (safe_inverse scenario_eff) n1 in
    0 < CovarianceMatrix.counter (Mixer.cov m1) /\
    CovarianceMatrix.set_current_state (Mixer.cov m1) M
      (predicted scenario_R n1) (posterior scenario_data M) n1
    = (Mixer.cov m1, Err RuntimeError).
Proof.
  destruct (scenario_first_step "poisson" eq_refl)
    as [m0 (Hm & _ & _ & _ & _ & _ & _ & Hcov & Hcnt)].
  exists m0. split; [exact Hm|].
  intros m1 n1 M.
  assert (Hpos : 0 < CovarianceMatrix.counter (Mixer.cov m1))
    by (unfold m1; rewrite Hcnt; lia).
  split; [exact Hpos|].
  exact (later_update_raises_and_stores_nothing (Mixer.cov m1) M
           (predicted scenario_R n1) (posterior scenario_data M) n1 2 2
           Hcov eq_refl eq_refl eq_refl eq_refl eq_refl Hpos).
Defined.

(** ** Errors of the constructor *)

(** X2.  A covariance-mode tag whose lower-case form is neither
    "multinomial" nor "poisson" makes the constructor of [Mixer] (and of
    [CovarianceMatrix]) raise [ValueError], whatever the arrays are. *)
Theorem invalid_cov_type_rejected
    (data data_err eff eff_err : vec) (R Rerr : matrix) (ct : string) :
  lower ct <> "multinomial"%string -> lower ct <> "poisson"%string ->
  Mixer.__init__ data data_err eff eff_err R Rerr ct = Err ValueError /\
  CovarianceMatrix.__init__ data data_err eff eff_err R Rerr ct = Err ValueError.
Proof.
  intros H1 H2.
  assert (Hc : CovarianceMatrix.__init__ data data_err eff eff_err R Rerr ct
               = Err ValueError).
  { unfold CovarianceMatrix.__init__. simpl existsb.
    apply String.eqb_neq in H1, H2. now rewrite H1, H2. }
  split; [|exact Hc].
  unfold Mixer.__init__.
  destruct (negb (length data =? nrows R)); [reflexivity|].
  now rewrite Hc.
Qed.

Lemma invalid_cov_type_rejected_witness :
  lower "Gaussian" <> "multinomial"%string /\
  lower "Gaussian" <> "poisson"%string /\
  scenario_mixer "Gaussian" = Err ValueError.
Proof.
  assert (H1 : lower "Gaussian" <> "multinomial"%string) by discriminate.
  assert (H2 : lower "Gaussian" <> "poisson"%string) by discriminate.
  split; [exact H1|]. split; [exact H2|].
  exact (proj1 (invalid_cov_type_rejected
                  scenario_data scenario_data_err scenario_eff scenario_eff_err
                  scenario_R scenario_R_err "Gaussian" H1 H2)).
Defined.

(** X3.  Efficiencies and efficiency errors whose lengths differ, neither
    being 1, make the constructor fail with the array library's shape
    error (raised by [efficiencies * efficiencies_err_inv]), once the data
    length and the tag have passed their checks. *)
Theorem efficiency_error_length_mismatch
    (data data_err eff eff_err : vec) (R Rerr : matrix) (ct : string) :
  length data = nrows R ->
  existsb (String.eqb (lower ct)) ["multinomial"; "poisson"]%string = true ->
  length eff <> length eff_err -> length eff <> 1 -> length eff_err <> 1 ->
  Mixer.__init__ data data_err eff eff_err R Rerr ct = Err ShapeError.
Proof.
  intros Hd Hct Hne H1 H2.
  unfold Mixer.__init__, CovarianceMatrix.__init__.
  rewrite Hd, Nat.eqb_refl, Hct. simpl negb. cbv iota.
  unfold vmul, vbroadcast, bdim. rewrite length_safe_inverse.
  apply Nat.eqb_neq in Hne, H1, H2. now rewrite Hne, H1, H2.
Qed.

Lemma efficiency_error_length_mismatch_witness :
  Mixer.__init__ scenario_data scenario_data_err scenario_eff
                 [frac 1 100; frac 1 100; frac 1 100]
                 scenario_R scenario_R_err "poisson" = Err ShapeError.
Proof.
  apply efficiency_error_length_mismatch; try reflexivity; simpl; lia.
Defined.

(** ** The covariance matrices, entry by entry *)

Lemma Qc_zero_mult_nonneg (x y : Qc) :
  (Q2Qc 0 <= x)%Qc -> (Q2Qc 0 <= y)%Qc -> (Q2Qc 0 <= x * y)%Qc.
Proof.
  intros Hx Hy. replace (Q2Qc 0) with (Q2Qc 0 * y)%Qc by ring.
  now apply Qcmult_le_compat_r.
Qed.

Lemma Qc_square_nonneg (x : Qc) : (Q2Qc 0 <= x * x)%Qc.
Proof.
  destruct (Qclt_le_dec x (Q2Qc 0)) as [Hneg|Hpos].
  - replace (x * x)%Qc with ((- x) * (- x))%Qc by ring.
    assert (H : (Q2Qc 0 <= - x)%Qc).
    { replace (Q2Qc 0) with (- Q2Qc 0)%Qc by ring.
      apply Qcopp_le_compat. now apply Qclt_le_weak. }
    now apply Qc_zero_mult_nonneg.
  - now apply Qc_zero_mult_nonneg.
Qed.

Lemma bigsum_nonneg (n : nat) (f : nat -> Qc) :
  (forall k, k < n -> (Q2Qc 0 <= f k)%Qc) -> (Q2Qc 0 <= bigsum n f)%Qc.
Proof.
  induction n as [|n IH]; intros H.
  - apply Qcle_refl.
  - rewrite bigsum_S. replace (Q2Qc 0) with (Q2Qc 0 + Q2Qc 0)%Qc by ring.
    apply Qcplus_le_compat; [apply IH; intros; apply H; lia|apply H; lia].
Qed.

(** The entries of [L · diag(d) · L']. *)
Lemma diag_sandwich_entries (L L' : matrix) (d : vec) (n k : nat) :
  nrows L = n -> ncols L = k -> nrows L' = k -> ncols L' = n -> length d = k ->
  exists V,
    (u <- matmul L (spdiags d) ;; matmul u L') = Ok V /\
    nrows V = n /\ ncols V = n /\
    forall i j, i < n -> j < n ->
      mget V i j = bigsum k (fun l => mget L i l * vget d l * mget L' l j)%Qc.
Proof.
  intros HL1 HL2 HR1 HR2 Hd.
  rewrite (matmul_fit L (spdiags d) n k k)
    by (try assumption; unfold spdiags; rewrite ?nrows_mtab, ?ncols_mtab; assumption).
  rewrite bind_Ok.
  rewrite (matmul_fit _ L' n k n) by shapes.
  eexists. split; [reflexivity|].
  rewrite nrows_mtab, ncols_mtab. repeat split.
  intros i j Hi Hj. rewrite mget_mtab by assumption.
  apply bigsum_ext. intros l Hl. rewrite mget_mtab by assumption. f_equal.
  rewrite (bigsum_ext k _
    (fun l' => if l' =? l then (mget L i l' * vget d l')%Qc else Q2Qc 0)).
  - now apply (bigsum_delta k l (fun l' => (mget L i l' * vget d l')%Qc)).
  - intros l' Hl'. unfold spdiags. rewrite Hd, mget_mtab by assumption.
    destruct (l' =? l); [reflexivity|ring].
Qed.

Lemma getVc0_entries (self : CovarianceMatrix.t) (E C : nat) :
  cov_inv self E C ->
  exists V,
    CovarianceMatrix.getVc0 self = Ok V /\ nrows V = C /\ ncols V = C /\
    forall a b, a < C -> b < C ->
      mget V a b
      = bigsum E (fun e =>
          mget (CovarianceMatrix.dcdn self) e a
          * (vget (CovarianceMatrix.NEobs_err self) e
             * vget (CovarianceMatrix.NEobs_err self) e)
          * mget (CovarianceMatrix.dcdn self) e b)%Qc.
Proof.
  intros (_ & _ & _ & Hde & _ & _ & _ & _ & _ & Hn1 & Hn2 & _).
  unfold CovarianceMatrix.getVc0, CovarianceMatrix.getVcd, vmul.
  rewrite (vbroadcast_same Qcmult _ _ E Hde Hde), !bind_Ok.
  destruct (diag_sandwich_entries
              (transpose (CovarianceMatrix.dcdn self))
              (CovarianceMatrix.dcdn self)
              (vtab E (fun i => (vget (CovarianceMatrix.NEobs_err self) i
                                 * vget (CovarianceMatrix.NEobs_err self) i)%Qc))
              C E) as [V (HV & Hr & Hc & Hent)]; shapes.
  exists V. split; [exact HV|]. repeat split; try assumption.
  intros a b Ha Hb. rewrite Hent by assumption.
  apply bigsum_ext. intros e He.
  rewrite mget_transpose, vget_vtab by (rewrite ?Hn1, ?Hn2; assumption).
  reflexivity.
Qed.

Lemma nth_concat_rows (c : nat) (l : list vec) (i j : nat) :
  forallb (fun r => length r =? c) l = true -> i < length l -> j < c ->
  vget (concat l) (i * c + j) = vget (nth i l []) j.
Proof.
  revert i. induction l as [|r l IH]; intros i Hwf Hi Hj; simpl in *.
  - lia.
  - apply andb_true_iff in Hwf. destruct Hwf as [Hr Hl].
    apply Nat.eqb_eq in Hr. unfold vget in *.
    destruct i as [|i]; simpl.
    + rewrite app_nth1 by lia. reflexivity.
    + rewrite app_nth2 by lia. rewrite Hr.
      replace (c + i * c + j - c) with (i * c + j) by lia.
      apply IH; [assumption|lia|assumption].
Qed.

Lemma vget_ravel (m : matrix) (e c : nat) :
  wf_matrix m = true -> e < nrows m -> c < ncols m ->
  vget (ravel m) (e * ncols m + c) = mget m e c.
Proof.
  intros Hwf He Hc. unfold ravel, mget. now apply nth_concat_rows.
Qed.

Lemma vget_vsquare (v : vec) (i : nat) :
  vget (vsquare v) i = (vget v i * vget v i)%Qc.
Proof.
  unfold vsquare, vget.
  replace (Q2Qc 0) with ((fun x => x * x)%Qc (Q2Qc 0)) at 1 by ring.
  apply (map_nth (fun x => (x * x)%Qc)).
Qed.

Lemma getVc1_poisson_entries (self : CovarianceMatrix.t) (E C : nat) :
  cov_inv self E C ->
  CovarianceMatrix.pec_cov_type self = "poisson"%string ->
  exists V,
    CovarianceMatrix.getVc1 self = Ok V /\ nrows V = C /\ ncols V = C /\
    forall a b, a < C -> b < C ->
      mget V a b
      = bigsum (C * E) (fun j =>
          mget (CovarianceMatrix.dcdP self) a j
          * (vget (ravel (CovarianceMatrix.pec_err self)) j
             * vget (ravel (CovarianceMatrix.pec_err self)) j)
          * mget (CovarianceMatrix.dcdP self) b j)%Qc.
Proof.
  intros (_ & _ & _ & _ & _ & _ & Hwf & He1 & He2 & _ & _ & Hp1 & Hp2) Hct.
  unfold CovarianceMatrix.getVc1, CovarianceMatrix.getVcPP, poisson_covariance.
  rewrite Hct. simpl String.eqb. cbv iota. rewrite bind_Ok.
  destruct (diag_sandwich_entries
              (CovarianceMatrix.dcdP self)
              (transpose (CovarianceMatrix.dcdP self))
              (vsquare (ravel (CovarianceMatrix.pec_err self)))
              C (C * E)) as [V (HV & Hr & Hc & Hent)]; shapes.
  { rewrite length_vsquare, length_ravel, He1, He2 by assumption.
    apply Nat.mul_comm. }
  exists V. split; [exact HV|]. repeat split; try assumption.
  intros a b Ha Hb. rewrite Hent by assumption.
  apply bigsum_ext. intros j Hj.
  rewrite mget_transpose, vget_vsquare by (rewrite ?Hp1, ?Hp2; assumption).
  reflexivity.
Qed.

(** ** What [smear] leaves alone *)

Lemma same_setup_refl (m : Mixer.t) : same_setup m m.
Proof. unfold same_setup. cbv zeta. repeat split. Qed.

Lemma same_setup_trans (m1 m2 m3 : Mixer.t) :
  same_setup m1 m2 -> same_setup m2 m3 -> same_setup m1 m3.
Proof.
  unfold same_setup. cbv zeta. intros H12 H23.
  decompose [and] H12. decompose [and] H23. repeat split; congruence.
Qed.

Lemma same_setup_smear (m : Mixer.t) (n_c : vec) :
  same_setup m (fst (Mixer.smear m n_c)).
Proof.
  unfold Mixer.smear.
  destruct (negb (length n_c =? Mixer.cbins m)); [apply same_setup_refl|].
  destruct (Mixer.smear_step m n_c) as [[[M f] n]|e]; [|apply same_setup_refl].
  change (Mixer.cov (Mixer.set_Mij m M)) with (Mixer.cov m).
  unfold CovarianceMatrix.set_current_state.
  destruct (CovarianceMatrix._initialize_dcdP _ _ _ _ _) as [dP0|e];
    [|unfold same_setup; cbv zeta; simpl; repeat split].
  destruct (if 0 <? _ then _ else _) as [[dn dP]|e];
    unfold same_setup; cbv zeta; simpl; repeat split.
Qed.

Lemma same_setup_smear_all (priors : list vec) (m : Mixer.t) :
  same_setup m (smear_all m priors).
Proof.
  revert m. induction priors as [|p priors IH]; intros m; simpl.
  - apply same_setup_refl.
  - eapply same_setup_trans; [apply same_setup_smear|apply IH].
Qed.

(** X4.  No sequence of [smear] calls, accepted or rejected, changes any
    attribute fixed by the constructor: response, response error, mode,
    efficiencies and their inverse, data, data error, bin counts.  Only
    the cached mixing matrix, the two Jacobians and the counter move. *)
Theorem smear_keeps_constructor_inputs (m : Mixer.t) (priors : list vec) :
  same_setup m (smear_all m priors).
Proof.
  revert m. induction priors as [|p priors IH]; intros m.
  - apply same_setup_refl.
  - simpl. apply same_setup_trans with (m2 := fst (Mixer.smear m p)).
    + apply same_setup_smear.
    + apply IH.
Qed.

(** A mixer built from inputs of fitting shapes, after any calls. *)
Lemma reachable_facts
    (data data_err eff eff_err : vec) (R Rerr : matrix) (ct : string)
    (m0 : Mixer.t) (priors : list vec) :
  valid_inputs data data_err eff eff_err R Rerr = true ->
  Mixer.__init__ data data_err eff eff_err R Rerr ct = Ok m0 ->
  let m := smear_all m0 priors in
  mixer_inv m /\ cov_inv (Mixer.cov m) (nrows R) (ncols R) /\
  Mixer.ebins m = nrows R /\ Mixer.cbins m = ncols R /\
  Mixer.pec m = R /\ Mixer.NEobs m = data /\
  Mixer.cEff_inv m = safe_inverse eff /\
  CovarianceMatrix.NEobs (Mixer.cov m) = data /\
  CovarianceMatrix.NEobs_err (Mixer.cov m) = data_err /\
  CovarianceMatrix.pec_err (Mixer.cov m) = Rerr /\
  CovarianceMatrix.cEff (Mixer.cov m) = eff /\
  CovarianceMatrix.cEff_inv (Mixer.cov m) = safe_inverse eff /\
  CovarianceMatrix.pec_cov_type (Mixer.cov m) = lower ct.
Proof.
  intros Hv Hinit m.
  assert (Hct : existsb (String.eqb (lower ct)) ["multinomial"; "poisson"]%string
                = true).
  { unfold Mixer.__init__, CovarianceMatrix.__init__ in Hinit.
    destruct (negb (length data =? nrows R)); [discriminate|].
    destruct (existsb _ _); [reflexivity|discriminate]. }
  destruct (init_ok data data_err eff eff_err R Rerr ct Hv Hct) as [NCmc Hm0].
  destruct (init_inv data data_err eff eff_err R Rerr ct m0 Hv Hinit) as (Hinv & _).
  assert (Hm : mixer_inv m) by now apply mixer_inv_smear_all.
  pose proof (same_setup_smear_all priors m0) as Hsame.
  fold m in Hsame. unfold same_setup in Hsame. cbv zeta in Hsame.
  rewrite Hinit in Hm0. injection Hm0 as Hm0. rewrite Hm0 in Hsame.
  simpl in Hsame. decompose [and] Hsame.
  pose proof Hm as (_ & _ & _ & _ & Hcov).
  split; [exact Hm|].
  split; [rewrite <- H3, <- H2; exact Hcov|].
  repeat split; assumption.
Qed.

(** X5.  After any calls to [smear] on a mixer built from inputs of
    fitting shapes, [getVc0] returns the cause-by-cause matrix with
    entries [Vc0[a,b] = sum over effect bins e of
    dcdn[e,a] * data_err[e]^2 * dcdn[e,b]]. *)
Theorem getVc0_is_weighted_gram
    (data data_err eff eff_err : vec) (R Rerr : matrix) (ct : string)
    (m0 : Mixer.t) (priors : list vec) :
  valid_inputs data data_err eff eff_err R Rerr = true ->
  Mixer.__init__ data data_err eff eff_err R Rerr ct = Ok m0 ->
  let m := smear_all m0 priors in
  let dn := CovarianceMatrix.dcdn (Mixer.cov m) in
  exists V,
    CovarianceMatrix.getVc0 (Mixer.cov m) = Ok V /\
    nrows V = ncols R /\ ncols V = ncols R /\
    forall a b, a < ncols R -> b < ncols R ->
      mget V a b
      = bigsum (nrows R) (fun e =>
          mget dn e a * (vget data_err e * vget data_err e) * mget dn e b)%Qc.
Proof.
  intros Hv Hinit m dn.
  destruct (reachable_facts data data_err eff eff_err R Rerr ct m0 priors Hv Hinit)
    as (_ & Hcov & _ & _ & _ & _ & _ & _ & Herr & _).
  fold m in Hcov, Herr.
  destruct (getVc0_entries _ _ _ Hcov) as [V (HV & Hr & Hc & Hent)].
  exists V. rewrite Herr in Hent. repeat split; assumption.
Qed.

Lemma getVc0_is_weighted_gram_witness :
  exists m0,
    scenario_mixer "multinomial" = Ok m0 /\
    exists V,
      CovarianceMatrix.getVc0 (Mixer.cov (smear_all m0 [scenario_prior])) = Ok V /\
      nrows V = 2 /\ ncols V = 2.
Proof.
  destruct (init_ok scenario_data scenario_data_err scenario_eff scenario_eff_err
              scenario_R scenario_R_err "multinomial" eq_refl eq_refl) as [v Hm].
  eexists. split; [exact Hm|].
  destruct (getVc0_is_weighted_gram
              scenario_data scenario_data_err scenario_eff scenario_eff_err
              scenario_R scenario_R_err "multinomial" _ [scenario_prior]
              eq_refl Hm) as [V (HV & Hr & Hc & _)].
  exists V. repeat split; assumption.
Defined.

Lemma madd_entries (V0 V1 : matrix) (n : nat) :
  nrows V0 = n -> ncols V0 = n -> nrows V1 = n -> ncols V1 = n ->
  exists V, madd V0 V1 = Ok V /\ nrows V = n /\ ncols V = n /\
            forall i j, i < n -> j < n ->
              mget V i j = (mget V0 i j + mget V1 i j)%Qc.
Proof.
  intros H1 H2 H3 H4. unfold madd.
  rewrite (broadcast2_same Qcplus V0 V1 n n) by assumption.
  eexists. split; [reflexivity|].
  rewrite nrows_mtab, ncols_mtab. repeat split.
  intros i j Hi Hj. now rewrite mget_mtab.
Qed.

Lemma weighted_square_nonneg (x w : Qc) : (Q2Qc 0 <= x * (w * w) * x)%Qc.
Proof.
  replace (x * (w * w) * x)%Qc with ((x * w) * (x * w))%Qc by ring.
  apply Qc_square_nonneg.
Qed.

(** X6.  In poisson mode, after any calls to [smear] on a mixer built
    from inputs of fitting shapes, the diagonals of [getVc0], [getVc1]
    and [get_cov] are non-negative: the variances whose square roots
    [get_stat_err] and [get_MC_err] take. *)
Theorem poisson_variances_nonnegative
    (data data_err eff eff_err : vec) (R Rerr : matrix) (ct : string)
    (m0 : Mixer.t) (priors : list vec) :
  valid_inputs data data_err eff eff_err R Rerr = true ->
  lower ct = "poisson"%string ->
  Mixer.__init__ data data_err eff eff_err R Rerr ct = Ok m0 ->
  let m := smear_all m0 priors in
  exists Vc0 Vc1 Vc,
    CovarianceMatrix.getVc0 (Mixer.cov m) = Ok Vc0 /\
    CovarianceMatrix.getVc1 (Mixer.cov m) = Ok Vc1 /\
    Mixer.get_cov m = Ok Vc /\
    forall a, a < ncols R ->
      (Q2Qc 0 <= mget Vc0 a a)%Qc /\ (Q2Qc 0 <= mget Vc1 a a)%Qc /\
      (Q2Qc 0 <= mget Vc a a)%Qc.
Proof.
  intros Hv Hct Hinit m.
  destruct (reachable_facts data data_err eff eff_err R Rerr ct m0 priors Hv Hinit)
    as (_ & Hcov & _ & _ & _ & _ & _ & _ & _ & _ & _ & _ & Hty).
  fold m in Hcov, Hty. rewrite Hct in Hty.
  destruct (getVc0_entries _ _ _ Hcov) as [V0 (H0 & Hr0 & Hc0 & He0)].
  destruct (getVc1_poisson_entries _ _ _ Hcov Hty) as [V1 (H1 & Hr1 & Hc1 & He1)].
  destruct (madd_entries V0 V1 _ Hr0 Hc0 Hr1 Hc1) as [V (HV & _ & _ & HeV)].
  exists V0, V1, V. split; [exact H0|]. split; [exact H1|]. split.
  { unfold Mixer.get_cov, CovarianceMatrix.get_cov. now rewrite H0, H1. }
  intros a Ha.
  assert (N0 : (Q2Qc 0 <= mget V0 a a)%Qc).
  { rewrite He0 by assumption. apply bigsum_nonneg. intros e _.
    apply weighted_square_nonneg. }
  assert (N1 : (Q2Qc 0 <= mget V1 a a)%Qc).
  { rewrite He1 by assumption. apply bigsum_nonneg. intros j _.
    apply weighted_square_nonneg. }
  repeat split; try assumption.
  rewrite HeV by assumption.
  replace (Q2Qc 0) with (Q2Qc 0 + Q2Qc 0)%Qc by ring.
  now apply Qcplus_le_compat.
Qed.

Lemma poisson_variances_nonnegative_witness :
  exists m0,
    scenario_mixer "poisson" = Ok m0 /\
    exists Vc,
      Mixer.get_cov (smear_all m0 [scenario_prior]) = Ok Vc /\
      (Q2Qc 0 <= mget Vc 0 0)%Qc /\ (Q2Qc 0 <= mget Vc 1 1)%Qc.
Proof.
  destruct (init_ok scenario_data scenario_data_err scenario_eff scenario_eff_err
              scenario_R scenario_R_err "poisson" eq_refl eq_refl) as [v Hm].
  eexists. split; [exact Hm|].
  destruct (poisson_variances_nonnegative
              scenario_data scenario_data_err scenario_eff scenario_eff_err
              scenario_R scenario_R_err "poisson" _ [scenario_prior]
              eq_refl eq_refl Hm) as [V0 [V1 [V (_ & _ & HV & Hnn)]]].
  exists V. split; [exact HV|].
  split; [apply (Hnn 0)|apply (Hnn 1)]; unfold scenario_R; simpl; lia.
Defined.

(** X7.  Before any call to [smear] the persisted Jacobians are zero, so
    on a freshly built mixer [getVc0] returns the zero matrix and, in
    poisson mode, so does [get_cov]. *)
Theorem fresh_mixer_has_zero_covariance
    (data data_err eff eff_err : vec) (R Rerr : matrix) (ct : string)
    (m0 : Mixer.t) :
  valid_inputs data data_err eff eff_err R Rerr = true ->
  Mixer.__init__ data data_err eff eff_err R Rerr ct = Ok m0 ->
  (exists V0,
     CovarianceMatrix.getVc0 (Mixer.cov m0) = Ok V0 /\
     nrows V0 = ncols R /\ ncols V0 = ncols R /\
     forall a b, a < ncols R -> b < ncols R -> mget V0 a b = Q2Qc 0) /\
  (lower ct = "poisson"%string ->
   exists V,
     Mixer.get_cov m0 = Ok V /\ nrows V = ncols R /\ ncols V = ncols R /\
     forall a b, a < ncols R -> b < ncols R -> mget V a b = Q2Qc 0).
Proof.
  intros Hv Hinit.
  destruct (reachable_facts data data_err eff eff_err R Rerr ct m0 [] Hv Hinit)
    as (_ & Hcov & _ & _ & _ & _ & _ & _ & _ & _ & _ & _ & Hty).
  simpl in Hcov, Hty.
  assert (Hct : existsb (String.eqb (lower ct)) ["multinomial"; "poisson"]%string
                = true).
  { unfold Mixer.__init__, CovarianceMatrix.__init__ in Hinit.
    destruct (negb (length data =? nrows R)); [discriminate|].
    destruct (existsb _ _); [reflexivity|discriminate]. }
  destruct (init_ok data data_err eff eff_err R Rerr ct Hv Hct) as [NCmc Hm0].
  rewrite Hinit in Hm0. injection Hm0 as Hm0.
  assert (Hdn : forall e a, e < nrows R -> a < ncols R ->
            mget (CovarianceMatrix.dcdn (Mixer.cov m0)) e a = Q2Qc 0).
  { intros e a He Ha. rewrite Hm0. simpl. unfold zeros. now rewrite mget_mtab. }
  assert (HdP : forall a j, a < ncols R -> j < ncols R * nrows R ->
            mget (CovarianceMatrix.dcdP (Mixer.cov m0)) a j = Q2Qc 0).
  { intros a j Ha Hj. rewrite Hm0. simpl. unfold zeros. now rewrite mget_mtab. }
  destruct (getVc0_entries _ _ _ Hcov) as [V0 (H0 & Hr0 & Hc0 & He0)].
  assert (Z0 : forall a b, a < ncols R -> b < ncols R -> mget V0 a b = Q2Qc 0).
  { intros a b Ha Hb. rewrite He0 by assumption. apply bigsum_zero.
    intros e He. rewrite !Hdn by assumption. ring. }
  split.
  - exists V0. repeat split; assumption.
  - intros Hp. rewrite Hp in Hty.
    destruct (getVc1_poisson_entries _ _ _ Hcov Hty) as [V1 (H1 & Hr1 & Hc1 & He1)].
    destruct (madd_entries V0 V1 _ Hr0 Hc0 Hr1 Hc1) as [V (HV & HrV & HcV & HeV)].
    exists V. split.
    { unfold Mixer.get_cov, CovarianceMatrix.get_cov. now rewrite H0, H1. }
    repeat split; try assumption.
    intros a b Ha Hb. rewrite HeV, Z0, He1 by assumption.
    rewrite bigsum_zero; [ring|].
    intros j Hj. rewrite !HdP by assumption. ring.
Qed.

Lemma fresh_mixer_has_zero_covariance_witness :
  exists m0,
    scenario_mixer "poisson" = Ok m0 /\
    exists V, Mixer.get_cov m0 = Ok V /\ mget V 0 1 = Q2Qc 0.
Proof.
  destruct (init_ok scenario_data scenario_data_err scenario_eff scenario_eff_err
              scenario_R scenario_R_err "poisson" eq_refl eq_refl) as [v Hm].
  eexists. split; [exact Hm|].
  destruct (fresh_mixer_has_zero_covariance
              scenario_data scenario_data_err scenario_eff scenario_eff_err
              scenario_R scenario_R_err "poisson" _ eq_refl Hm) as [_ Hp].
  destruct (Hp eq_refl) as [V (HV & _ & _ & Hz)].
  exists V. split; [exact HV|]. apply Hz; unfold scenario_R; simpl; lia.
Defined.

(** X8.  [poisson_covariance] returns the diagonal matrix of the squared
    response errors in row-major order: for a response error of [E] rows
    and [C] columns the entry at row [e * C + c], column [e' * C + c'] is
    [pec_err[e,c]^2] when [(e, c) = (e', c')] and 0 otherwise.  The
    arguments [ebins] and [cbins] are not read. *)
Theorem poisson_covariance_entries (ebins cbins : nat) (pec_err : matrix)
    (e c e' c' : nat) :
  wf_matrix pec_err = true ->
  e < nrows pec_err -> c < ncols pec_err ->
  e' < nrows pec_err -> c' < ncols pec_err ->
  let C := ncols pec_err in
  nrows (poisson_covariance ebins cbins pec_err) = nrows pec_err * C /\
  ncols (poisson_covariance ebins cbins pec_err) = nrows pec_err * C /\
  mget (poisson_covariance ebins cbins pec_err) (e * C + c) (e' * C + c')
  = if (e =? e') && (c =? c')
    then (mget pec_err e c * mget pec_err e c)%Qc
    else Q2Qc 0.
Proof.
  intros Hwf He Hc He' Hc' C. unfold poisson_covariance, spdiags.
  rewrite nrows_mtab, ncols_mtab, length_vsquare, length_ravel by assumption.
  fold C. repeat split.
  assert (Hi : e * C + c < nrows pec_err * C)
    by (rewrite (Nat.mul_comm (nrows pec_err)); apply block_index_lt; assumption).
  assert (Hj : e' * C + c' < nrows pec_err * C)
    by (rewrite (Nat.mul_comm (nrows pec_err)); apply block_index_lt; assumption).
  rewrite mget_mtab by assumption.
  destruct (Nat.eqb_spec (e * C + c) (e' * C + c')) as [Heq|Hne].
  - apply block_index_inj in Heq; try assumption. destruct Heq as [<- <-].
    rewrite !Nat.eqb_refl. simpl.
    unfold C. now rewrite vget_vsquare, vget_ravel.
  - destruct (Nat.eqb_spec e e') as [<-|_]; [|reflexivity].
    destruct (Nat.eqb_spec c c') as [<-|_]; [contradiction|reflexivity].
Qed.

Lemma poisson_covariance_entries_witness :
  mget (poisson_covariance 2 2 scenario_R_err) (1 * 2 + 0) (1 * 2 + 0)
  = (mget scenario_R_err 1 0 * mget scenario_R_err 1 0)%Qc /\
  mget (poisson_covariance 2 2 scenario_R_err) (1 * 2 + 0) (0 * 2 + 1) = Q2Qc 0.
Proof.
  split.
  - apply (poisson_covariance_entries 2 2 scenario_R_err 1 0 1 0);
      (reflexivity || (unfold nrows, scenario_R_err; simpl; lia)).
  - apply (poisson_covariance_entries 2 2 scenario_R_err 1 0 0 1);
      (reflexivity || (unfold nrows, scenario_R_err; simpl; lia)).
Defined.

(** ** The counter and the calls *)







(** ** The posterior and the mixing matrix *)

Lemma vget_posterior (d : vec) (M : matrix) (c : nat) :
  c < ncols M ->
  vget (posterior d M) c = bigsum (nrows M) (fun e => vget d e * mget M e c)%Qc.
Proof. intros Hc. unfold posterior. now rewrite vget_vtab. Qed.

Lemma mget_mixing (R : matrix) (eff_inv prior : vec) (e c : nat) :
  e < nrows R -> c < ncols R ->
  mget (mixing R eff_inv prior) e c
  = (mget R e c * (vget prior c * vget eff_inv c)
     * inv_or_zero (vget (predicted R prior) e))%Qc.
Proof. intros He Hc. unfold mixing. now rewrite mget_mtab. Qed.

Lemma vget_predicted (R : matrix) (prior : vec) (e : nat) :
  e < nrows R ->
  vget (predicted R prior) e
  = bigsum (ncols R) (fun c => mget R e c * vget prior c)%Qc.
Proof. intros He. unfold predicted. now rewrite vget_vtab. Qed.

Lemma inv_or_zero_zero : inv_or_zero (Q2Qc 0) = Q2Qc 0.
Proof. reflexivity. Qed.

Lemma inv_or_zero_mult (a x : Qc) :
  inv_or_zero (a * x) = (inv_or_zero a * inv_or_zero x)%Qc.
Proof.
  unfold inv_or_zero.
  destruct (Qc_eq_bool_spec a (Q2Qc 0)) as [->|Ha].
  - replace (Q2Qc 0 * x)%Qc with (Q2Qc 0) by ring.
    destruct (Qc_eq_bool_spec (Q2Qc 0) (Q2Qc 0)); [ring|contradiction].
  - destruct (Qc_eq_bool_spec x (Q2Qc 0)) as [->|Hx].
    + replace (a * Q2Qc 0)%Qc with (Q2Qc 0) by ring.
      destruct (Qc_eq_bool_spec (Q2Qc 0) (Q2Qc 0)); [ring|contradiction].
    + destruct (Qc_eq_bool_spec (a * x)%Qc (Q2Qc 0)) as [Hax|_].
      * exfalso. apply Qcmult_integral in Hax. tauto.
      * now field.
Qed.

(** The posterior returned by the first accepted call. *)
Lemma smear_posterior
    (data data_err eff eff_err : vec) (R Rerr : matrix) (ct : string)
    (m0 : Mixer.t) (priors : list vec) (p : vec) :
  valid_inputs data data_err eff eff_err R Rerr = true ->
  Mixer.__init__ data data_err eff eff_err R Rerr ct = Ok m0 ->
  length p = ncols R ->
  let m := smear_all m0 priors in
  CovarianceMatrix.counter (Mixer.cov m) = 0 ->
  snd (Mixer.smear m p) = Ok (posterior data (mixing R (safe_inverse eff) p)).
Proof.
  intros Hv Hinit Hp m Hcnt.
  destruct (reachable_facts data data_err eff eff_err R Rerr ct m0 priors Hv Hinit)
    as (Hm & _ & _ & HC & HR & Hd & Hei & _).
  fold m in Hm, HC, HR, Hd, Hei. rewrite <- HC in Hp.
  destruct (smear_ok m p Hm Hp Hcnt) as [dP (Hs & _)].
  rewrite Hs, HR, Hd, Hei. reflexivity.
Qed.

(** The mixing matrix cached by a call with a prior of the accepted
    length, at any point of the mixer's life. *)
Lemma smear_mixing
    (data data_err eff eff_err : vec) (R Rerr : matrix) (ct : string)
    (m0 : Mixer.t) (priors : list vec) (p : vec) :
  valid_inputs data data_err eff eff_err R Rerr = true ->
  Mixer.__init__ data data_err eff eff_err R Rerr ct = Ok m0 ->
  length p = ncols R ->
  Mixer.Mij (fst (Mixer.smear (smear_all m0 priors) p))
  = mixing R (safe_inverse eff) p.
Proof.
  intros Hv Hinit Hp.
  destruct (reachable_facts data data_err eff eff_err R Rerr ct m0 priors Hv Hinit)
    as (Hm & _ & _ & HC & HR & Hd & Hei & _).
  rewrite <- HC in Hp.
  rewrite (smear_caches_mixing _ p Hm Hp). now rewrite HR, Hei.
Qed.

(** X11.  On a mixer whose counter is still 0 (built from inputs of
    fitting shapes, with no accepted call so far), [smear] returns a
    posterior in which a cause bin whose prior entry is 0, or whose
    efficiency is 0, has the entry 0: the update never populates it. *)
Theorem empty_cause_bin_stays_empty
    (data data_err eff eff_err : vec) (R Rerr : matrix) (ct : string)
    (m0 : Mixer.t) (priors : list vec) (p : vec) (c : nat) :
  valid_inputs data data_err eff eff_err R Rerr = true ->
  Mixer.__init__ data data_err eff eff_err R Rerr ct = Ok m0 ->
  length p = ncols R -> c < ncols R ->
  vget p c = Q2Qc 0 \/ vget eff c = Q2Qc 0 ->
  CovarianceMatrix.counter (Mixer.cov (smear_all m0 priors)) = 0 ->
  exists n,
    snd (Mixer.smear (smear_all m0 priors) p) = Ok n /\ vget n c = Q2Qc 0.
Proof.
  intros Hv Hinit Hp Hc Hzero Hcnt.
  pose proof (smear_posterior data data_err eff eff_err R Rerr ct m0 priors p
                Hv Hinit Hp Hcnt) as Hs.
  eexists. split; [exact Hs|].
  rewrite vget_posterior by (rewrite ncols_mixing; assumption).
  apply bigsum_zero. intros e He. rewrite nrows_mixing in He.
  rewrite mget_mixing by assumption.
  rewrite vget_safe_inverse.
  destruct Hzero as [-> | ->]; [|rewrite inv_or_zero_zero]; ring.
Qed.

Lemma empty_cause_bin_stays_empty_witness :
  exists m0,
    scenario_mixer "poisson" = Ok m0 /\
    exists n,
      snd (Mixer.smear (smear_all m0 []) [Qc_of_Z 0; Qc_of_Z 100]) = Ok n /\
      vget n 0 = Q2Qc 0.
Proof.
  destruct (init_ok scenario_data scenario_data_err scenario_eff scenario_eff_err
              scenario_R scenario_R_err "poisson" eq_refl eq_refl) as [v Hm].
  eexists. split; [exact Hm|].
  apply (empty_cause_bin_stays_empty
           scenario_data scenario_data_err scenario_eff scenario_eff_err
           scenario_R scenario_R_err "poisson" _ [] [Qc_of_Z 0; Qc_of_Z 100] 0
           eq_refl Hm eq_refl).
  - unfold scenario_R. simpl. lia.
  - left. reflexivity.
  - reflexivity.
Defined.

Lemma predicted_vscale (R : matrix) (a : Qc) (p : vec) (e : nat) :
  e < nrows R ->
  vget (predicted R (vscale a p)) e = (a * vget (predicted R p) e)%Qc.
Proof.
  intros He. rewrite !vget_predicted by assumption.
  rewrite <- bigsum_scale_l. apply bigsum_ext. intros c _.
  rewrite vget_vscale. ring.
Qed.

Lemma mixing_vscale (R : matrix) (eff_inv : vec) (a : Qc) (p : vec) :
  a <> Q2Qc 0 -> mixing R eff_inv (vscale a p) = mixing R eff_inv p.
Proof.
  intros Ha. unfold mixing. apply mtab_ext. intros e c He Hc.
  rewrite predicted_vscale, inv_or_zero_mult, vget_vscale by assumption.
  replace (mget R e c * (a * vget p c * vget eff_inv c)
           * (inv_or_zero a * inv_or_zero (vget (predicted R p) e)))%Qc
    with ((a * inv_or_zero a)
          * (mget R e c * (vget p c * vget eff_inv c)
             * inv_or_zero (vget (predicted R p) e)))%Qc by ring.
  rewrite inv_or_zero_cancel by assumption. ring.
Qed.

(** X12.  The posterior and the mixing matrix do not depend on the scale
    of the prior: [smear(a * prior)] returns what [smear(prior)] returns
    and caches the same mixing matrix, for every non-zero [a]. *)
Theorem smear_ignores_prior_scale
    (data data_err eff eff_err : vec) (R Rerr : matrix) (ct : string)
    (m0 : Mixer.t) (priors : list vec) (p : vec) (a : Qc) :
  valid_inputs data data_err eff eff_err R Rerr = true ->
  Mixer.__init__ data data_err eff eff_err R Rerr ct = Ok m0 ->
  length p = ncols R -> a <> Q2Qc 0 ->
  let m := smear_all m0 priors in
  snd (Mixer.smear m (vscale a p)) = snd (Mixer.smear m p) /\
  Mixer.Mij (fst (Mixer.smear m (vscale a p)))
  = Mixer.Mij (fst (Mixer.smear m p)).
Proof.
  intros Hv Hinit Hp Ha m.
  assert (Hp' : length (vscale a p) = ncols R)
    by (unfold vscale; now rewrite length_map).
  pose proof (smear_mixing data data_err eff eff_err R Rerr ct m0 priors p
                Hv Hinit Hp) as HM.
  pose proof (smear_mixing data data_err eff eff_err R Rerr ct m0 priors
                (vscale a p) Hv Hinit Hp') as HM'.
  fold m in HM, HM'.
  rewrite HM, HM', mixing_vscale by assumption. split; [|reflexivity].
  destruct (Nat.eq_dec (CovarianceMatrix.counter (Mixer.cov m)) 0) as [H0|H0].
  - unfold m.
    rewrite (smear_posterior data data_err eff eff_err R Rerr ct m0 priors p
               Hv Hinit Hp H0).
    rewrite (smear_posterior data data_err eff eff_err R Rerr ct m0 priors
               (vscale a p) Hv Hinit Hp' H0).
    now rewrite mixing_vscale.
  - destruct (reachable_facts data data_err eff eff_err R Rerr ct m0 priors
                Hv Hinit) as (Hm & _ & _ & HC & _).
    fold m in Hm, HC.
    rewrite !smear_raises by (try assumption; try lia; congruence).
    reflexivity.
Qed.

Lemma smear_ignores_prior_scale_witness :
  exists m0,
    scenario_mixer "poisson" = Ok m0 /\
    snd (Mixer.smear (smear_all m0 []) (vscale (Qc_of_Z 3) scenario_prior))
    = snd (Mixer.smear (smear_all m0 []) scenario_prior).
Proof.
  destruct (init_ok scenario_data scenario_data_err scenario_eff scenario_eff_err
              scenario_R scenario_R_err "poisson" eq_refl eq_refl) as [v Hm].
  eexists. split; [exact Hm|].
  apply (smear_ignores_prior_scale
           scenario_data scenario_data_err scenario_eff scenario_eff_err
           scenario_R scenario_R_err "poisson" _ [] scenario_prior (Qc_of_Z 3)
           eq_refl Hm eq_refl).
  intros H. apply (f_equal this) in H. vm_compute in H. discriminate H.
Defined.

(** X13.  A prior that reproduces the data is a fixed point of the first
    accepted call: if [R · prior = data] with no empty effect bin, and
    every efficiency is the non-zero sum of its column of the response,
    then on a mixer whose counter is still 0 [smear(prior)] returns
    [prior]. *)
Theorem exact_prior_is_fixed_point
    (data data_err eff eff_err : vec) (R Rerr : matrix) (ct : string)
    (m0 : Mixer.t) (priors : list vec) (p : vec) :
  valid_inputs data data_err eff eff_err R Rerr = true ->
  Mixer.__init__ data data_err eff eff_err R Rerr ct = Ok m0 ->
  length p = ncols R ->
  (forall e, e < nrows R ->
     vget (predicted R p) e = vget data e /\ vget data e <> Q2Qc 0) ->
  (forall c, c < ncols R ->
     vget eff c = bigsum (nrows R) (fun e => mget R e c) /\
     vget eff c <> Q2Qc 0) ->
  CovarianceMatrix.counter (Mixer.cov (smear_all m0 priors)) = 0 ->
  exists n,
    snd (Mixer.smear (smear_all m0 priors) p) = Ok n /\
    length n = length p /\
    forall c, c < ncols R -> vget n c = vget p c.
Proof.
  intros Hv Hinit Hp Hdata Heff Hcnt.
  pose proof (smear_posterior data data_err eff eff_err R Rerr ct m0 priors p
                Hv Hinit Hp Hcnt) as Hs.
  eexists. split; [exact Hs|]. split.
  { now rewrite length_posterior, ncols_mixing. }
  intros c Hc.
  rewrite vget_posterior by (rewrite ncols_mixing; assumption).
  rewrite nrows_mixing.
  rewrite (bigsum_ext (nrows R) _
    (fun e => (vget p c * inv_or_zero (vget eff c)) * mget R e c)%Qc).
  - rewrite bigsum_scale_l.
    destruct (Heff c Hc) as [Hsum Hne]. rewrite <- Hsum.
    rewrite <- Qcmult_assoc, (Qcmult_comm (inv_or_zero _)).
    rewrite inv_or_zero_cancel by assumption. ring.
  - intros e He. rewrite mget_mixing, vget_safe_inverse by assumption.
    destruct (Hdata e He) as [Hf Hne]. rewrite Hf.
    replace (vget data e
             * (mget R e c * (vget p c * inv_or_zero (vget eff c))
                * inv_or_zero (vget data e)))%Qc
      with ((vget data e * inv_or_zero (vget data e))
            * (vget p c * inv_or_zero (vget eff c) * mget R e c))%Qc by ring.
    rewrite inv_or_zero_cancel by assumption. ring.
Qed.

Lemma exact_prior_is_fixed_point_witness :
  exists m0,
    Mixer.__init__ scenario_prior scenario_data_err scenario_eff scenario_eff_err
                   scenario_R scenario_R_err "poisson" = Ok m0 /\
    exists n,
      snd (Mixer.smear (smear_all m0 []) scenario_prior) = Ok n /\
      vget n 0 = vget scenario_prior 0 /\ vget n 1 = vget scenario_prior 1.
Proof.
  destruct (init_ok scenario_prior scenario_data_err scenario_eff scenario_eff_err
              scenario_R scenario_R_err "poisson" eq_refl eq_refl) as [v Hm].
  eexists. split; [exact Hm|].
  destruct (exact_prior_is_fixed_point
              scenario_prior scenario_data_err scenario_eff scenario_eff_err
              scenario_R scenario_R_err "poisson" _ [] scenario_prior
              eq_refl Hm eq_refl) as [n (Hn & _ & Hfix)].
  - intros e He. unfold nrows, scenario_R in He. simpl in He.
    destruct e as [|[|e]]; [| |lia];
      (split; [apply Qc_is_canon; vm_compute; reflexivity
              |intros H; apply (f_equal this) in H; vm_compute in H;
               discriminate H]).
  - intros c Hc. unfold scenario_R in Hc. simpl in Hc.
    destruct c as [|[|c]]; [| |lia];
      (split; [apply Qc_is_canon; vm_compute; reflexivity
              |intros H; apply (f_equal this) in H; vm_compute in H;
               discriminate H]).
  - reflexivity.
  - exists n. split; [exact Hn|].
    split; apply Hfix; unfold scenario_R; simpl; lia.
Defined.

Lemma nonneg_vec_vget (v : vec) (i : nat) :
  nonneg_vec v = true -> (Q2Qc 0 <= vget v i)%Qc.
Proof.
  intros H. unfold nonneg_vec in H. rewrite forallb_forall in H.
  destruct (Nat.lt_ge_cases i (length v)) as [Hi|Hi].
  - unfold Qcle. simpl. apply Qle_bool_iff. apply H. unfold vget. now apply nth_In.
  - unfold vget. rewrite nth_overflow by assumption. apply Qcle_refl.
Qed.

Lemma nonneg_matrix_mget (m : matrix) (i j : nat) :
  nonneg_matrix m = true -> (Q2Qc 0 <= mget m i j)%Qc.
Proof.
  intros H. unfold nonneg_matrix in H. rewrite forallb_forall in H.
  unfold mget.
  destruct (Nat.lt_ge_cases i (length (rows m))) as [Hi|Hi].
  - apply nonneg_vec_vget. apply H. now apply nth_In.
  - rewrite nth_overflow by assumption. unfold vget. destruct j; apply Qcle_refl.
Qed.

Lemma inv_or_zero_nonneg (a : Qc) : (Q2Qc 0 <= a)%Qc -> (Q2Qc 0 <= inv_or_zero a)%Qc.
Proof.
  intros Ha. unfold inv_or_zero.
  destruct (Qc_eq_bool_spec a (Q2Qc 0)) as [_|Hne]; [apply Qcle_refl|].
  unfold Qcle, Qcdiv, Qcmult, Qcinv in *. cbn [this Q2Qc] in *.
  rewrite Qred_correct in Ha. rewrite !Qred_correct. rewrite Qmult_1_l.
  now apply Qinv_le_0_compat.
Qed.

(** X14.  With a response, data, efficiencies and prior that have no
    negative entry, the posterior that [smear] returns on a mixer whose
    counter is still 0 has no negative entry. *)
Theorem posterior_is_nonnegative
    (data data_err eff eff_err : vec) (R Rerr : matrix) (ct : string)
    (m0 : Mixer.t) (priors : list vec) (p : vec) :
  valid_inputs data data_err eff eff_err R Rerr = true ->
  Mixer.__init__ data data_err eff eff_err R Rerr ct = Ok m0 ->
  length p = ncols R ->
  nonneg_matrix R = true -> nonneg_vec data = true ->
  nonneg_vec eff = true -> nonneg_vec p = true ->
  CovarianceMatrix.counter (Mixer.cov (smear_all m0 priors)) = 0 ->
  exists n,
    snd (Mixer.smear (smear_all m0 priors) p) = Ok n /\
    forall c, (Q2Qc 0 <= vget n c)%Qc.
Proof.
  intros Hv Hinit Hp HR Hd He Hpn Hcnt.
  pose proof (smear_posterior data data_err eff eff_err R Rerr ct m0 priors p
                Hv Hinit Hp Hcnt) as Hs.
  eexists. split; [exact Hs|]. intros c.
  destruct (Nat.lt_ge_cases c (ncols R)) as [Hc|Hc].
  - rewrite vget_posterior by (rewrite ncols_mixing; assumption).
    apply bigsum_nonneg. intros e Hlt. rewrite nrows_mixing in Hlt.
    rewrite mget_mixing, vget_safe_inverse by assumption.
    apply Qc_zero_mult_nonneg; [now apply nonneg_vec_vget|].
    apply Qc_zero_mult_nonneg.
    + apply Qc_zero_mult_nonneg; [now apply nonneg_matrix_mget|].
      apply Qc_zero_mult_nonneg; [now apply nonneg_vec_vget|].
      apply inv_or_zero_nonneg. now apply nonneg_vec_vget.
    + apply inv_or_zero_nonneg. rewrite vget_predicted by assumption.
      apply bigsum_nonneg. intros k _.
      apply Qc_zero_mult_nonneg;
        [now apply nonneg_matrix_mget|now apply nonneg_vec_vget].
  - unfold vget. rewrite nth_overflow; [apply Qcle_refl|].
    now rewrite length_posterior, ncols_mixing.
Qed.

Lemma posterior_is_nonnegative_witness :
  exists m0,
    scenario_mixer "poisson" = Ok m0 /\
    exists n,
      snd (Mixer.smear (smear_all m0 []) scenario_prior) = Ok n /\
      forall c, (Q2Qc 0 <= vget n c)%Qc.
Proof.
  destruct (init_ok scenario_data scenario_data_err scenario_eff scenario_eff_err
              scenario_R scenario_R_err "poisson" eq_refl eq_refl) as [v Hm].
  eexists. split; [exact Hm|].
  apply (posterior_is_nonnegative
           scenario_data scenario_data_err scenario_eff scenario_eff_err
           scenario_R scenario_R_err "poisson" _ [] scenario_prior
           eq_refl Hm eq_refl); vm_compute; reflexivity.
Defined.

(** X15.  For an effect bin with a non-zero predicted count, and
    efficiencies that are all non-zero, the row of the mixing matrix
    weighted by the efficiencies sums to 1:
    [sum over causes c of eff[c] * M[e,c] = 1]. *)
Theorem mixing_row_is_normalised
    (data data_err eff eff_err : vec) (R Rerr : matrix) (ct : string)
    (m0 : Mixer.t) (priors : list vec) (p : vec) (e : nat) :
  valid_inputs data data_err eff eff_err R Rerr = true ->
  Mixer.__init__ data data_err eff eff_err R Rerr ct = Ok m0 ->
  length p = ncols R -> e < nrows R ->
  vget (predicted R p) e <> Q2Qc 0 ->
  (forall c, c < ncols R -> vget eff c <> Q2Qc 0) ->
  let M := Mixer.Mij (fst (Mixer.smear (smear_all m0 priors) p)) in
  bigsum (ncols R) (fun c => vget eff c * mget M e c)%Qc = Q2Qc 1.
Proof.
  intros Hv Hinit Hp He Hf Heff M.
  pose proof (smear_mixing data data_err eff eff_err R Rerr ct m0 priors p
                Hv Hinit Hp) as HM.
  unfold M. rewrite HM.
  rewrite (bigsum_ext (ncols R) _
    (fun c => inv_or_zero (vget (predicted R p) e)
              * (mget R e c * vget p c))%Qc).
  - rewrite bigsum_scale_l, <- vget_predicted by assumption.
    rewrite Qcmult_comm. now apply inv_or_zero_cancel.
  - intros c Hc. rewrite mget_mixing, vget_safe_inverse by assumption.
    replace (vget eff c
             * (mget R e c * (vget p c * inv_or_zero (vget eff c))
                * inv_or_zero (vget (predicted R p) e)))%Qc
      with ((vget eff c * inv_or_zero (vget eff c))
            * (inv_or_zero (vget (predicted R p) e)
               * (mget R e c * vget p c)))%Qc by ring.
    rewrite inv_or_zero_cancel by now apply Heff. ring.
Qed.

Lemma mixing_row_is_normalised_witness :
  exists m0,
    scenario_mixer "poisson" = Ok m0 /\
    bigsum 2 (fun c =>
      vget scenario_eff c
      * mget (Mixer.Mij (fst (Mixer.smear (smear_all m0 []) scenario_prior))) 0 c)%Qc
    = Q2Qc 1.
Proof.
  destruct (init_ok scenario_data scenario_data_err scenario_eff scenario_eff_err
              scenario_R scenario_R_err "poisson" eq_refl eq_refl) as [v Hm].
  eexists. split; [exact Hm|].
  apply (mixing_row_is_normalised
           scenario_data scenario_data_err scenario_eff scenario_eff_err
           scenario_R scenario_R_err "poisson" _ [] scenario_prior 0
           eq_refl Hm eq_refl).
  - unfold nrows, scenario_R. simpl. lia.
  - intros H. apply (f_equal this) in H. vm_compute in H. discriminate H.
  - intros c Hc H. unfold scenario_R in Hc. simpl in Hc.
    apply (f_equal this) in H.
    destruct c as [|[|c]]; [vm_compute in H; discriminate H
                           |vm_compute in H; discriminate H|lia].
Defined.

(** ** multinomial_covariance on a vector that does not fit *)

(** X16.  An inverse-count vector whose length is neither the number of
    columns of the response nor 1, against a response with more than one
    column, makes [multinomial_covariance] fail with the array library's
    shape error at its first product. *)
Theorem multinomial_covariance_rejects_misfit
    (ebins cbins : nat) (nc_inv : vec) (pec : matrix) :
  length nc_inv <> ncols pec -> length nc_inv <> 1 -> ncols pec <> 1 ->
  multinomial_covariance ebins cbins nc_inv pec = Err ShapeError.
Proof.
  intros Hne H1 H2. unfold multinomial_covariance. cbv zeta.
  unfold mmul, broadcast2.
  change (nrows (as_row nc_inv)) with 1. change (ncols (as_row nc_inv)) with (length nc_inv).
  rewrite bdim_one_l, bind_Ok. unfold bdim.
  apply Nat.eqb_neq in Hne, H1, H2. now rewrite Hne, H1, H2.
Qed.

Lemma multinomial_covariance_rejects_misfit_witness :
  multinomial_covariance 2 2 [Qc_of_Z 1; Qc_of_Z 2; Qc_of_Z 3] scenario_R
  = Err ShapeError.
Proof.
  apply multinomial_covariance_rejects_misfit;
    unfold scenario_R; simpl; lia.
Defined.

(** * Further properties of Utils.py *)

(** ** safe_inverse *)

(** X30.  [safe_inverse] returns one entry per entry of [x] and never a
    NaN.  The entry is 0 where [x[i] == 0]; at a non-zero [x[i]] it is
    [1 / x[i]] when that quotient stays below the overflow bound of the
    doubles, and an infinity when it does not. *)
Theorem safe_inverse_entries (x : vec) (i : nat) :
  i < length x ->
  length (safe_inverse_np x) = length x /\
  nth i (safe_inverse_np x) NaN <> NaN /\
  (vget x i = Q2Qc 0 -> nth i (safe_inverse_np x) NaN = Finite (Q2Qc 0)) /\
  (vget x i <> Q2Qc 0 -> overflows (Q2Qc 1 / vget x i)%Qc = false ->
   nth i (safe_inverse_np x) NaN = Finite (Q2Qc 1 / vget x i)%Qc) /\
  (vget x i <> Q2Qc 0 -> overflows (Q2Qc 1 / vget x i)%Qc = true ->
   nth i (safe_inverse_np x) NaN = Inf).
Proof.
  intros Hi. split; [apply length_safe_inverse_np|].
  rewrite (safe_inverse_np_nth x i Hi). unfold np_one_over.
  destruct (Qc_eq_bool_spec (vget x i) (Q2Qc 0)) as [H0|H0].
  - repeat split; try discriminate; try reflexivity; intros H; now elim H.
  - destruct (overflows (Q2Qc 1 / vget x i)%Qc);
      repeat split; try discriminate; try reflexivity; intros H; now elim H0.
Qed.

(** The docstring's array [1, 2, 3, 0, 4], at its zero entry. *)
Lemma safe_inverse_entries_witness :
  nth 3 (safe_inverse_np (map Qc_of_Z [1; 2; 3; 0; 4]%Z)) NaN = Finite (Q2Qc 0).
Proof.
  refine (proj1 (proj2 (proj2
            (safe_inverse_entries (map Qc_of_Z [1; 2; 3; 0; 4]%Z) 3 _))) _).
  - simpl. lia.
  - reflexivity.
Defined.

(** ** none_to_empty_list *)

Lemma fold_left_append_map (A B : Type) (f : A -> B) (l : list A) (acc : list B) :
  fold_left (fun outputs arg => outputs ++ [f arg]) l acc = acc ++ map f l.
Proof.
  revert acc. induction l as [|x l IH]; intros acc; simpl.
  - now rewrite app_nil_r.
  - rewrite IH, <- app_assoc. reflexivity.
Qed.

Lemma or_empty_list_not_None (arg : pyobj) : or_empty_list arg <> PyNone.
Proof. destruct arg; discriminate. Qed.

(** X17.  [none_to_empty_list] never hands back [None]: called with one
    argument it returns that argument, or the empty list in place of
    [None]; called with any other number of arguments it returns a list
    of as many values, each argument in its place and the empty list
    where the argument was [None]. *)
Theorem none_to_empty_list_replaces_None (args : list pyobj) :
  none_to_empty_list args <> PyNone
  /\ (forall arg, args = [arg] ->
      (arg = PyNone -> none_to_empty_list args = PyList [])
      /\ (arg <> PyNone -> none_to_empty_list args = arg))
  /\ (length args <> 1 ->
      exists outputs,
        none_to_empty_list args = PyList outputs
        /\ length outputs = length args
        /\ forall i, i < length args ->
             (nth i args PyNone = PyNone -> nth i outputs PyNone = PyList [])
             /\ (nth i args PyNone <> PyNone ->
                 nth i outputs PyNone = nth i args PyNone)).
Proof.
  unfold none_to_empty_list. cbv zeta.
  rewrite fold_left_append_map, app_nil_l, length_map.
  split; [|split].
  - destruct args as [|a [|b args]]; simpl; try discriminate.
    apply or_empty_list_not_None.
  - intros arg ->. cbn. split.
    + intros ->. reflexivity.
    + intros Hn. destruct arg; try reflexivity. now elim Hn.
  - intros Hlen. apply Nat.eqb_neq in Hlen. rewrite Hlen.
    exists (map or_empty_list args). split; [reflexivity|].
    split; [apply length_map|].
    intros i Hi.
    rewrite (nth_indep (map or_empty_list args) PyNone (or_empty_list PyNone))
      by (rewrite length_map; exact Hi).
    rewrite map_nth. split.
    + intros ->. reflexivity.
    + intros Hn. destruct (nth i args PyNone); try reflexivity. now elim Hn.
Qed.

Lemma none_to_empty_list_replaces_None_witness :
  exists outputs,
    none_to_empty_list [PyNone; PyStr "woo"; PyNum (Qc_of_Z 34)] = PyList outputs
    /\ length outputs = 3
    /\ forall i, i < 3 ->
         (nth i [PyNone; PyStr "woo"; PyNum (Qc_of_Z 34)] PyNone = PyNone ->
          nth i outputs PyNone = PyList [])
         /\ (nth i [PyNone; PyStr "woo"; PyNum (Qc_of_Z 34)] PyNone <> PyNone ->
             nth i outputs PyNone
             = nth i [PyNone; PyStr "woo"; PyNum (Qc_of_Z 34)] PyNone).
Proof.
  apply (proj2 (proj2 (none_to_empty_list_replaces_None
                         [PyNone; PyStr "woo"; PyNum (Qc_of_Z 34)]))).
  simpl. lia.
Defined.

(** ** class DataDist *)

Lemma DataDist_init_unfold (name : string) (data error axis edges : option vec)
    (xlabel ylabel units : string) :
  DataDist.__init__ name data error axis edges xlabel ylabel units
  = let self :=
      DataDist.Build name (array_or_empty data) (length (array_or_empty data))
        (array_or_empty error) (array_or_empty axis) (array_or_empty edges)
        (np_diff (array_or_empty edges)) xlabel ylabel units
        (np_zeros (length (array_or_empty data)))
        (np_zeros (length (array_or_empty data))) in
    match DataDist.CheckArrays self with
    | Ok _ => Ok self
    | Err e => Err e
    end.
Proof.
  destruct data, error, axis, edges; reflexivity.
Qed.

Lemma length_np_diff (v : vec) : length (np_diff v) = length v - 1.
Proof.
  unfold np_diff. rewrite length_map, length_combine.
  destruct v; [reflexivity|]. cbn [tl length]. lia.
Qed.

Lemma length_np_zeros (n : nat) : length (np_zeros n) = n.
Proof. unfold np_zeros, vtab. now rewrite length_map, length_seq. Qed.

Lemma vget_np_zeros (n i : nat) : vget (np_zeros n) i = Q2Qc 0.
Proof.
  unfold np_zeros. destruct (Nat.lt_ge_cases i n) as [Hi|Hi].
  - now rewrite vget_vtab.
  - unfold vget. rewrite nth_overflow; [reflexivity|now rewrite length_vtab].
Qed.

Lemma DataDist_init_cases
    (name : string) (data error axis edges : option vec)
    (xlabel ylabel units : string) :
  let n := length (array_or_empty data) in
  let fit := length (array_or_empty error) = n
             /\ length (array_or_empty axis) = n
             /\ length (array_or_empty edges) = n + 1 in
  (fit /\ exists d,
     DataDist.__init__ name data error axis edges xlabel ylabel units = Ok d)
  \/ (~ fit
      /\ DataDist.__init__ name data error axis edges xlabel ylabel units
         = Err ValueError).
Proof.
  intros n fit. rewrite DataDist_init_unfold. cbv zeta.
  unfold DataDist.CheckArrays.
  cbn [DataDist.nbins DataDist.error DataDist.axis DataDist.edges].
  fold n.
  destruct (Nat.eqb_spec n (length (array_or_empty error))) as [He|He];
    cbn [negb]; [|right; split; [unfold fit; intros (H & _); now elim He
                                 |reflexivity]].
  destruct (Nat.eqb_spec n (length (array_or_empty axis))) as [Ha|Ha];
    cbn [negb]; [|right; split; [unfold fit; intros (_ & H & _); now elim Ha
                                 |reflexivity]].
  destruct (Z.eqb_spec (Z.of_nat n)
              (Z.of_nat (length (array_or_empty edges)) - 1)) as [Hg|Hg];
    cbn [negb].
  - left. split; [unfold fit; repeat split; lia|]. eexists. reflexivity.
  - right. split; [unfold fit; intros (_ & _ & H); elim Hg; lia|reflexivity].
Qed.

(** X18.  A [DataDist] is built exactly when the error and axis arrays
    are as long as the data and there is one more edge than data bins, an
    omitted array counting as empty; every other call raises ValueError.
    The edges can therefore never be omitted, and [DataDist()] with all
    defaults fails. *)
Theorem DataDist_built_iff_lengths_fit
    (name : string) (data error axis edges : option vec)
    (xlabel ylabel units : string) :
  let n := length (array_or_empty data) in
  let fit := length (array_or_empty error) = n
             /\ length (array_or_empty axis) = n
             /\ length (array_or_empty edges) = n + 1 in
  (fit <-> exists d,
      DataDist.__init__ name data error axis edges xlabel ylabel units = Ok d)
  /\ (~ fit ->
      DataDist.__init__ name data error axis edges xlabel ylabel units
      = Err ValueError)
  /\ (edges = None ->
      DataDist.__init__ name data error axis edges xlabel ylabel units
      = Err ValueError).
Proof.
  intros n fit.
  destruct (DataDist_init_cases name data error axis edges xlabel ylabel units)
    as [[Hf Hd]|[Hf Hd]]; fold n in Hf; fold fit in Hf.
  - split; [|split].
    + split; [intros _; exact Hd|intros _; exact Hf].
    + intros H. now elim H.
    + intros ->. exfalso. unfold fit in Hf. simpl in Hf. lia.
  - split; [|split].
    + split; [intros H; now elim Hf|].
      intros [d H]. rewrite Hd in H. discriminate H.
    + intros _. exact Hd.
    + intros _. exact Hd.
Qed.

Lemma DataDist_built_iff_lengths_fit_witness :
  DataDist.__init__ "d" (Some [Qc_of_Z 5; Qc_of_Z 7]) (Some [Qc_of_Z 1; Qc_of_Z 1])
    (Some [Qc_of_Z 1; Qc_of_Z 3]) None "" "" ""
  = Err ValueError.
Proof.
  apply (proj2 (proj2 (DataDist_built_iff_lengths_fit "d"
           (Some [Qc_of_Z 5; Qc_of_Z 7]) (Some [Qc_of_Z 1; Qc_of_Z 1])
           (Some [Qc_of_Z 1; Qc_of_Z 3]) None "" "" ""))).
  reflexivity.
Defined.

Lemma bigsum_shift (n : nat) (f : nat -> Qc) :
  bigsum (S n) f = (f 0%nat + bigsum n (fun k => f (S k)))%Qc.
Proof.
  unfold bigsum. cbn [seq fold_right]. f_equal.
  rewrite <- seq_shift. generalize (seq 0 n). intros l.
  induction l as [|k l IH]; simpl; [reflexivity|now rewrite IH].
Qed.

Lemma vsum_cons (x : Qc) (v : vec) : vsum (x :: v) = (x + vsum v)%Qc.
Proof. unfold vsum. cbn [length]. rewrite bigsum_shift. reflexivity. Qed.

Lemma last_cons_default (v : vec) (x y : Qc) : last (y :: v) x = last v y.
Proof.
  revert x y. induction v as [|z v IH]; intros x y; [reflexivity|].
  change (last (y :: z :: v) x) with (last (z :: v) x).
  now rewrite (IH x z), (IH y z).
Qed.

Lemma last_as_nth (v : vec) (x : Qc) : last v x = vget (x :: v) (length v).
Proof.
  revert x. induction v as [|y v IH]; intros x; [reflexivity|].
  rewrite last_cons_default, IH. reflexivity.
Qed.

Lemma vsum_np_diff (x : Qc) (v : vec) :
  vsum (np_diff (x :: v)) = (last v x - x)%Qc.
Proof.
  revert x. induction v as [|y v IH]; intros x.
  - unfold np_diff, vsum, bigsum. simpl. ring.
  - change (np_diff (x :: y :: v)) with ((y - x)%Qc :: np_diff (y :: v)).
    rewrite vsum_cons, IH, last_cons_default. ring.
Qed.

Lemma vget_np_diff (v : vec) (i : nat) :
  S i < length v ->
  vget (np_diff v) i = (vget v (S i) - vget v i)%Qc.
Proof.
  revert i. induction v as [|x v IH]; intros i Hi; [simpl in Hi; lia|].
  destruct v as [|y v]; [simpl in Hi; lia|].
  change (np_diff (x :: y :: v)) with ((y - x)%Qc :: np_diff (y :: v)).
  destruct i as [|i]; [reflexivity|].
  change (vget (np_diff (y :: v)) i = (vget (y :: v) (S i) - vget (y :: v) i)%Qc).
  apply IH. simpl in *. lia.
Qed.

(** X19.  In a [DataDist] that was built, there is one width per data
    bin, each the difference of neighbouring edges, and the widths add up
    to the span from the first edge to the last; the systematic and
    statistical errors start as [nbins] zeros. *)
Theorem DataDist_widths_cover_the_span
    (name : string) (data error axis edges : option vec)
    (xlabel ylabel units : string) (d : DataDist.t) :
  DataDist.__init__ name data error axis edges xlabel ylabel units = Ok d ->
  DataDist.nbins d = length (DataDist.getData d)
  /\ length (DataDist.width d) = DataDist.nbins d
  /\ (forall i, i < DataDist.nbins d ->
        vget (DataDist.width d) i
        = (vget (DataDist.edges d) (S i) - vget (DataDist.edges d) i)%Qc)
  /\ vsum (DataDist.width d)
     = (vget (DataDist.edges d) (DataDist.nbins d) - vget (DataDist.edges d) 0%nat)%Qc
  /\ length (DataDist.sterr d) = DataDist.nbins d
  /\ length (DataDist.syerr d) = DataDist.nbins d
  /\ (forall i, vget (DataDist.sterr d) i = Q2Qc 0)
  /\ (forall i, vget (DataDist.syerr d) i = Q2Qc 0).
Proof.
  intros Hd.
  destruct (DataDist_init_cases name data error axis edges xlabel ylabel units)
    as [[(He & Ha & Hg) _]|[_ He]]; [|rewrite He in Hd; discriminate Hd].
  rewrite DataDist_init_unfold in Hd. cbv zeta in Hd.
  destruct (DataDist.CheckArrays _); [|discriminate Hd].
  injection Hd as <-.
  cbn [DataDist.nbins DataDist.getData DataDist.data DataDist.width
       DataDist.edges DataDist.sterr DataDist.syerr].
  set (n := length (array_or_empty data)) in *.
  set (g := array_or_empty edges) in *.
  split; [reflexivity|].
  split; [rewrite length_np_diff; lia|].
  split.
  { intros i Hi. apply vget_np_diff. lia. }
  split.
  { destruct g as [|x g']; [simpl in Hg; lia|].
    rewrite vsum_np_diff, last_as_nth.
    replace (length g') with n by (simpl in Hg; lia). reflexivity. }
  rewrite !length_np_zeros.
  split; [reflexivity|]. split; [reflexivity|].
  split; intros i; apply vget_np_zeros.
Qed.

Lemma DataDist_widths_cover_the_span_witness :
  exists d,
    DataDist.__init__ "d" (Some [Qc_of_Z 5; Qc_of_Z 7]) (Some [Qc_of_Z 1; Qc_of_Z 1])
      (Some [Qc_of_Z 1; Qc_of_Z 3]) (Some [Qc_of_Z 0; Qc_of_Z 2; Qc_of_Z 4])
      "" "" "" = Ok d
    /\ vsum (DataDist.width d)
       = (vget (DataDist.edges d) (DataDist.nbins d)
          - vget (DataDist.edges d) 0%nat)%Qc.
Proof.
  refine (ex_intro _ _ (conj eq_refl _)).
  apply (DataDist_widths_cover_the_span "d" (Some [Qc_of_Z 5; Qc_of_Z 7])
           (Some [Qc_of_Z 1; Qc_of_Z 1]) (Some [Qc_of_Z 1; Qc_of_Z 3])
           (Some [Qc_of_Z 0; Qc_of_Z 2; Qc_of_Z 4]) "" "" "" _ eq_refl).
Defined.

(** ** Comparisons of numbers *)

Lemma Qc_leb_le (x y : Qc) : Qc_leb x y = true <-> (x <= y)%Qc.
Proof. unfold Qc_leb, Qcle. apply Qle_bool_iff. Qed.

Lemma Qc_ltb_ge (x y : Qc) : Qc_ltb x y = false <-> (y <= x)%Qc.
Proof.
  unfold Qc_ltb, Qcle. rewrite negb_false_iff. apply Qle_bool_iff.
Qed.

Lemma Qc_ltb_lt (x y : Qc) : Qc_ltb x y = true <-> (x < y)%Qc.
Proof.
  split.
  - intros H. apply Qcnot_le_lt. intros Hle.
    apply Qc_ltb_ge in Hle. congruence.
  - intros H. destruct (Qc_ltb x y) eqn:E; [reflexivity|].
    apply Qc_ltb_ge in E. exfalso. exact (Qclt_not_le _ _ H E).
Qed.

(** ** np.searchsorted on an ascending axis *)

Lemma ascending_cons (x : Qc) (v : vec) :
  ascending (x :: v) = true ->
  ascending v = true /\ forall j, j < length v -> (x <= vget v j)%Qc.
Proof.
  revert x. induction v as [|y v IH]; intros x H.
  - split; [reflexivity|]. simpl. intros j Hj. lia.
  - change (Qc_leb x y && ascending (y :: v) = true) in H.
    apply andb_true_iff in H. destruct H as [Hxy Hv].
    split; [exact Hv|].
    apply Qc_leb_le in Hxy.
    intros [|j] Hj; [exact Hxy|].
    apply Qcle_trans with y; [exact Hxy|].
    apply (proj2 (IH y Hv)). simpl in Hj. lia.
Qed.

Lemma ascending_le (v : vec) (i j : nat) :
  ascending v = true -> i <= j -> j < length v ->
  (vget v i <= vget v j)%Qc.
Proof.
  revert i j. induction v as [|x v IH]; intros i j Hv Hij Hj;
    [simpl in Hj; lia|].
  destruct (ascending_cons x v Hv) as [Hv' Hx].
  destruct i as [|i]; destruct j as [|j]; try lia.
  - apply Qcle_refl.
  - apply Hx. simpl in Hj. lia.
  - apply (IH i j Hv'); simpl in Hj; lia.
Qed.

Lemma bisect_left_spec (a : vec) (key : Qc) :
  ascending a = true ->
  forall fuel lo hi,
    lo <= hi -> hi <= length a -> hi - lo <= fuel ->
    (forall i, i < lo -> Qc_ltb (vget a i) key = true) ->
    (forall i, hi <= i -> i < length a -> Qc_ltb (vget a i) key = false) ->
    let r := bisect_left fuel a key lo hi in
    lo <= r /\ r <= hi
    /\ (forall i, i < r -> Qc_ltb (vget a i) key = true)
    /\ (forall i, r <= i -> i < length a -> Qc_ltb (vget a i) key = false).
Proof.
  intros Ha. induction fuel as [|fuel IH]; intros lo hi Hlh Hhl Hf Hlo Hhi.
  - simpl. repeat split; try lia; [exact Hlo|].
    intros i Hi. apply Hhi. lia.
  - cbn [bisect_left]. destruct (Nat.ltb_spec lo hi) as [Hlt|Hge].
    + cbv zeta. set (mid := lo + (hi - lo) / 2).
      assert (Hmid : lo <= mid /\ mid < hi).
      { unfold mid. split; [lia|].
        assert ((hi - lo) / 2 < hi - lo) by (apply Nat.div_lt; lia). lia. }
      destruct (Qc_ltb (vget a mid) key) eqn:E.
      * destruct (IH (mid + 1) hi) as (H1 & H2 & H3 & H4); try lia.
        { intros i Hi. apply Qc_ltb_lt.
          apply Qcle_lt_trans with (vget a mid); [|now apply Qc_ltb_lt].
          apply ascending_le; [exact Ha|lia|lia]. }
        { exact Hhi. }
        repeat split; try lia; assumption.
      * destruct (IH lo mid) as (H1 & H2 & H3 & H4); try lia.
        { exact Hlo. }
        { intros i Hi Hil. apply Qc_ltb_ge.
          apply Qcle_trans with (vget a mid); [now apply Qc_ltb_ge|].
          apply ascending_le; [exact Ha|lia|lia]. }
        repeat split; try lia; assumption.
    + simpl. repeat split; try lia; [exact Hlo|].
      intros i Hi. apply Hhi. lia.
Qed.

Lemma searchsorted_spec (a : vec) (key : Qc) :
  ascending a = true ->
  searchsorted a key <= length a
  /\ forall i, i < length a ->
       Qc_ltb (vget a i) key = (i <? searchsorted a key).
Proof.
  intros Ha. unfold searchsorted.
  destruct (bisect_left_spec a key Ha (length a) 0 (length a))
    as (_ & H2 & H3 & H4); try lia.
  split; [exact H2|].
  intros i Hi. destruct (Nat.ltb_spec i (bisect_left (length a) a key 0 (length a))).
  - now apply H3.
  - now apply H4.
Qed.

(** ** Slices *)

Lemma filter_positions (A : Type) (P : Qc -> bool) (X : vec) (N : list A)
    (lo hi : nat) :
  lo <= hi -> hi <= length X ->
  (forall i, i < length X -> P (vget X i) = (lo <=? i) && (i <? hi)) ->
  map snd (filter (fun xn => P (fst xn)) (combine X N))
  = firstn (hi - lo) (skipn lo N).
Proof.
  revert N lo hi. induction X as [|x X IH]; intros N lo hi Hlh Hh HP.
  - simpl in Hh. replace (hi - lo) with 0 by lia. reflexivity.
  - destruct N as [|n N].
    { simpl. now rewrite skipn_nil, firstn_nil. }
    assert (HPS : forall l h, (forall i, (S l <=? S i) && (S i <? S h) = (l <=? i) && (i <? h)))
      by reflexivity.
    pose proof (HP 0 ltac:(simpl; lia)) as H0. change (vget (x :: X) 0) with x in H0.
    cbn [combine filter fst]. rewrite H0.
    destruct lo as [|lo].
    + destruct hi as [|hi].
      * simpl. rewrite (IH N 0 0); [reflexivity|lia|lia|].
        intros i Hi. change (vget X i) with (vget (x :: X) (S i)).
        rewrite HP by (simpl; lia). reflexivity.
      * change ((0 <=? 0) && (0 <? S hi)) with true. cbn [map snd].
        rewrite (IH N 0 hi); [now rewrite Nat.sub_0_r|lia|simpl in Hh; lia|].
        intros i Hi. change (vget X i) with (vget (x :: X) (S i)).
        rewrite HP by (simpl; lia). reflexivity.
    + destruct hi as [|hi]; [lia|].
      change ((S lo <=? 0) && (0 <? S hi)) with false. cbv iota.
      rewrite (IH N lo hi); [reflexivity|lia|simpl in Hh; lia|].
      intros i Hi. change (vget X i) with (vget (x :: X) (S i)).
      rewrite HP by (simpl; lia). reflexivity.
Qed.

Lemma py_slice_nat (N : vec) (lo hi : nat) :
  lo <= hi ->
  py_slice N (Z.of_nat lo) (Z.of_nat hi) = firstn (hi - lo) (skipn lo N).
Proof.
  intros Hlh. unfold py_slice, slice_index. cbv zeta.
  replace (Z.of_nat lo <? 0)%Z with false by (symmetry; apply Z.ltb_ge; lia).
  replace (Z.of_nat hi <? 0)%Z with false by (symmetry; apply Z.ltb_ge; lia).
  rewrite !Znat.Nat2Z.id.
  destruct (Nat.le_gt_cases hi (length N)) as [H|H].
  - rewrite !Nat.min_l by lia. reflexivity.
  - destruct (Nat.le_gt_cases lo (length N)) as [H'|H'].
    + rewrite (Nat.min_r hi), (Nat.min_l lo) by lia.
      rewrite !firstn_all2; [reflexivity|rewrite length_skipn; lia..].
    + rewrite !Nat.min_r by lia.
      rewrite !skipn_all2 by lia. now rewrite !firstn_nil.
Qed.

(** ** class TestStat *)

Lemma SetTestRangeBins_pair (X : vec) (xlo xhi : Qc) :
  TestStat.SetTestRangeBins X [xlo; xhi]
  = if Qc_ltb xlo xhi
    then Return (Z.of_nat (searchsorted X xlo), Z.of_nat (searchsorted X xhi), true)
    else Raise AssertionError.
Proof.
  unfold TestStat.SetTestRangeBins. cbn [length Nat.eqb negb].
  change (vget [xlo; xhi] 0) with xlo. change (vget [xlo; xhi] 1) with xhi.
  cbv zeta. now destruct (Qc_ltb xlo xhi).
Qed.

(** X20.  With a test range [[xlo, xhi]] on an ascending axis, the
    arrays handed to the statistic are the bins whose axis value lies in
    [xlo <= x < xhi]: the lower limit is included, the upper excluded. *)
Theorem test_range_keeps_bins_in_interval
    (name : string) (tol : option Qc) (Xaxis : vec) (xlo xhi : Qc)
    (verbose : bool) (ts : TestStat.t) (N1 N2 : vec) :
  ascending Xaxis = true ->
  TestStat.__init__ name tol Xaxis (Some [xlo; xhi]) verbose = Return ts ->
  TestStat.GetArrayRange ts N1 N2
  = (bins_within Xaxis xlo xhi N1, bins_within Xaxis xlo xhi N2).
Proof.
  intros Ha Hts. unfold TestStat.__init__ in Hts. cbv zeta in Hts.
  rewrite SetTestRangeBins_pair in Hts.
  destruct (Qc_ltb xlo xhi) eqn:Hlt; [|discriminate Hts].
  destruct (if verbose then TestStat.PrintName [xlo; xhi] else Return tt);
    [|discriminate Hts].
  injection Hts as <-.
  unfold TestStat.GetArrayRange.
  cbn [TestStat.IsRangeTS TestStat.TSbins fst snd].
  destruct (searchsorted_spec Xaxis xlo Ha) as [Hlo Plo].
  destruct (searchsorted_spec Xaxis xhi Ha) as [Hhi Phi].
  set (lo := searchsorted Xaxis xlo) in *.
  set (hi := searchsorted Xaxis xhi) in *.
  assert (Hlh : lo <= hi).
  { destruct (Nat.le_gt_cases lo hi) as [H|H]; [exact H|exfalso].
    assert (Hh : hi < length Xaxis) by lia.
    pose proof (Plo hi Hh) as E1. pose proof (Phi hi Hh) as E2.
    rewrite (proj2 (Nat.ltb_lt hi lo) H) in E1.
    rewrite Nat.ltb_irrefl in E2.
    apply Qc_ltb_lt in E1, Hlt. apply Qc_ltb_ge in E2.
    apply (Qclt_not_le _ _ (Qclt_trans _ _ _ E1 Hlt) E2). }
  assert (HP : forall i, i < length Xaxis ->
            Qc_leb xlo (vget Xaxis i) && Qc_ltb (vget Xaxis i) xhi
            = (lo <=? i) && (i <? hi)).
  { intros i Hi. rewrite (Phi i Hi). f_equal.
    pose proof (Plo i Hi) as E.
    destruct (Nat.ltb_spec i lo) as [H|H].
    - apply Qc_ltb_lt in E.
      rewrite (proj2 (Nat.leb_gt lo i) H).
      destruct (Qc_leb xlo (vget Xaxis i)) eqn:E'; [|reflexivity].
      apply Qc_leb_le in E'. exfalso. exact (Qclt_not_le _ _ E E').
    - apply Qc_ltb_ge in E. rewrite (proj2 (Nat.leb_le lo i) H).
      now apply Qc_leb_le. }
  rewrite !py_slice_nat by exact Hlh.
  unfold bins_within.
  rewrite !(filter_positions Qc
              (fun x => Qc_leb xlo x && Qc_ltb x xhi) Xaxis _ lo hi Hlh Hhi HP).
  reflexivity.
Qed.

Lemma test_range_keeps_bins_in_interval_witness :
  exists ts,
    TestStat.__init__ "RMD" None [Qc_of_Z 1; Qc_of_Z 2; Qc_of_Z 3; Qc_of_Z 4]
      (Some [Qc_of_Z 2; Qc_of_Z 4]) false = Return ts
    /\ TestStat.GetArrayRange ts
         [Qc_of_Z 10; Qc_of_Z 20; Qc_of_Z 30; Qc_of_Z 40]
         [Qc_of_Z 11; Qc_of_Z 21; Qc_of_Z 31; Qc_of_Z 41]
       = (bins_within [Qc_of_Z 1; Qc_of_Z 2; Qc_of_Z 3; Qc_of_Z 4]
            (Qc_of_Z 2) (Qc_of_Z 4)
            [Qc_of_Z 10; Qc_of_Z 20; Qc_of_Z 30; Qc_of_Z 40],
          bins_within [Qc_of_Z 1; Qc_of_Z 2; Qc_of_Z 3; Qc_of_Z 4]
            (Qc_of_Z 2) (Qc_of_Z 4)
            [Qc_of_Z 11; Qc_of_Z 21; Qc_of_Z 31; Qc_of_Z 41]).
Proof.
  refine (ex_intro _ _ (conj eq_refl _)).
  apply (test_range_keeps_bins_in_interval "RMD" None
           [Qc_of_Z 1; Qc_of_Z 2; Qc_of_Z 3; Qc_of_Z 4] (Qc_of_Z 2) (Qc_of_Z 4)
           false _ _ _ eq_refl eq_refl).
Defined.

(** X21.  A test statistic is constructed exactly when the test range is
    omitted or empty and [verbose] is off, or the range has two entries
    with the first below the second.  A verbose construction without a
    range fails with IndexError where the range is printed; any other
    range fails an assertion. *)
Theorem TestStat_constructor_outcomes
    (name : string) (tol : option Qc) (Xaxis : vec) (TestRange : option vec)
    (verbose : bool) :
  let range := match TestRange with None => [] | Some r => r end in
  let two_ascending :=
    exists xlo xhi, range = [xlo; xhi] /\ (xlo < xhi)%Qc in
  ((exists ts, TestStat.__init__ name tol Xaxis TestRange verbose = Return ts)
   <-> (range = [] /\ verbose = false) \/ two_ascending)
  /\ (range = [] -> verbose = true ->
      TestStat.__init__ name tol Xaxis TestRange verbose
      = Raise (Raised IndexError))
  /\ (range <> [] -> ~ two_ascending ->
      TestStat.__init__ name tol Xaxis TestRange verbose
      = Raise AssertionError).
Proof.
  intros range two_ascending.
  assert (Hinit : TestStat.__init__ name tol Xaxis TestRange verbose
    = match TestStat.SetTestRangeBins Xaxis range with
      | Raise r => Raise r
      | Return (lobin, hibin, isRange) =>
          match (if verbose then TestStat.PrintName range else Return tt) with
          | Raise r => Raise r
          | Return _ =>
              Return (TestStat.Build name tol Xaxis range isRange (lobin, hibin)
                        verbose true true (Qc_of_Z (-1)) (Q2Qc 0)
                        (Qc_of_Z (-1)) (-1)%Z false)
          end
      end) by reflexivity.
  rewrite Hinit. clear Hinit.
  destruct range as [|xlo [|xhi [|z r]]] eqn:Er.
  - (* no range *)
    cbn [TestStat.SetTestRangeBins].
    destruct verbose.
    + split; [|split].
      * split; [intros [ts H]; discriminate H|].
        intros [[_ H]|(xlo & xhi & H & _)]; discriminate H.
      * reflexivity.
      * intros H. now elim H.
    + split; [|split].
      * split; [intros _; left; now split|]. intros _. eexists. reflexivity.
      * intros _ H. discriminate H.
      * intros H. now elim H.
  - (* one entry *)
    split; [|split].
    + split; [intros [ts H]; discriminate H|].
      intros [[H _]|(a & b & H & _)]; discriminate H.
    + intros H. discriminate H.
    + reflexivity.
  - (* two entries *)
    rewrite SetTestRangeBins_pair.
    assert (HP : (if verbose then TestStat.PrintName [xlo; xhi] else Return tt)
                 = Return tt) by (destruct verbose; reflexivity).
    rewrite HP.
    destruct (Qc_ltb xlo xhi) eqn:Hlt.
    + apply Qc_ltb_lt in Hlt. split; [|split].
      * split; [|intros _; eexists; reflexivity].
        intros _. right. exists xlo, xhi. now split.
      * intros H. discriminate H.
      * intros _ H. elim H. exists xlo, xhi. now split.
    + apply Qc_ltb_ge in Hlt. split; [|split].
      * split; [intros [ts H]; discriminate H|].
        intros [[H _]|(a & b & H & Hab)]; [discriminate H|].
        injection H as <- <-. elim (Qclt_not_le _ _ Hab Hlt).
      * intros H. discriminate H.
      * reflexivity.
  - (* more than two entries *)
    split; [|split].
    + split; [intros [ts H]; discriminate H|].
      intros [[H _]|(a & b & H & _)]; discriminate H.
    + intros H. discriminate H.
    + reflexivity.
Qed.

Lemma TestStat_constructor_outcomes_witness :
  TestStat.__init__ "RMD" None [Qc_of_Z 1; Qc_of_Z 2] None true
  = Raise (Raised IndexError).
Proof.
  apply (proj1 (proj2 (TestStat_constructor_outcomes "RMD" None
                         [Qc_of_Z 1; Qc_of_Z 2] None true)));
    reflexivity.
Defined.

(** ** class RMD *)

Ltac qc2q :=
  unfold Qcminus in *; unfold Qcle, Qclt, Qcplus, Qcopp, Qcmult in *;
  cbn [this Q2Qc] in *; rewrite ?Qred_correct in *.

Lemma Qc_abs_cases (x : Qc) :
  ((Q2Qc 0 <= x)%Qc /\ Qc_abs x = x) \/ ((x < Q2Qc 0)%Qc /\ Qc_abs x = (- x)%Qc).
Proof.
  unfold Qc_abs. destruct (Qc_leb (Q2Qc 0) x) eqn:E.
  - left. split; [now apply Qc_leb_le|reflexivity].
  - right. split; [|reflexivity].
    apply Qcnot_le_lt. intros H. apply Qc_leb_le in H. congruence.
Qed.

Lemma Qc_abs_nonneg (x : Qc) : (Q2Qc 0 <= Qc_abs x)%Qc.
Proof.
  destruct (Qc_abs_cases x) as [[H ->]|[H ->]]; [exact H|].
  qc2q. lra.
Qed.

Lemma Qc_abs_zero (x : Qc) : Qc_abs x = Q2Qc 0 <-> x = Q2Qc 0.
Proof.
  destruct (Qc_abs_cases x) as [[H ->]|[H ->]]; [reflexivity|].
  split; intros E.
  - rewrite <- (Qcopp_involutive x), E. reflexivity.
  - rewrite E. reflexivity.
Qed.

Lemma Qc_abs_opp (x : Qc) : Qc_abs (- x) = Qc_abs x.
Proof.
  destruct (Qc_abs_cases x) as [[H ->]|[H ->]];
    destruct (Qc_abs_cases (- x)) as [[H' ->]|[H' ->]].
  - apply Qcle_antisym; qc2q; lra.
  - apply Qcopp_involutive.
  - reflexivity.
  - exfalso. qc2q. lra.
Qed.

Lemma Qc_abs_minus_sym (a b : Qc) : Qc_abs (a - b) = Qc_abs (b - a).
Proof.
  rewrite <- (Qc_abs_opp (b - a)). f_equal. ring.
Qed.

Lemma Qc_abs_minus_le_plus (a b : Qc) :
  (Q2Qc 0 <= a)%Qc -> (Q2Qc 0 <= b)%Qc -> (Qc_abs (a - b) <= a + b)%Qc.
Proof.
  intros Ha Hb.
  destruct (Qc_abs_cases (a - b)) as [[H ->]|[H ->]]; qc2q; lra.
Qed.

Lemma at_least_one_ge (h : Qc) :
  (Q2Qc 1 <= RMD.at_least_one h)%Qc /\ (h <= RMD.at_least_one h)%Qc.
Proof.
  unfold RMD.at_least_one. destruct (Qc_ltb h (Q2Qc 1)) eqn:E.
  - apply Qc_ltb_lt in E. split; [apply Qcle_refl|now apply Qclt_le_weak].
  - apply Qc_ltb_ge in E. split; [exact E|apply Qcle_refl].
Qed.

Lemma Qcinv_nonneg (h : Qc) : (Q2Qc 0 <= h)%Qc -> (Q2Qc 0 <= / h)%Qc.
Proof.
  intros H. unfold Qcle, Qcinv in *. cbn [this Q2Qc] in *.
  rewrite Qred_correct in H. rewrite !Qred_correct. now apply Qinv_le_0_compat.
Qed.

Lemma at_least_one_pos (h : Qc) :
  (Q2Qc 0 < RMD.at_least_one h)%Qc /\ RMD.at_least_one h <> Q2Qc 0.
Proof.
  destruct (at_least_one_ge h) as [H _].
  assert (Hp : (Q2Qc 0 < RMD.at_least_one h)%Qc)
    by (apply Qclt_le_trans with (Q2Qc 1); [reflexivity|exact H]).
  split; [exact Hp|]. intros E. rewrite E in Hp. discriminate Hp.
Qed.

(** One relative difference [|a - b| / max(1, a + b)]. *)
Lemma relative_difference_nonneg (a b : Qc) :
  (Q2Qc 0 <= Qc_abs (a - b) / RMD.at_least_one (a + b))%Qc.
Proof.
  unfold Qcdiv. apply Qc_zero_mult_nonneg; [apply Qc_abs_nonneg|].
  apply Qcinv_nonneg, Qclt_le_weak, at_least_one_pos.
Qed.

Lemma relative_difference_zero (a b : Qc) :
  (Qc_abs (a - b) / RMD.at_least_one (a + b))%Qc = Q2Qc 0 <-> a = b.
Proof.
  destruct (at_least_one_pos (a + b)) as [_ Hne].
  split.
  - intros E. unfold Qcdiv in E.
    destruct (Qcmult_integral _ _ E) as [E'|E'].
    + apply (proj1 (Qc_abs_zero _)) in E'.
      replace a with ((a - b) + b)%Qc by ring. rewrite E'. ring.
    + pose proof (Qcmult_inv_r _ Hne) as Hi. rewrite E', Qcmult_0_r in Hi.
      discriminate Hi.
  - intros ->. replace (b - b)%Qc with (Q2Qc 0) by ring.
    unfold Qcdiv. change (Qc_abs (Q2Qc 0)) with (Q2Qc 0). ring.
Qed.

Lemma relative_difference_le_one (a b : Qc) :
  (Q2Qc 0 <= a)%Qc -> (Q2Qc 0 <= b)%Qc ->
  (Qc_abs (a - b) / RMD.at_least_one (a + b) <= Q2Qc 1)%Qc.
Proof.
  intros Ha Hb.
  destruct (at_least_one_pos (a + b)) as [Hp Hne].
  apply Qcmult_lt_0_le_reg_r with (RMD.at_least_one (a + b)); [exact Hp|].
  replace (Qc_abs (a - b) / RMD.at_least_one (a + b) * RMD.at_least_one (a + b))%Qc
    with (Qc_abs (a - b)) by (field; exact Hne).
  replace (Q2Qc 1 * RMD.at_least_one (a + b))%Qc
    with (RMD.at_least_one (a + b)) by ring.
  apply Qcle_trans with (a + b)%Qc; [now apply Qc_abs_minus_le_plus|].
  apply at_least_one_ge.
Qed.

Lemma fold_max_spec (v : vec) (x : Qc) :
  let m := fold_left (fun m y => if Qc_ltb m y then y else m) v x in
  (m = x \/ In m v) /\ (x <= m)%Qc /\ forall y, In y v -> (y <= m)%Qc.
Proof.
  revert x. induction v as [|y v IH]; intros x; cbn [fold_left].
  - split; [now left|]. split; [apply Qcle_refl|]. intros y [].
  - destruct (IH (if Qc_ltb x y then y else x)) as (H1 & H2 & H3).
    set (m := fold_left _ v _) in *.
    destruct (Qc_ltb x y) eqn:E.
    + apply Qc_ltb_lt in E. split; [|split].
      * right. destruct H1 as [->|H1]; [now left|now right].
      * apply Qcle_trans with y; [now apply Qclt_le_weak|exact H2].
      * intros z [<-|Hz]; [exact H2|now apply H3].
    + apply Qc_ltb_ge in E. split; [|split].
      * destruct H1 as [->|H1]; [now left|right; now right].
      * exact H2.
      * intros z [<-|Hz]; [now apply Qcle_trans with x|now apply H3].
Qed.

Lemma np_max_spec (v : vec) :
  v <> [] ->
  exists m, np_max v = Ok m /\ In m v /\ forall y, In y v -> (y <= m)%Qc.
Proof.
  destruct v as [|x v]; [intros H; now elim H|]. intros _.
  destruct (fold_max_spec v x) as (H1 & H2 & H3).
  eexists. split; [reflexivity|]. split.
  - destruct H1 as [->|H1]; [now left|now right].
  - intros y [<-|Hy]; [exact H2|now apply H3].
Qed.

Lemma map_vtab (f : Qc -> Qc) (n : nat) (g : nat -> Qc) :
  map f (vtab n g) = vtab n (fun i => f (g i)).
Proof. unfold vtab. apply map_map. Qed.

Lemma relative_differences_same (N1 N2 : vec) :
  length N1 = length N2 ->
  RMD.relative_differences N1 N2
  = Ok (vtab (length N1)
          (fun i => (Qc_abs (vget N1 i - vget N2 i)
                     / RMD.at_least_one (vget N1 i + vget N2 i))%Qc)).
Proof.
  intros Hl. unfold RMD.relative_differences.
  rewrite (vbroadcast_same Qcplus N1 N2 (length N1) eq_refl (eq_sym Hl)).
  next_stmt.
  rewrite (vbroadcast_same Qcminus N1 N2 (length N1) eq_refl (eq_sym Hl)).
  next_stmt. cbv zeta. rewrite !map_vtab.
  rewrite (vbroadcast_same Qcdiv _ _ (length N1)) by apply length_vtab.
  f_equal. apply vtab_ext. intros i Hi. now rewrite !vget_vtab.
Qed.

Lemma vec_ext (u v : vec) :
  length u = length v -> (forall i, i < length u -> vget u i = vget v i) -> u = v.
Proof.
  intros Hl H. apply (nth_ext u v (Q2Qc 0) (Q2Qc 0) Hl H).
Qed.

Lemma In_vtab (n : nat) (f : nat -> Qc) (m : Qc) :
  In m (vtab n f) <-> exists i, i < n /\ m = f i.
Proof.
  unfold vtab. rewrite in_map_iff. split.
  - intros (i & <- & Hi). apply in_seq in Hi. exists i. split; [lia|reflexivity].
  - intros (i & Hi & ->). exists i. split; [reflexivity|apply in_seq; lia].
Qed.

Lemma TestLengths_cases (ts : TestStat.t) (N1 N2 : vec) :
  (length N1 <> length N2
   /\ TestStat.TestLengths ts N1 N2 = (ts, Raise AssertionError))
  \/ (length N1 = length N2
      /\ exists ts1, TestStat.TestLengths ts N1 N2 = (ts1, Return tt)
         /\ TestStat.dofSet ts1 = true
         /\ TestStat.stat ts1 = TestStat.stat ts
         /\ TestStat.delstat ts1 = TestStat.delstat ts
         /\ TestStat.prob ts1 = TestStat.prob ts
         /\ TestStat.verbose ts1 = TestStat.verbose ts
         /\ TestStat.printProbMessage ts1 = TestStat.printProbMessage ts
         /\ TestStat.printStatsHeader ts1 = TestStat.printStatsHeader ts
         /\ TestStat.IsRangeTS ts1 = TestStat.IsRangeTS ts
         /\ TestStat.TSbins ts1 = TestStat.TSbins ts
         /\ TestStat.dof ts1
            = (if TestStat.dofSet ts then TestStat.dof ts
               else if (TestStat.dof ts =? -1)%Z then Z.of_nat (length N1)
                    else TestStat.dof ts)).
Proof.
  unfold TestStat.TestLengths. cbv zeta.
  destruct (Nat.eqb_spec (length N1) (length N2)) as [E|E]; cbn [negb].
  - right. split; [exact E|].
    destruct (TestStat.dofSet ts) eqn:Es; cbn [negb].
    + exists ts. rewrite Es. repeat split; reflexivity.
    + eexists. split; [reflexivity|].
      unfold TestStat.SetDOF.
      destruct (TestStat.dof ts =? -1)%Z; repeat split; reflexivity.
  - left. split; [exact E|reflexivity].
Qed.

Lemma RMD_TSCalc_cases (ts : TestStat.t) (N1 N2 : vec) :
  let R1 := fst (TestStat.GetArrayRange ts N1 N2) in
  let R2 := snd (TestStat.GetArrayRange ts N1 N2) in
  let ts1 := fst (TestStat.TestLengths ts R1 R2) in
  (length R1 <> length R2
   /\ RMD.TSCalc ts N1 N2 = (ts, Raise AssertionError))
  \/ (R1 = [] /\ R2 = []
      /\ RMD.TSCalc ts N1 N2 = (ts1, Raise (Raised ValueError)))
  \/ (length R1 = length R2 /\ R1 <> []
      /\ exists stat,
           RMD.TSCalc ts N1 N2 = (TestStat.SetStat ts1 stat, Return tt)
           /\ (exists i, i < length R1
                 /\ stat = (Qc_abs (vget R1 i - vget R2 i)
                            / RMD.at_least_one (vget R1 i + vget R2 i))%Qc)
           /\ (forall i, i < length R1 ->
                 (Qc_abs (vget R1 i - vget R2 i)
                  / RMD.at_least_one (vget R1 i + vget R2 i) <= stat)%Qc)).
Proof.
  intros R1 R2 ts1. unfold RMD.TSCalc.
  destruct (TestStat.GetArrayRange ts N1 N2) as [r1 r2] eqn:ER.
  cbn [fst snd] in R1, R2. subst R1 R2.
  destruct (TestLengths_cases ts r1 r2) as [[Hne HT]|[He (ts' & HT & _)]].
  - left. split; [exact Hne|]. now rewrite HT.
  - right. subst ts1. rewrite HT. cbn [fst].
    rewrite (relative_differences_same r1 r2 He).
    destruct r1 as [|x r1].
    + left. destruct r2; [|discriminate He]. repeat split.
    + right. split; [exact He|]. split; [discriminate|].
      set (q := vtab _ _).
      destruct (np_max_spec q) as (m & Hm & Hin & Hmax).
      { unfold q, vtab. discriminate. }
      rewrite Hm. exists m. split; [reflexivity|]. split.
      * apply In_vtab in Hin. exact Hin.
      * intros i Hi. apply Hmax. apply In_vtab. exists i. now split.
Qed.

(** X22.  The maximal relative difference of two equally long, non-empty
    ranges is computed without error, and it is zero exactly when the two
    ranges agree bin by bin. *)
Theorem RMD_zero_iff_bins_agree
    (ts : TestStat.t) (N1 N2 R1 R2 : vec) :
  TestStat.GetArrayRange ts N1 N2 = (R1, R2) ->
  length R1 = length R2 -> R1 <> [] ->
  exists ts',
    RMD.TSCalc ts N1 N2 = (ts', Return tt)
    /\ (TestStat.stat ts' = Q2Qc 0 <-> R1 = R2).
Proof.
  intros HR Hl Hne.
  pose proof (RMD_TSCalc_cases ts N1 N2) as H. rewrite HR in H.
  cbn [fst snd] in H.
  destruct H as [[H _]|[(H & _)|(_ & _ & stat & HT & (i & Hi & Hs) & Hmax)]];
    [now elim H|now elim Hne|].
  eexists. split; [exact HT|]. cbn [TestStat.SetStat TestStat.set_stat TestStat.stat].
  split.
  - intros E. apply vec_ext; [exact Hl|]. intros k Hk.
    apply relative_difference_zero. apply Qcle_antisym.
    + rewrite <- E. now apply Hmax.
    + apply relative_difference_nonneg.
  - intros E. rewrite Hs. apply relative_difference_zero. now rewrite E.
Qed.

Lemma RMD_zero_iff_bins_agree_witness :
  exists ts',
    RMD.TSCalc
      (TestStat.Build "RMD" None [] [] false (0%Z, (-1)%Z) false true true
         (Qc_of_Z (-1)) (Q2Qc 0) (Qc_of_Z (-1)) (-1)%Z false)
      [Qc_of_Z 3; Qc_of_Z 5] [Qc_of_Z 3; Qc_of_Z 5] = (ts', Return tt)
    /\ (TestStat.stat ts' = Q2Qc 0
        <-> [Qc_of_Z 3; Qc_of_Z 5] = [Qc_of_Z 3; Qc_of_Z 5]).
Proof.
  apply (RMD_zero_iff_bins_agree
           (TestStat.Build "RMD" None [] [] false (0%Z, (-1)%Z) false true true
            (Qc_of_Z (-1)) (Q2Qc 0) (Qc_of_Z (-1)) (-1)%Z false)
           [Qc_of_Z 3; Qc_of_Z 5] [Qc_of_Z 3; Qc_of_Z 5]
           [Qc_of_Z 3; Qc_of_Z 5] [Qc_of_Z 3; Qc_of_Z 5] eq_refl eq_refl).
  discriminate.
Defined.

(** X23.  On counts that are not negative the maximal relative
    difference lies between 0 and 1. *)
Theorem RMD_between_zero_and_one
    (ts : TestStat.t) (N1 N2 R1 R2 : vec) :
  TestStat.GetArrayRange ts N1 N2 = (R1, R2) ->
  length R1 = length R2 -> R1 <> [] ->
  nonneg_vec R1 = true -> nonneg_vec R2 = true ->
  exists ts',
    RMD.TSCalc ts N1 N2 = (ts', Return tt)
    /\ (Q2Qc 0 <= TestStat.stat ts')%Qc /\ (TestStat.stat ts' <= Q2Qc 1)%Qc.
Proof.
  intros HR Hl Hne Hn1 Hn2.
  pose proof (RMD_TSCalc_cases ts N1 N2) as H. rewrite HR in H.
  cbn [fst snd] in H.
  destruct H as [[H _]|[(H & _)|(_ & _ & stat & HT & (i & Hi & Hs) & Hmax)]];
    [now elim H|now elim Hne|].
  eexists. split; [exact HT|]. cbn [TestStat.SetStat TestStat.set_stat TestStat.stat].
  rewrite Hs. split.
  - apply relative_difference_nonneg.
  - apply relative_difference_le_one; now apply nonneg_vec_vget.
Qed.

Lemma RMD_between_zero_and_one_witness :
  exists ts',
    RMD.TSCalc
      (TestStat.Build "RMD" None [] [] false (0%Z, (-1)%Z) false true true
         (Qc_of_Z (-1)) (Q2Qc 0) (Qc_of_Z (-1)) (-1)%Z false)
      [Qc_of_Z 3; Qc_of_Z 5] [Qc_of_Z 4; Qc_of_Z 0] = (ts', Return tt)
    /\ (Q2Qc 0 <= TestStat.stat ts')%Qc /\ (TestStat.stat ts' <= Q2Qc 1)%Qc.
Proof.
  apply (RMD_between_zero_and_one
           (TestStat.Build "RMD" None [] [] false (0%Z, (-1)%Z) false true true
            (Qc_of_Z (-1)) (Q2Qc 0) (Qc_of_Z (-1)) (-1)%Z false)
           [Qc_of_Z 3; Qc_of_Z 5] [Qc_of_Z 4; Qc_of_Z 0]
           [Qc_of_Z 3; Qc_of_Z 5] [Qc_of_Z 4; Qc_of_Z 0] eq_refl eq_refl);
    [discriminate|reflexivity|reflexivity].
Defined.

(** X24.  The maximal relative difference does not depend on the order
    of the two distributions: result, errors and stored state are the
    same either way. *)
Theorem RMD_is_symmetric (ts : TestStat.t) (N1 N2 : vec) :
  RMD.TSCalc ts N1 N2 = RMD.TSCalc ts N2 N1.
Proof.
  unfold RMD.TSCalc.
  assert (Hswap : TestStat.GetArrayRange ts N2 N1
                  = (snd (TestStat.GetArrayRange ts N1 N2),
                     fst (TestStat.GetArrayRange ts N1 N2)))
    by (unfold TestStat.GetArrayRange; now destruct (TestStat.IsRangeTS ts)).
  rewrite Hswap.
  destruct (TestStat.GetArrayRange ts N1 N2) as [r1 r2]. cbn [fst snd].
  destruct (Nat.eq_dec (length r1) (length r2)) as [E|E].
  - assert (HT : TestStat.TestLengths ts r1 r2 = TestStat.TestLengths ts r2 r1)
      by (unfold TestStat.TestLengths; now rewrite E).
    rewrite HT.
    destruct (TestStat.TestLengths ts r2 r1) as [ts1 [u|r]]; [|reflexivity].
    rewrite (relative_differences_same r1 r2 E).
    rewrite (relative_differences_same r2 r1 (eq_sym E)).
    rewrite E.
    rewrite (vtab_ext (length r2)
               (fun i => (Qc_abs (vget r1 i - vget r2 i)
                          / RMD.at_least_one (vget r1 i + vget r2 i))%Qc)
               (fun i => (Qc_abs (vget r2 i - vget r1 i)
                          / RMD.at_least_one (vget r2 i + vget r1 i))%Qc));
      [reflexivity|].
    intros i _. now rewrite Qc_abs_minus_sym, Qcplus_comm.
  - destruct (TestLengths_cases ts r1 r2) as [[_ ->]|[E' _]]; [|now elim E].
    destruct (TestLengths_cases ts r2 r1) as [[_ ->]|[E' _]];
      [reflexivity|now elim E].
Qed.

(** X25.  [RMD.TSCalc] succeeds exactly when the two ranges are equally
    long and not empty.  Ranges of different lengths fail the length
    assertion and leave the object as it was; two empty ranges pass it
    and fail with ValueError at the maximum, with the statistic unchanged
    but the degrees of freedom marked as set. *)
Theorem RMD_failure_modes (ts : TestStat.t) (N1 N2 R1 R2 : vec) :
  TestStat.GetArrayRange ts N1 N2 = (R1, R2) ->
  (snd (RMD.TSCalc ts N1 N2) = Return tt
   <-> length R1 = length R2 /\ R1 <> [])
  /\ (length R1 <> length R2 ->
      RMD.TSCalc ts N1 N2 = (ts, Raise AssertionError))
  /\ (R1 = [] -> R2 = [] ->
      snd (RMD.TSCalc ts N1 N2) = Raise (Raised ValueError)
      /\ TestStat.stat (fst (RMD.TSCalc ts N1 N2)) = TestStat.stat ts
      /\ TestStat.dofSet (fst (RMD.TSCalc ts N1 N2)) = true).
Proof.
  intros HR.
  pose proof (RMD_TSCalc_cases ts N1 N2) as H. rewrite HR in H.
  cbn [fst snd] in H.
  destruct H as [[Hne HT]|[(H1 & H2 & HT)|(Hl & Hne & stat & HT & _)]];
    rewrite HT; cbn [fst snd].
  - split; [|split].
    + split; [discriminate|]. intros [E _]. now elim Hne.
    + reflexivity.
    + intros -> ->. now elim Hne.
  - split; [|split].
    + split; [discriminate|]. intros [_ E]. now elim E.
    + subst. intros E. now elim E.
    + intros _ _. split; [reflexivity|].
      destruct (TestLengths_cases ts R1 R2) as [[E _]|[_ (ts1 & -> & Hd & Hs & _)]].
      * subst. now elim E.
      * cbn [fst]. now split.
  - split; [|split].
    + split; [now split|reflexivity].
    + intros E. now elim E.
    + intros E. now elim Hne.
Qed.

Lemma RMD_failure_modes_witness :
  RMD.TSCalc
    (TestStat.Build "RMD" None [] [] false (0%Z, (-1)%Z) false true true
       (Qc_of_Z (-1)) (Q2Qc 0) (Qc_of_Z (-1)) (-1)%Z false)
    [Qc_of_Z 3; Qc_of_Z 5] [Qc_of_Z 4]
  = (TestStat.Build "RMD" None [] [] false (0%Z, (-1)%Z) false true true
       (Qc_of_Z (-1)) (Q2Qc 0) (Qc_of_Z (-1)) (-1)%Z false,
     Raise AssertionError).
Proof.
  apply (proj1 (proj2 (RMD_failure_modes
           (TestStat.Build "RMD" None [] [] false (0%Z, (-1)%Z) false true true
            (Qc_of_Z (-1)) (Q2Qc 0) (Qc_of_Z (-1)) (-1)%Z false)
           [Qc_of_Z 3; Qc_of_Z 5] [Qc_of_Z 4]
           [Qc_of_Z 3; Qc_of_Z 5] [Qc_of_Z 4] eq_refl))).
  simpl. lia.
Defined.

Lemma TestLengths_keeps_set_dof (ts : TestStat.t) (N1 N2 : vec) :
  TestStat.dofSet ts = true ->
  TestStat.dof (fst (TestStat.TestLengths ts N1 N2)) = TestStat.dof ts
  /\ TestStat.dofSet (fst (TestStat.TestLengths ts N1 N2)) = true.
Proof.
  intros Hs.
  destruct (TestLengths_cases ts N1 N2)
    as [[_ ->]|[_ (ts1 & -> & Hd & _ & _ & _ & _ & _ & _ & _ & _ & Hdof)]];
    cbn [fst]; [now split|].
  rewrite Hs in Hdof. now split.
Qed.

(** X26.  The degrees of freedom are fixed by the first successful
    comparison: on an object as the constructor leaves it they become the
    number of compared bins, and no later comparison, of whatever length,
    changes them. *)
Theorem dof_is_fixed_by_first_comparison
    (ts ts1 : TestStat.t) (N1 N2 : vec) :
  RMD.TSCalc ts N1 N2 = (ts1, Return tt) ->
  (TestStat.dofSet ts = false -> TestStat.dof ts = (-1)%Z ->
   TestStat.dof ts1
   = Z.of_nat (length (fst (TestStat.GetArrayRange ts N1 N2))))
  /\ forall M1 M2,
       TestStat.dof (fst (RMD.TSCalc ts1 M1 M2)) = TestStat.dof ts1.
Proof.
  intros HT.
  destruct (RMD_TSCalc_cases ts N1 N2)
    as [[_ H]|[(_ & _ & H)|(Hl & _ & stat & H & _)]];
    rewrite H in HT; try discriminate HT.
  injection HT as <-.
  destruct (TestLengths_cases ts (fst (TestStat.GetArrayRange ts N1 N2))
              (snd (TestStat.GetArrayRange ts N1 N2)))
    as [[E _]|[_ (ts0 & HT0 & Hd & _ & _ & _ & _ & _ & _ & _ & _ & Hdof)]];
    [now elim E|].
  rewrite HT0. cbn [fst].
  split.
  - intros Hs Hm. cbn [TestStat.SetStat TestStat.set_stat TestStat.dof].
    rewrite Hdof, Hs, Hm. reflexivity.
  - intros M1 M2.
    set (ts1 := TestStat.SetStat ts0 stat).
    assert (Hset : TestStat.dofSet ts1 = true) by exact Hd.
    destruct (TestLengths_keeps_set_dof ts1
                (fst (TestStat.GetArrayRange ts1 M1 M2))
                (snd (TestStat.GetArrayRange ts1 M1 M2)) Hset) as [Hk _].
    destruct (RMD_TSCalc_cases ts1 M1 M2)
      as [[_ H']|[(_ & _ & H')|(_ & _ & stat' & H' & _)]];
      rewrite H'; cbn [fst]; [reflexivity|exact Hk|exact Hk].
Qed.

Lemma dof_is_fixed_by_first_comparison_witness :
  TestStat.dof
    (fst (RMD.TSCalc
            (TestStat.Build "RMD" None [] [] false (0%Z, (-1)%Z)
               false true true (Qc_of_Z (-1)) (Q2Qc 0)
               (Qc_of_Z (-1)) (-1)%Z false)
            [Qc_of_Z 3; Qc_of_Z 5] [Qc_of_Z 4; Qc_of_Z 0]))
  = 2%Z.
Proof.
  assert (H : RMD.TSCalc
                (TestStat.Build "RMD" None [] [] false (0%Z, (-1)%Z)
                   false true true (Qc_of_Z (-1)) (Q2Qc 0)
                   (Qc_of_Z (-1)) (-1)%Z false)
                [Qc_of_Z 3; Qc_of_Z 5] [Qc_of_Z 4; Qc_of_Z 0]
              = (fst (RMD.TSCalc
                        (TestStat.Build "RMD" None [] [] false (0%Z, (-1)%Z)
                           false true true (Qc_of_Z (-1)) (Q2Qc 0)
                           (Qc_of_Z (-1)) (-1)%Z false)
                        [Qc_of_Z 3; Qc_of_Z 5] [Qc_of_Z 4; Qc_of_Z 0]),
                 Return tt)) by reflexivity.
  apply (proj1 (dof_is_fixed_by_first_comparison _ _ _ _ H)); reflexivity.
Defined.

(** X27.  [RMD.GetStats] returns the statistic it stored, its change
    against the statistic stored before, and the probability that was
    stored before: the class computes no probability, so a fresh object
    reports -1. *)
Theorem RMD_GetStats_reports
    (ts ts' : TestStat.t) (N1 N2 : vec) (stat delstat prob : Qc) :
  RMD.GetStats ts N1 N2 = (ts', Return (stat, delstat, prob)) ->
  TestStat.stat ts' = stat
  /\ delstat = (stat - TestStat.stat ts)%Qc
  /\ prob = TestStat.prob ts
  /\ TestStat.prob ts' = TestStat.prob ts.
Proof.
  unfold RMD.GetStats, TestStat.GetStats. intros HG.
  destruct (RMD_TSCalc_cases ts N1 N2)
    as [[_ H]|[(_ & _ & H)|(Hl & _ & s & H & _)]];
    rewrite H in HG; try discriminate HG.
  destruct (TestLengths_cases ts (fst (TestStat.GetArrayRange ts N1 N2))
              (snd (TestStat.GetArrayRange ts N1 N2)))
    as [[E _]|[_ (ts0 & HT0 & _ & Hs & _ & Hp & _)]];
    [now elim E|].
  rewrite HT0 in HG. cbn [fst] in HG.
  rewrite <- Hs, <- Hp. clear Hs Hp HT0 H.
  destruct ts0 as [n0 t0 X0 R0 ir bins vb pm ph st ds pr df dfs].
  unfold TestStat.Prob, TestStat.PrintStats in HG.
  destruct vb, pm, ph; cbn in HG; injection HG as <- <- <- <-;
    repeat split; reflexivity.
Qed.

Lemma RMD_GetStats_reports_witness :
  TestStat.prob
    (fst (RMD.GetStats
            (TestStat.Build "RMD" None [] [] false (0%Z, (-1)%Z) false true
               true (Qc_of_Z (-1)) (Q2Qc 0) (Qc_of_Z (-1)) (-1)%Z false)
            [Qc_of_Z 3; Qc_of_Z 5] [Qc_of_Z 4; Qc_of_Z 0]))
  = Qc_of_Z (-1).
Proof.
  destruct (RMD.GetStats
              (TestStat.Build "RMD" None [] [] false (0%Z, (-1)%Z) false true
                 true (Qc_of_Z (-1)) (Q2Qc 0) (Qc_of_Z (-1)) (-1)%Z false)
              [Qc_of_Z 3; Qc_of_Z 5] [Qc_of_Z 4; Qc_of_Z 0])
    as [ts' [[[s d] p]|r]] eqn:E.
  - exact (proj2 (proj2 (proj2 (RMD_GetStats_reports _ _ _ _ _ _ _ E)))).
  - vm_compute in E. discriminate E.
Defined.

(** ** class Regularizer *)

Lemma forallb_combine_eqb (l l' : list nat) :
  length l = length l' ->
  forallb (fun ab => fst ab =? snd ab) (combine l l') = true <-> l = l'.
Proof.
  revert l'. induction l as [|x l IH]; intros [|y l'] Hl;
    try discriminate Hl.
  - split; reflexivity.
  - cbn [combine forallb fst snd]. rewrite andb_true_iff, Nat.eqb_eq.
    injection Hl as Hl. rewrite (IH l' Hl). split.
    + intros [-> ->]. reflexivity.
    + intros E. injection E as -> ->. now split.
Qed.

Lemma digit_value_lt (c : ascii) (d : nat) : digit_value c = Some d -> d < 10.
Proof.
  unfold digit_value. cbv zeta.
  destruct (Nat.leb_spec 48 (nat_of_ascii c)); cbn [andb]; [|discriminate].
  destruct (Nat.leb_spec (nat_of_ascii c) 57); [|discriminate].
  intros E. injection E as <-. lia.
Qed.

Lemma digits_of_lt (s : string) (d : nat) : In d (digits_of s) -> d < 10.
Proof.
  induction s as [|c s IH]; cbn [digits_of]; [intros []|].
  destruct (digit_value c) as [d'|] eqn:E; [|exact IH].
  intros [<-|H]; [exact (digit_value_lt c d' E)|now apply IH].
Qed.

(** X28.  The fit function string is accepted exactly when its decimal
    digits, read left to right, are 0, 1, ..., nParams - 1; every other
    string fails an assertion.  Since only single digits are read, no
    function of more than ten parameters can be accepted. *)
Theorem TestFuncString_accepts_counted_digits
    (self : Regularizer.t) (funcstring : string) :
  (Regularizer.TestFuncString self funcstring = Return tt
   <-> digits_of funcstring = seq 0 (Regularizer.nParams self))
  /\ (Regularizer.TestFuncString self funcstring = Return tt
      \/ Regularizer.TestFuncString self funcstring = Raise AssertionError)
  /\ (10 < Regularizer.nParams self ->
      Regularizer.TestFuncString self funcstring = Raise AssertionError).
Proof.
  assert (Hiff : Regularizer.TestFuncString self funcstring = Return tt
                 <-> digits_of funcstring = seq 0 (Regularizer.nParams self)).
  { unfold Regularizer.TestFuncString. cbv zeta.
    destruct (Nat.eqb_spec (length (digits_of funcstring))
                (Regularizer.nParams self)) as [E|E]; cbn [negb].
    - rewrite E.
      destruct (forallb _ _) eqn:F; cbn [negb].
      + apply forallb_combine_eqb in F; [|now rewrite length_seq].
        split; [intros _; exact F|reflexivity].
      + split; [discriminate|]. intros H.
        apply forallb_combine_eqb in H; [|now rewrite length_seq].
        congruence.
    - split; [discriminate|]. intros H. elim E.
      now rewrite H, length_seq. }
  assert (Hor : Regularizer.TestFuncString self funcstring = Return tt
                \/ Regularizer.TestFuncString self funcstring
                   = Raise AssertionError).
  { unfold Regularizer.TestFuncString. cbv zeta.
    destruct (negb _); [now right|]. destruct (negb _); [now right|now left]. }
  split; [exact Hiff|]. split; [exact Hor|].
  intros Hn. destruct Hor as [H|H]; [exfalso|exact H].
  apply Hiff in H.
  assert (Hin : In 10 (digits_of funcstring))
    by (rewrite H; apply in_seq; lia).
  apply digits_of_lt in Hin. lia.
Qed.

Lemma TestFuncString_accepts_counted_digits_witness :
  Regularizer.TestFuncString
    (Regularizer.Build [] 11 [] [] [] false)
    "[0]+[1]*x+[2]+[3]+[4]+[5]+[6]+[7]+[8]+[9]+[10]"
  = Raise AssertionError.
Proof.
  apply (proj2 (proj2 (TestFuncString_accepts_counted_digits
                         (Regularizer.Build [] 11 [] [] [] false)
                         "[0]+[1]*x+[2]+[3]+[4]+[5]+[6]+[7]+[8]+[9]+[10]"))).
  simpl. lia.
Defined.

Lemma check_limits_seq (PLo PHi : vec) (m : nat) :
  forall (k : nat) (self : Regularizer.t),
    k + m <= length PLo -> k + m <= length PHi ->
    let r := Regularizer.check_limits self PLo PHi (seq k m) in
    (snd r = Return tt
     <-> forall i, k <= i -> i < k + m ->
           Qc_ltb (vget PLo i) (vget PHi i) = true)
    /\ (snd r = Return tt \/ snd r = Raise AssertionError)
    /\ (snd r = Return tt ->
        Regularizer.ParLimProvided (fst r)
        = (0 <? m) || Regularizer.ParLimProvided self).
Proof.
  induction m as [|m IH]; intros k self HLo HHi.
  - cbn. split; [|split].
    + split; [intros _ i Hi Hi'; lia|reflexivity].
    + now left.
    + reflexivity.
  - cbn [seq Regularizer.check_limits].
    rewrite !getitem_ok by lia.
    destruct (Qc_ltb (vget PLo k) (vget PHi k)) eqn:E; cbn [negb].
    + destruct (IH (S k) (Regularizer.set_ParLimProvided self true))
        as (H1 & H2 & H3); try lia.
      cbv zeta in H1, H2, H3. cbv zeta. split; [|split].
      * rewrite H1. split.
        -- intros H i Hi Hi'. destruct (Nat.eq_dec i k) as [->|Hne];
             [exact E|apply H; lia].
        -- intros H i Hi Hi'. apply H; lia.
      * exact H2.
      * intros H. rewrite (H3 H). cbn. now rewrite orb_true_r.
    + cbv zeta. cbn [fst snd]. split; [|split].
      * split; [discriminate|]. intros H.
        rewrite (H k) in E by lia. discriminate E.
      * now right.
      * discriminate.
Qed.

(** X29.  Parameter limits are used only when both arrays are given: with
    either one empty, [SetParLimits] does nothing and raises nothing.
    With both given it succeeds exactly when both have one entry per
    parameter and every lower limit is below its upper limit, and then
    marks the limits as provided; otherwise an assertion fails. *)
Theorem SetParLimits_outcomes (self : Regularizer.t) :
  Regularizer.nParams self = length (Regularizer.Params self) ->
  let PLo := Regularizer.ParamLimitsLo self in
  let PHi := Regularizer.ParamLimitsHi self in
  let r := Regularizer.SetParLimits self in
  (PLo = [] \/ PHi = [] -> r = (self, Return tt))
  /\ (PLo <> [] -> PHi <> [] ->
      (snd r = Return tt
       <-> length PLo = Regularizer.nParams self
           /\ length PHi = Regularizer.nParams self
           /\ forall i, i < Regularizer.nParams self ->
                (vget PLo i < vget PHi i)%Qc)
      /\ (snd r = Return tt -> Regularizer.ParLimProvided (fst r) = true)
      /\ (snd r = Return tt \/ snd r = Raise AssertionError)).
Proof.
  intros Hn PLo PHi r. subst r. unfold Regularizer.SetParLimits.
  fold PLo PHi. split.
  - intros [->| ->]; cbn [length Nat.eqb negb andb];
      [reflexivity|now rewrite andb_false_r].
  - intros HLo HHi.
    assert (L1 : length PLo <> 0)
      by (intros E; apply length_zero_iff_nil in E; contradiction).
    assert (L2 : length PHi <> 0)
      by (intros E; apply length_zero_iff_nil in E; contradiction).
    rewrite (proj2 (Nat.eqb_neq _ _) L1), (proj2 (Nat.eqb_neq _ _) L2).
    cbn [negb andb]. cbv zeta.
    unfold Regularizer.TestLengths.
    destruct (Nat.eqb_spec (length PLo) (length PHi)) as [E1|E1].
    + rewrite <- Hn.
      destruct (Nat.eqb_spec (length PLo) (Regularizer.nParams self)) as [E2|E2].
      * destruct (check_limits_seq PLo PHi (Regularizer.nParams self) 0 self)
          as (H1 & H2 & H3); try lia.
        cbv zeta in H1, H2, H3. split; [|split].
        -- rewrite H1. split.
           ++ intros H. split; [exact E2|]. split; [lia|].
              intros i Hi. apply Qc_ltb_lt. apply H; lia.
           ++ intros (_ & _ & H) i _ Hi. apply Qc_ltb_lt. apply H. lia.
        -- intros H. rewrite (H3 H).
           replace (0 <? Regularizer.nParams self) with true; [reflexivity|].
           symmetry. apply Nat.ltb_lt. lia.
        -- exact H2.
      * cbn [fst snd]. split; [|split].
        -- split; [discriminate|]. intros (H & _). now elim E2.
        -- discriminate.
        -- now right.
    + cbn [fst snd]. split; [|split].
      * split; [discriminate|]. intros (H & H' & _). elim E1. congruence.
      * discriminate.
      * now right.
Qed.

Lemma SetParLimits_outcomes_witness :
  Regularizer.SetParLimits
    (Regularizer.Build [] 2 [Qc_of_Z 1; Qc_of_Z 1] [Qc_of_Z 0; Qc_of_Z 0] []
       false)
  = (Regularizer.Build [] 2 [Qc_of_Z 1; Qc_of_Z 1] [Qc_of_Z 0; Qc_of_Z 0] []
       false,
     Return tt).
Proof.
  apply (proj1 (SetParLimits_outcomes
                  (Regularizer.Build [] 2 [Qc_of_Z 1; Qc_of_Z 1]
                     [Qc_of_Z 0; Qc_of_Z 0] [] false) eq_refl)).
  right. reflexivity.
Defined.
